(** * Auto Focus Depth Blur: the numeric core of [main.py]

    A shallow embedding of [AutoFocusProcessor] (depth normalisation,
    focus-plane estimation, blur-mask construction, the two compositors)
    and of the [/auto-focus] endpoint's parameter validation.

    Number model.  A NumPy floating value is a [float]: the IEEE special
    values [NaN] and [Inf] are kept with their IEEE rules (0/0 is NaN,
    x/0 is infinite, NaN propagates, comparisons with NaN are false), and
    a finite value is a rational, kept in lowest terms.  An IEEE operation
    is the exact operation followed by rounding to nearest, ties to even,
    with gradual underflow and overflow to infinity: [round32] for the
    binary32 arrays (depth maps, masks, blends), [round64] for Python's
    own floats.  A Python scalar that meets a float32 array or scalar
    takes its precision, as under NumPy 2.  The sign of zero is not kept.

    Arrays.  A 2-D array is a list of rows; an RGB image is a 2-D array of
    channel triples with channels in 0..255 as [Z].

    Library code.  NumPy's reductions, [np.median], [np.histogram] and
    OpenCV's [GaussianBlur] are modelled from their documented behaviour,
    the last two in exact arithmetic: the statements that involve them
    either take the library's result as given or use only what rounding
    cannot change.  The Gaussian coefficients themselves (an exponential)
    are a parameter, [getGaussianKernel]. *)

From Stdlib Require Import ZArith QArith Qabs Qround Qreduction Qpower Lqa Lia.
From Stdlib Require Import String Ascii.
From stdpp Require Import base list.

(** ** Python exceptions *)

Inductive exn : Type :=
| ValueError (msg : string)
| ZeroDivisionError (msg : string)
| OverflowError (msg : string)
| IndexError (msg : string)
| cv2_error (msg : string)
| HTTPException (status_code : Z) (detail : string).

Inductive Result (A : Type) : Type :=
| Ok (a : A)
| Raise (e : exn).

Arguments Ok {A} a.
Arguments Raise {A} e.

Definition bind {A B : Type} (c : Result A) (k : A -> Result B) : Result B :=
  match c with
  | Ok a => k a
  | Raise e => Raise e
  end.

Notation "x <- c1 ;; c2" := (bind c1 (fun x => c2))
  (at level 100, c1 at next level, right associativity).

(** [str(e)] as used in the text of the 500 response. *)
Definition str (e : exn) : string :=
  match e with
  | ValueError m | ZeroDivisionError m | OverflowError m
  | IndexError m | cv2_error m => m
  | HTTPException _ d => d
  end.

(** [for a in l: s = f(a, s)], stopping at the first exception. *)
Fixpoint foldM {A S : Type} (f : A -> S -> Result S) (l : list A) (s : S)
  : Result S :=
  match l with
  | [] => Ok s
  | a :: r => s' <- f a s ;; foldM f r s'
  end.

Fixpoint mapM {A B : Type} (f : A -> Result B) (l : list A) : Result (list B) :=
  match l with
  | [] => Ok []
  | a :: r => b <- f a ;; bs <- mapM f r ;; Ok (b :: bs)
  end.

(** ** Floating values *)

Inductive float : Type :=
| NaN
| Inf (negative : bool)
| Fin (q : Q).

Definition Qneg (q : Q) : bool := (Qnum q <? 0)%Z.
Definition Qzero (q : Q) : bool := (Qnum q =? 0)%Z.

Definition isnan (x : float) : bool :=
  match x with NaN => true | _ => false end.

Definition isfinite (x : float) : bool :=
  match x with Fin _ => true | _ => false end.

Definition fadd (x y : float) : float :=
  match x, y with
  | NaN, _ | _, NaN => NaN
  | Inf s, Inf t => if eqb s t then Inf s else NaN
  | Inf s, Fin _ | Fin _, Inf s => Inf s
  | Fin a, Fin b => Fin (Qred (a + b))
  end.

Definition fsub (x y : float) : float :=
  match x, y with
  | NaN, _ | _, NaN => NaN
  | Inf s, Inf t => if eqb s t then NaN else Inf s
  | Inf s, Fin _ => Inf s
  | Fin _, Inf s => Inf (negb s)
  | Fin a, Fin b => Fin (Qred (a - b))
  end.

Definition fmul (x y : float) : float :=
  match x, y with
  | NaN, _ | _, NaN => NaN
  | Inf s, Inf t => Inf (xorb s t)
  | Inf s, Fin a | Fin a, Inf s =>
      if Qzero a then NaN else Inf (xorb s (Qneg a))
  | Fin a, Fin b => Fin (Qred (a * b))
  end.

(** NumPy division: no exception, IEEE results. *)
Definition fdiv (x y : float) : float :=
  match x, y with
  | NaN, _ | _, NaN => NaN
  | Inf _, Inf _ => NaN
  | Inf s, Fin b => Inf (xorb s (Qneg b))
  | Fin _, Inf _ => Fin 0
  | Fin a, Fin b =>
      if Qzero b then (if Qzero a then NaN else Inf (Qneg a))
      else Fin (Qred (a / b))
  end.

Definition fabs (x : float) : float :=
  match x with
  | NaN => NaN
  | Inf _ => Inf false
  | Fin a => Fin (Qred (Qabs a))
  end.

(** [x <= y]; false as soon as one side is NaN. *)
Definition fleb (x y : float) : bool :=
  match x, y with
  | NaN, _ | _, NaN => false
  | Inf true, _ => true
  | _, Inf false => true
  | Inf false, _ => false
  | _, Inf true => false
  | Fin a, Fin b => Qle_bool a b
  end.

(** [x < y]. *)
Definition fltb (x y : float) : bool := fleb x y && negb (fleb y x).

(** [x == y]. *)
Definition feqb (x y : float) : bool := fleb x y && fleb y x.

(** Truncation toward zero, as C's and Python's float-to-integer
    conversions do. *)
Definition Qtruncate (q : Q) : Z := Z.quot (Qnum q) (Z.pos (Qden q)).

(** Round half to even, as [cvRound]. *)
Definition Qround_half_even (q : Q) : Z :=
  let f := Qfloor q in
  let r := (q - inject_Z f)%Q in
  match (r ?= 1 # 2)%Q with
  | Lt => f
  | Gt => (f + 1)%Z
  | Eq => if Z.even f then f else (f + 1)%Z
  end.

(** ** Rounding to a binary format *)

Definition pow2 (k : Z) : Q := (2 ^ k)%Q.

(** The floor of the binary logarithm of a positive rational. *)
Definition Qlog2 (q : Q) : Z :=
  let e := (Z.log2 (Qnum q) - Z.log2 (Z.pos (Qden q)))%Z in
  if Qle_bool (pow2 e) q then e else (e - 1)%Z.

(** The multiple of [2^x] nearest to [a], ties to the even multiple. *)
Definition round_to (x : Z) (a : Q) : Q :=
  (inject_Z (Qround_half_even (a / pow2 x)) * pow2 x)%Q.

(** The exponent of the last place of a positive [a] in a format with
    [prec] significant bits whose smallest subnormal is [2^emin]. *)
Definition quantum (prec emin : Z) (a : Q) : Z :=
  Z.max (Qlog2 a - prec + 1) emin.

(** The magnitude of a positive [a] rounded to [prec] bits. *)
Definition round_mag (prec emax : Z) (a : Q) : Q :=
  round_to (quantum prec (3 - emax - prec) a) a.

(** Round to nearest, ties to even, in the format with [prec]
    significant bits and finite values below [2^emax]. *)
Definition round_float (prec emax : Z) (q : Q) : float :=
  let q := Qred q in
  if Qzero q then Fin 0
  else
    let a := Qabs q in
    let r := round_mag prec emax a in
    if Qle_bool (pow2 emax) r then Inf (Qneg q)
    else Fin (Qred (if Qneg q then - r else r)).

(** binary32, NumPy's [float32]. *)
Definition round32 : Q -> float := round_float 24 128.

(** binary64, Python's [float] and NumPy's [float64]. *)
Definition round64 : Q -> float := round_float 53 1024.

(** [np.float32(x)] *)
Definition float32 (x : float) : float :=
  match x with
  | Fin q => round32 q
  | _ => x
  end.

(** [float(x)] of an exact value: a Python literal, or the exact result
    of a binary64 operation. *)
Definition float64 (x : float) : float :=
  match x with
  | Fin q => round64 q
  | _ => x
  end.

(** The four operations on binary32 operands. *)
Definition add32 (x y : float) : float := float32 (fadd x y).
Definition sub32 (x y : float) : float := float32 (fsub x y).
Definition mul32 (x y : float) : float := float32 (fmul x y).
Definition div32 (x y : float) : float := float32 (fdiv x y).

(** [x.astype(np.uint8)]: the fraction is dropped and the integer is
    reduced modulo 256 (what the x86-64 conversion gives; C leaves values
    outside 0..255 undefined, and no statement below relies on them). *)
Definition astype_uint8 (x : float) : Z :=
  match x with
  | Fin q => (Qtruncate q mod 256)%Z
  | _ => 0%Z
  end.

(** [x.astype(np.float32)] of an 8-bit channel: exact. *)
Definition astype_float (c : Z) : float := Fin (inject_Z c).

(** [x.astype(np.intp)]. *)
Definition astype_intp (x : float) : Z :=
  match x with
  | Fin q => Qtruncate q
  | _ => (- 2 ^ 63)%Z
  end.

(** Python's [int(x)]. *)
Definition py_int (x : float) : Result Z :=
  match x with
  | Fin q => Ok (Qtruncate q)
  | Inf _ => Raise (OverflowError "cannot convert float infinity to integer")
  | NaN => Raise (ValueError "cannot convert float NaN to integer")
  end.

(** Python's [a / b] on floats (binary64): unlike NumPy it raises on a
    zero divisor. *)
Definition py_truediv (a b : float) : Result float :=
  if feqb b (Fin 0) then Raise (ZeroDivisionError "float division by zero")
  else Ok (float64 (fdiv a b)).

(** ** Arrays *)

Abbreviation grid A := (list (list A)).

Definition shape {A : Type} (g : grid A) : nat * nat :=
  (length g, match g with [] => 0 | r :: _ => length r end).

(** Rows of one length: what a NumPy array always is. *)
Definition rect {A : Type} (w : nat) (g : grid A) : Prop :=
  Forall (fun r => length r = w) g.

Definition map2d {A B : Type} (f : A -> B) (g : grid A) : grid B :=
  map (map f) g.

Definition zip2d {A B C : Type} (f : A -> B -> C) (g : grid A) (h : grid B)
  : grid C :=
  zip_with (zip_with f) g h.

(** [l[a:b]] for [0 <= a] and [0 <= b]. *)
Definition slice {A : Type} (a b : nat) (l : list A) : list A :=
  take (b - a) (drop a l).

(** [l[i]] on a Python list or along one axis of an array, for [0 <= i]. *)
Definition getitem {A : Type} (l : list A) (i : nat) : Result A :=
  match l !! i with
  | Some a => Ok a
  | None => Raise (IndexError "index out of range")
  end.

(** [l[i]] for a Python integer: a negative index counts from the end. *)
Definition py_getitem {A : Type} (l : list A) (i : Z) : Result A :=
  let n := Z.of_nat (length l) in
  let j := if (i <? 0)%Z then (i + n)%Z else i in
  if (0 <=? j)%Z && (j <? n)%Z then getitem l (Z.to_nat j)
  else Raise (IndexError "list index out of range").

(** [a[y, x]]. *)
Definition getitem2 {A : Type} (g : grid A) (y x : nat) : Result A :=
  row <- getitem g y ;; getitem row x.

(** [a[y, x] = v]. *)
Definition setitem2 {A : Type} (g : grid A) (y x : nat) (v : A)
  : Result (grid A) :=
  row <- getitem g y ;;
  _ <- getitem row x ;;
  Ok (<[y := <[x := v]> row]> g).

(** [range(start, stop, step)] for a positive step. *)
Definition py_range (start stop step : Z) : list Z :=
  map (fun k => (start + step * Z.of_nat k)%Z)
      (seq 0 (Z.to_nat ((stop - start + step - 1) / step))).

(** ** NumPy reductions *)

(** [np.minimum] and [np.maximum]: NaN wins. *)
Definition minimum (a b : float) : float :=
  match a, b with
  | NaN, _ | _, NaN => NaN
  | _, _ => if fleb a b then a else b
  end.

Definition maximum (a b : float) : float :=
  match a, b with
  | NaN, _ | _, NaN => NaN
  | _, _ => if fleb b a then a else b
  end.

Definition np_min (a : list float) : Result float :=
  match a with
  | [] => Raise (ValueError
      "zero-size array to reduction operation minimum which has no identity")
  | x :: r => Ok (fold_left minimum r x)
  end.

Definition np_max (a : list float) : Result float :=
  match a with
  | [] => Raise (ValueError
      "zero-size array to reduction operation maximum which has no identity")
  | x :: r => Ok (fold_left maximum r x)
  end.

(** [np.mean] of a float32 array: the float32 sum over the count; NaN on
    an empty array. *)
Definition np_mean (a : list float) : float :=
  div32 (fold_left add32 a (Fin 0)) (Fin (inject_Z (Z.of_nat (length a)))).

Fixpoint insort (x : float) (l : list float) : list float :=
  match l with
  | [] => [x]
  | y :: r => if fleb x y then x :: l else y :: insort x r
  end.

(** [np.sort] on values without NaN. *)
Definition np_sort (a : list float) : list float := foldr insort [] a.

(** [np.median] of the flattened array: NaN if a NaN is present, else the
    mean of the middle element (odd count) or of the two middle elements. *)
Definition np_median (a : list float) : float :=
  if existsb isnan a then NaN
  else
    let part := np_sort a in
    let index := length part / 2 in
    if Nat.odd (length part) then np_mean (slice index (index + 1) part)
    else np_mean (slice (index - 1) (index + 1) part).

(** [np.argmax]: the first index of the largest entry. *)
Fixpoint argmax_from (l : list nat) (i best_i best_v : nat) : nat :=
  match l with
  | [] => best_i
  | x :: r =>
      if best_v <? x then argmax_from r (S i) i x
      else argmax_from r (S i) best_i best_v
  end.

Definition np_argmax (l : list nat) : Result nat :=
  match l with
  | [] => Raise (ValueError "attempt to get argmax of an empty sequence")
  | x :: r => Ok (argmax_from r 1 0 x)
  end.

(** [np.linspace(start, stop, num)] with the end point included. *)
Definition linspace (start stop : float) (num : nat) : list float :=
  let div := num - 1 in
  let step := fdiv (fsub stop start) (Fin (inject_Z (Z.of_nat div))) in
  map (fun i => if i =? div then stop
                else fadd (fmul (Fin (inject_Z (Z.of_nat i))) step) start)
      (seq 0 num).

(** The range of [np.histogram] when none is given: the data's extremes,
    (0, 1) for no data, and a zero-width range widened by one half on
    each side. *)
Definition _get_outer_edges (a : list float) : Result (float * float) :=
  match a with
  | [] => Ok (Fin 0, Fin 1)
  | _ =>
      first_edge <- np_min a ;;
      last_edge <- np_max a ;;
      if negb (isfinite first_edge && isfinite last_edge)
      then Raise (ValueError "autodetected range is not finite")
      else if feqb first_edge last_edge
      then Ok (fsub first_edge (Fin (1 # 2)), fadd last_edge (Fin (1 # 2)))
      else Ok (first_edge, last_edge)
  end.

(** The bin a value falls in: equal-width bins, the last one closed.
    This is the histogram in exact arithmetic.  (NumPy computes edges and
    indices in the data's precision, moves a value by one bin where
    rounding put it on the wrong side of an edge, and refuses a range too
    narrow for the number of bins; [_find_subject_focus_plane_with] takes
    the histogram as a parameter for the statements that must not depend
    on this.) *)
Definition bin_index (first_edge last_edge : float) (bins : nat) (v : float)
  : Z :=
  let norm := fdiv (Fin (inject_Z (Z.of_nat bins))) (fsub last_edge first_edge) in
  let index := astype_intp (fmul (fsub v first_edge) norm) in
  if (index =? Z.of_nat bins)%Z then (index - 1)%Z else index.

(** [np.bincount(indices, minlength=bins)]. *)
Definition bincount (indices : list Z) (bins : nat) : list nat :=
  map (fun b => length (filter (fun i => i = Z.of_nat b) indices)) (seq 0 bins).

(** [np.histogram(a, bins)]: the counts and the [bins + 1] edges. *)
Definition np_histogram (a : list float) (bins : nat)
  : Result (list nat * list float) :=
  edges <- _get_outer_edges a ;;
  let '(first_edge, last_edge) := edges in
  let bin_edges := linspace first_edge last_edge (bins + 1) in
  let keep := List.filter (fun v => fleb first_edge v && fleb v last_edge) a in
  let indices := map (bin_index first_edge last_edge bins) keep in
  Ok (bincount indices bins, bin_edges).

(** ** DepthNormalizer: the last step of [_estimate_depth] *)

(** [(depth_map - depth_map.min()) / (depth_map.max() - depth_map.min())]
    on a float32 array. *)
Definition normalize_depth (depth_map : grid float) : Result (grid float) :=
  lo <- np_min (concat depth_map) ;;
  hi <- np_max (concat depth_map) ;;
  lo' <- np_min (concat depth_map) ;;
  Ok (map2d (fun d => div32 (sub32 d lo) (sub32 hi lo')) depth_map).

(** ** FocusPlaneEstimator *)

(** [depth_map[h//4 : 3*h//4, w//4 : 3*w//4]] *)
Definition center_region (depth_map : grid float) : grid float :=
  let '(height, width) := shape depth_map in
  (* Calculate center region (where subject is likely to be) *)
  let center_h_start := height / 4 in
  let center_h_end := 3 * height / 4 in
  let center_w_start := width / 4 in
  let center_w_end := 3 * width / 4 in
  map (slice center_w_start center_w_end)
      (slice center_h_start center_h_end depth_map).

(** [_find_subject_focus_plane], with [np.histogram] as a parameter; the
    arithmetic on the median and the edges is float32. *)
Definition _find_subject_focus_plane_with
    (histogram : list float -> nat -> Result (list nat * list float))
    (depth_map : grid float) : Result float :=
  let center_region := center_region depth_map in
  (* the median depth of the center region *)
  let focus_depth := np_median (concat center_region) in
  (* the most frequent depth value in center *)
  hb <- histogram (concat center_region) 50 ;;
  let '(hist, bin_edges) := hb in
  most_common_bin <- np_argmax hist ;;
  lo <- getitem bin_edges most_common_bin ;;
  hi <- getitem bin_edges (most_common_bin + 1) ;;
  let focus_depth_alt := div32 (add32 lo hi) (Fin 2) in
  (* average of both methods *)
  let focus_plane := div32 (add32 focus_depth focus_depth_alt) (Fin 2) in
  Ok focus_plane.

Definition _find_subject_focus_plane : grid float -> Result float :=
  _find_subject_focus_plane_with np_histogram.

(** ** OpenCV's Gaussian filter *)

(** [BORDER_REFLECT_101], OpenCV's default border: gfedcb|abcdefgh|gfedcba. *)
Definition borderInterpolate (p len : Z) : Z :=
  if (len =? 1)%Z then 0%Z
  else
    let period := (2 * len - 2)%Z in
    let m := (p mod period)%Z in
    if (m <? len)%Z then m else (period - m)%Z.

(** The sum of [k[i] * sample(j + i)] over the kernel, added to [acc]. *)
Fixpoint weighted_sum (k : list Q) (j : Z) (sample : Z -> float) (acc : float)
  : float :=
  match k with
  | [] => acc
  | kj :: r =>
      weighted_sum r (j + 1)%Z sample (fadd acc (fmul (Fin kj) (sample j)))
  end.

Definition anchor (k : list Q) : Z := Z.of_nat (length k / 2).

Definition at1 (row : list float) (x : Z) : float :=
  nth (Z.to_nat x) row (Fin 0).

Definition at2 (g : grid float) (y x : Z) : float :=
  at1 (nth (Z.to_nat y) g []) x.

Definition filter_row (k : list Q) (row : list float) : list float :=
  let n := Z.of_nat (length row) in
  imap (fun x _ =>
          weighted_sum k (Z.of_nat x - anchor k)%Z
            (fun p => at1 row (borderInterpolate p n)) (Fin 0))
       row.

(** The separable filter: every row with [kx], then every column with [ky]. *)
Definition sepFilter2D (kx ky : list Q) (src : grid float) : grid float :=
  let tmp := map (filter_row kx) src in
  let h := Z.of_nat (length tmp) in
  imap (fun y row =>
          imap (fun x _ =>
                  weighted_sum ky (Z.of_nat y - anchor ky)%Z
                    (fun p => at2 tmp (borderInterpolate p h) (Z.of_nat x))
                    (Fin 0))
               row)
       tmp.

(** [saturate_cast<uchar>]: round, then clamp to 0..255. *)
Definition saturate_cast_uchar (x : float) : Z :=
  match x with
  | Fin q => Z.max 0 (Z.min 255 (Qround_half_even q))
  | Inf false => 255%Z
  | _ => 0%Z
  end.

Abbreviation pixel := (Z * Z * Z)%type.
Abbreviation image := (list (list (Z * Z * Z))).
Abbreviation fpixel := (float * float * float)%type.

Definition pmap {A B : Type} (f : A -> B) (p : A * A * A) : B * B * B :=
  let '(r, g, b) := p in (f r, f g, f b).

Definition pzip {A B C : Type} (f : A -> B -> C) (p : A * A * A) (q : B * B * B)
  : C * C * C :=
  let '(r, g, b) := p in
  let '(r', g', b') := q in
  (f r r', f g g', f b b').

Definition red (p : pixel) : Z := p.1.1.
Definition green (p : pixel) : Z := p.1.2.
Definition blue (p : pixel) : Z := p.2.

Definition plane (c : pixel -> Z) (img : image) : grid float :=
  map2d (fun p => astype_float (c p)) img.

Definition merge_planes (r g b : grid float) : image :=
  zip2d (fun x yz =>
           (saturate_cast_uchar x, saturate_cast_uchar yz.1,
            saturate_cast_uchar yz.2))
        r (zip2d pair g b).

Definition nonempty {A : Type} (g : grid A) : bool :=
  match g with
  | (_ :: _) :: _ => true
  | _ => false
  end.

Section OpenCV.

(** [cv2.getGaussianKernel(ksize, sigma)]: the [ksize] Gaussian
    coefficients, scaled to sum to one; for [sigma <= 0] OpenCV takes
    [sigma = 0.3 * ((ksize - 1) * 0.5 - 1) + 0.8]. *)
Variable getGaussianKernel : Z -> Q -> list Q.

(** [cv2.GaussianBlur(src, ksize, sigmaX)] on a float32 array.  As at
    every call of [main.py], [sigmaY] is [sigmaX] and the border is the
    default; a kernel size that is not positive and odd, or an empty
    array, fails OpenCV's assertion. *)
Definition GaussianBlur (src : grid float) (ksize : Z * Z) (sigmaX : Q)
  : Result (grid float) :=
  let '(kw, kh) := ksize in
  if negb (nonempty src) then Raise (cv2_error "Assertion failed: !_src.empty()")
  else if (0 <? kw)%Z && Z.odd kw && (0 <? kh)%Z && Z.odd kh
  then Ok (sepFilter2D (getGaussianKernel kw sigmaX)
                       (getGaussianKernel kh sigmaX) src)
  else Raise (cv2_error "Assertion failed: ksize is positive and odd").

(** The same on an 8-bit RGB image: each channel is filtered on its own
    and cast back with saturation. *)
Definition GaussianBlur_u8 (src : image) (ksize : Z * Z) (sigmaX : Q)
  : Result image :=
  r <- GaussianBlur (plane red src) ksize sigmaX ;;
  g <- GaussianBlur (plane green src) ksize sigmaX ;;
  b <- GaussianBlur (plane blue src) ksize sigmaX ;;
  Ok (merge_planes r g b).

(** ** BlurMaskBuilder *)

(** [_create_blur_mask] up to the smoothing: the intensity map after the
    focus range has been cleared.  The depth map is a float32 array and
    the two Python floats take its precision where they meet it. *)
Definition blur_intensity_map (depth_map : grid float)
    (focus_plane focus_range : float) : Result (grid float) :=
  (* Calculate distance from focus plane *)
  let distance_from_focus :=
    map2d (fun d => fabs (sub32 d (float32 focus_plane))) depth_map in
  (* Normalize distance to 0-1 range *)
  max_distance <- np_max (concat distance_from_focus) ;;
  let blur_intensity :=
    if fltb (Fin 0) max_distance
    then map2d (fun d => div32 d max_distance) distance_from_focus
    else map2d (fun _ => Fin 0) depth_map in
  (* Apply focus range - areas within focus_range get no blur *)
  Ok (zip2d (fun d b => if fleb d (float32 focus_range) then Fin 0 else b)
            distance_from_focus blur_intensity).

Definition _create_blur_mask (depth_map : grid float)
    (focus_plane focus_range : float) : Result (grid float) :=
  blur_intensity <- blur_intensity_map depth_map focus_plane focus_range ;;
  (* Smooth the blur mask to avoid harsh transitions *)
  GaussianBlur blur_intensity (21, 21)%Z 0.

(** ** DepthBlurCompositor *)

(** [(1 - mask) * original + mask * blurred] for one channel, in
    float32. *)
Definition blend (mask : float) (original blurred : float) : float :=
  add32 (mul32 (sub32 (Fin 1) mask) original) (mul32 mask blurred).

Definition blend_u8 (mask : float) (original blurred : Z) : float :=
  blend mask (astype_float original) (astype_float blurred).

Definition same_shape {A B : Type} (g : grid A) (h : grid B) : bool :=
  bool_decide (map length g = map length h).

(** The vectorised compositor.  The mask is repeated over the three
    channels; operands of different shapes raise (NumPy would still
    broadcast an axis of length one, which no caller passes). *)
Definition _apply_depth_blur_optimized (image_np : image)
    (blur_mask : grid float) (max_blur_radius : Z) : Result image :=
  (* Create heavily blurred version *)
  let kernel_size := (max_blur_radius * 2 + 1)%Z in
  blurred_image <-
    GaussianBlur_u8 image_np (kernel_size, kernel_size)
                    (inject_Z max_blur_radius / 3) ;;
  (* Blend original and blurred images *)
  if same_shape blur_mask image_np && same_shape blur_mask blurred_image
  then
    let result :=
      zip2d (fun m pq => pzip (blend_u8 m) pq.1 pq.2)
            blur_mask (zip2d pair image_np blurred_image) in
    Ok (map2d (pmap astype_uint8) result)
  else Raise (ValueError "operands could not be broadcast together").

(** One iteration of the inner loop of the per-pixel compositor.  The
    product given to [int] is taken exactly. *)
Definition blur_pixel (image_np : image) (blur_mask : grid float)
    (blur_levels : list (grid fpixel)) (y x : nat) (result : grid fpixel)
  : Result (grid fpixel) :=
  blur_intensity <- getitem2 blur_mask y x ;;
  if fltb (Fin 0) blur_intensity then
    (* Determine which blur level to use *)
    let n := Z.of_nat (length blur_levels) in
    i <- py_int (fmul blur_intensity (Fin (inject_Z n))) ;;
    let blur_level_idx := Z.min i (n - 1) in
    (* Blend between original and blurred *)
    let alpha := blur_intensity in
    original <- getitem2 image_np y x ;;
    level <- py_getitem blur_levels blur_level_idx ;;
    blurred <- getitem2 level y x ;;
    setitem2 result y x
      (pzip (blend alpha) (pmap astype_float original) blurred)
  else Ok result.

(** The per-pixel compositor. *)
Definition _apply_depth_blur (image_np : image) (blur_mask : grid float)
    (max_blur_radius : Z) : Result image :=
  let result := map2d (pmap astype_float) image_np in
  (* Create multiple blur levels for smooth transition *)
  blur_levels <-
    mapM (fun i =>
            blurred <- GaussianBlur_u8 image_np (i * 2 + 1, i * 2 + 1)%Z
                                       (inject_Z i / 3) ;;
            Ok (map2d (pmap astype_float) blurred))
         (py_range 1 (max_blur_radius + 1) 2) ;;
  (* Apply blur based on mask intensity *)
  let '(height, width) := shape blur_mask in
  result <-
    foldM (fun y result =>
             foldM (fun x result =>
                      blur_pixel image_np blur_mask blur_levels y x result)
                   (seq 0 width) result)
          (seq 0 height) result ;;
  Ok (map2d (pmap astype_uint8) result).

(** ** AutoFocusPipeline and the endpoint *)

(** The collaborators outside the core: the loaded flag, the depth network
    with its transform and resize to the image's size, the image decoder,
    [cv2.resize] and the JPEG/base64 encoders. *)
Variable models_loaded : bool.
Variable depth_model : image -> Result (grid float).
Variable Image_open : list Byte.byte -> Result image.
Variable resize_image : image -> Z * Z -> Result image.
Variable resize_map : grid float -> Z * Z -> Result (grid float).
Variable encode_rgb : image -> string.
Variable encode_gray : grid Z -> string.

Definition _estimate_depth (image_np : image) : Result (grid float) :=
  if negb models_loaded then Raise (ValueError "Depth model not loaded")
  else
    depth_map <- depth_model image_np ;;
    (* Normalize depth values to 0-1 range *)
    normalize_depth depth_map.

(** [.squeeze()] in [_estimate_depth] drops every axis of length one: for
    an image of one row or one column the depth map is no longer a 2-D
    array, and [height, width = depth_map.shape] in
    [_find_subject_focus_plane] raises [ValueError]. *)
Definition squeezed {A : Type} (g : grid A) : bool :=
  let '(height, width) := shape g in (height <=? 1) || (width <=? 1).

Record AutoFocusResult : Type := {
  processed_image : string;
  depth_map : string;
  focus_plane_depth : float;
  image_size : nat * nat;
  processing_info : float * Z * bool
}.

(** The body of the [try] block of [process_auto_focus]. *)
Definition process_body (image_bytes : list Byte.byte) (focus_strength : float)
    (blur_radius : Z) : Result AutoFocusResult :=
  image_np <- Image_open image_bytes ;;
  let '(original_height, original_width) := shape image_np in
  (* Resize for processing if too large *)
  let max_size := 512 in
  let scale_back := max_size <? original_height `max` original_width in
  processed_image <-
    (if scale_back then
       scale <- py_truediv (Fin 512)
                  (Fin (inject_Z (Z.of_nat (original_height `max` original_width)))) ;;
       new_width <-
         py_int (float64 (fmul (Fin (inject_Z (Z.of_nat original_width))) scale)) ;;
       new_height <-
         py_int (float64 (fmul (Fin (inject_Z (Z.of_nat original_height))) scale)) ;;
       resize_image image_np (new_width, new_height)
     else Ok image_np) ;;
  (* Estimate depth map *)
  depth_map <- _estimate_depth processed_image ;;
  (* Find focus plane (subject depth) *)
  focus_plane <-
    (if squeezed processed_image
     then Raise (ValueError "not enough values to unpack (expected 2, got 1)")
     else _find_subject_focus_plane depth_map) ;;
  (* Create blur mask *)
  focus_range <- py_truediv (float64 (Fin (1 # 10))) focus_strength ;;
  blur_mask <- _create_blur_mask depth_map focus_plane focus_range ;;
  (* Apply depth-based blur *)
  result_image <-
    _apply_depth_blur_optimized processed_image blur_mask blur_radius ;;
  (* Scale back to original size if needed *)
  let original_size := (Z.of_nat original_width, Z.of_nat original_height) in
  result_image <-
    (if scale_back then resize_image result_image original_size
     else Ok result_image) ;;
  depth_map <-
    (if scale_back then resize_map depth_map original_size
     else Ok depth_map) ;;
  blur_mask <-
    (if scale_back then resize_map blur_mask original_size
     else Ok blur_mask) ;;
  let depth_vis := map2d (fun d => astype_uint8 (mul32 d (Fin 255))) depth_map in
  Ok {| processed_image := encode_rgb result_image;
        depth_map := encode_gray depth_vis;
        focus_plane_depth := focus_plane;
        image_size := (original_width, original_height);
        processing_info := (focus_strength, blur_radius, scale_back) |}.

Definition process_auto_focus (image_bytes : list Byte.byte)
    (focus_strength : float) (blur_radius : Z) : Result AutoFocusResult :=
  if negb models_loaded
  then Raise (HTTPException 503 "Depth model not loaded")
  else
    match process_body image_bytes focus_strength blur_radius with
    | Ok r => Ok r
    | Raise e =>
        Raise (HTTPException 500 (String.append "Processing failed: " (str e)))
    end.

(** An upload that carries a content type. *)
Record UploadFile : Type := {
  content_type : string;
  read : Result (list Byte.byte)
}.

(** [JSONResponse(content=result)]: the JSON encoder refuses a float that
    is NaN or infinite. *)
Definition JSONResponse (result : AutoFocusResult) : Result AutoFocusResult :=
  if isfinite (focus_plane_depth result)
     && isfinite (processing_info result).1.1
  then Ok result
  else Raise (ValueError "Out of range float values are not JSON compliant").

(** [POST /auto-focus].  The bound 0.1 is compared as 1/10: no binary64
    value lies between 1/10 and the literal [0.1]. *)
Definition auto_focus_blur (file : UploadFile) (focus_strength : float)
    (blur_radius : Z) : Result AutoFocusResult :=
  (* Validate file type *)
  if negb (String.prefix "image/" (content_type file))
  then Raise (HTTPException 400 "File must be an image")
  (* Validate parameters *)
  else if negb (fleb (Fin (1 # 10)) focus_strength
                && fleb focus_strength (Fin 3))
  then Raise (HTTPException 400 "focus_strength must be between 0.1 and 3.0")
  else if negb ((3 <=? blur_radius)%Z && (blur_radius <=? 50)%Z)
  then Raise (HTTPException 400 "blur_radius must be between 3 and 50")
  else
    match (image_bytes <- read file ;;
           result <- process_auto_focus image_bytes focus_strength blur_radius ;;
           JSONResponse result) with
    | Ok r => Ok r
    | Raise (HTTPException s d) => Raise (HTTPException s d)
    | Raise _ => Raise (HTTPException 500 "Internal server error")
    end.

End OpenCV.

(** ** Sample data *)

(** OpenCV's Gaussian coefficients to six decimals, the centre adjusted
    so that they sum to one: 21 taps with sigma 3.5 (what sigma 0
    selects for 21 taps), 7 taps with sigma 1, 3 taps with sigma 1/3. *)
Definition millionths (l : list Z) : list Q := map (fun z => z # 1000000) l.

Definition kernel21 : list Q :=
  millionths [1929; 4189; 8385; 15466; 26292; 41193; 59478; 79148; 97067;
              109711; 114284; 109711; 97067; 79148; 59478; 41193; 26292;
              15466; 8385; 4189; 1929]%Z.

Definition kernel7 : list Q :=
  millionths [4433; 54006; 242036; 399050; 242036; 54006; 4433]%Z.

Definition kernel3 : list Q := millionths [10868; 978264; 10868]%Z.

(** A stand-in for [cv2.getGaussianKernel] on the sizes used in the
    examples (a box kernel for any other size). *)
Definition reference_kernel (ksize : Z) (sigma : Q) : list Q :=
  if (ksize =? 21)%Z then kernel21
  else if (ksize =? 7)%Z then kernel7
  else if (ksize =? 3)%Z then kernel3
  else replicate (Z.to_nat ksize) (1 / inject_Z ksize)%Q.

(** A black pixel next to a white one. *)
Definition black_white : image := [[(0, 0, 0); (255, 255, 255)]]%Z.

(** One row of depths: 0.5, ten pixels at 0, 0.375, ten pixels at 1. *)
Definition depth_row : list float :=
  map Fin ([1 # 2] ++ replicate 10 0 ++ [3 # 8] ++ replicate 10 1)%Q.

(** A 4x4 map whose central 2x2 block is at depth 1. *)
Definition far_centre : grid float :=
  map2d Fin [[0; 0; 0; 0]; [0; 1; 1; 0]; [0; 1; 1; 0]; [0; 0; 0; 0]]%Q.

(** A 4x4 map whose central 2x2 block holds 0, 0.25, 0.5 and 1. *)
Definition quarter_steps : grid float :=
  map2d Fin [[0; 0; 0; 0]; [0; 0; 1 # 4; 0]; [0; 1 # 2; 1; 0]; [0; 0; 0; 0]]%Q.


(** Stand-ins for the collaborators of the pipeline: a depth network that
    reads the red channel, a decoder that returns [black_white], resizes
    that keep the array, encoders that return the empty string. *)
Definition sample_depth_model (img : image) : Result (grid float) :=
  Ok (plane red img).

Definition sample_Image_open (bytes : list Byte.byte) : Result image :=
  Ok black_white.

Definition sample_resize {A : Type} (a : grid A) (size : Z * Z)
  : Result (grid A) := Ok a.

Definition sample_encode {A : Type} (a : grid A) : string := EmptyString.

Definition sample_upload : UploadFile :=
  {| content_type := "image/png"; read := Ok [] |}.

(** A 2x2 image with four different reds, a decoder that returns it, and
    a depth network that answers 0.5 at every pixel. *)
Definition four_reds : image :=
  [[(0, 0, 0); (80, 0, 0)]; [(160, 0, 0); (240, 0, 0)]]%Z.

Definition open_four_reds (bytes : list Byte.byte) : Result image :=
  Ok four_reds.

Definition flat_depth_model (img : image) : Result (grid float) :=
  Ok (map2d (fun _ => Fin (1 # 2)) img).

(** A [cv2.resize] that refuses an empty target size. *)
Definition strict_resize {A : Type} (a : grid A) (size : Z * Z)
  : Result (grid A) :=
  if (0 <? size.1)%Z && (0 <? size.2)%Z then Ok a
  else Raise (cv2_error "Assertion failed: !dsize.empty()").

(** ** Vocabulary of the statements *)

(** Every entry is finite. *)
Definition finite_list (l : list float) : Prop :=
  Forall (fun x => isfinite x = true) l.

Definition finite_map (g : grid float) : Prop := Forall finite_list g.

(** Every entry is the finite value [v]. *)
Definition constant_map (v : Q) (g : grid float) : Prop :=
  Forall (Forall (fun x => exists q, x = Fin q /\ (q == v)%Q)) g.

(** A finite value between 0 and 1. *)
Definition unit_value (x : float) : Prop :=
  exists q, x = Fin q /\ (0 <= q <= 1)%Q.

Definition unit_map (g : grid float) : Prop := Forall (Forall unit_value) g.

(** Two entries differ: the map is not flat. *)
Definition varied (g : grid float) : Prop :=
  exists a b, In a (concat g) /\ In b (concat g) /\ fltb a b = true.

(** [g[y, x]] when it exists. *)
Definition lookup2 {A : Type} (g : grid A) (y x : nat) : option A :=
  match g !! y with
  | Some row => row !! x
  | None => None
  end.

(** Channels of an 8-bit image. *)
Definition uint8 (c : Z) : Prop := (0 <= c < 256)%Z.

Definition valid_pixel (p : pixel) : Prop :=
  uint8 (red p) /\ uint8 (green p) /\ uint8 (blue p).

Definition valid_image (img : image) : Prop := Forall (Forall valid_pixel) img.

(** The output channel [o] is the float32 blend of [a] and [b] with
    weight [m], a value from 0 up to but not including 256, with its
    fraction dropped. *)
Definition channel_truncated (m : float) (a b o : Z) : Prop :=
  exists q, blend_u8 m a b = Fin q /\ (0 <= q < 256)%Q /\ o = Qfloor q.

(** A finite value above 0. *)
Definition positive_value (x : float) : Prop :=
  exists q, x = Fin q /\ (0 < q)%Q.

(** A kernel with at least one coefficient, all of them positive. *)
Definition positive_kernel (k : list Q) : Prop :=
  k <> [] /\ Forall (fun w => (0 < w)%Q) k.

(** [depth_map.max() - depth_map.min()] as the normaliser computes it. *)
Definition depth_range (depth_map : grid float) : Result float :=
  lo <- np_min (concat depth_map) ;;
  hi <- np_max (concat depth_map) ;;
  Ok (sub32 hi lo).

Definition zero_row (row : list float) : Prop := Forall (fun x => x = Fin 0) row.

(** [|depth - focus_plane|] for one pixel, as the mask builder computes
    it. *)
Definition distance_to (focus_plane : float) (d : float) : float :=
  fabs (sub32 d (float32 focus_plane)).

(** No entry is plus infinity (the per-pixel compositor converts
    [mask * levels] with [int], which raises on infinity). *)
Definition no_overflow (g : grid float) : Prop :=
  Forall (Forall (fun m => m <> Inf false)) g.


(** The vectorised compositor's output for a given blurred rendition. *)
Definition composite (blur_mask : grid float) (image_np blurred : image)
  : image :=
  map2d (pmap astype_uint8)
        (zip2d (fun m pq => pzip (blend_u8 m) pq.1 pq.2)
               blur_mask (zip2d pair image_np blurred)).

(** One of the two extremes of a list is NaN or infinite: the smallest is
    NaN or minus infinity, or the largest is NaN or plus infinity. *)
Definition edge_not_finite (lo hi : float) : bool :=
  match lo, hi with
  | NaN, _ | Inf true, _ | _, NaN | _, Inf false => true
  | _, _ => false
  end.




(* ================================================================== *)
(** * Properties *)

(** ** Rationals in lowest terms *)

Lemma Qzero_true (q : Q) : Qzero q = true <-> (q == 0)%Q.
Proof. unfold Qzero, Qeq. rewrite Z.eqb_eq. simpl. lia. Qed.

Lemma Qzero_false (q : Q) : Qzero q = false <-> ~ (q == 0)%Q.
Proof. rewrite <- Qzero_true. destruct (Qzero q); split; congruence. Qed.

Lemma Qneg_true (q : Q) : Qneg q = true <-> (q < 0)%Q.
Proof. unfold Qneg, Qlt. rewrite Z.ltb_lt. simpl. lia. Qed.

Lemma Qred_0 (p : Q) : (p == 0)%Q -> Qred p = 0%Q.
Proof. intros H. apply (Qred_complete p 0 H). Qed.

Lemma Qle_bool_false (a b : Q) : Qle_bool a b = false <-> (b < a)%Q.
Proof.
  split; intros H.
  - apply Qnot_le_lt. intros Hle. apply Qle_bool_iff in Hle. congruence.
  - destruct (Qle_bool a b) eqn:E; [|reflexivity].
    apply Qle_bool_iff in E. lra.
Qed.

(** ** Rounding *)

Lemma pow2_pos (k : Z) : (0 < pow2 k)%Q.
Proof. apply Qpower_0_lt. reflexivity. Qed.

Lemma pow2_add (a b : Z) : (pow2 (a + b) == pow2 a * pow2 b)%Q.
Proof. apply Qpower_plus. discriminate. Qed.

Lemma pow2_le (a b : Z) : (a <= b)%Z -> (pow2 a <= pow2 b)%Q.
Proof. intros H. apply Qpower_le_compat_l; [exact H|discriminate]. Qed.

Lemma pow2_lt (a b : Z) : (a < b)%Z -> (pow2 a < pow2 b)%Q.
Proof. intros H. apply Qpower_lt_compat_l; [exact H|reflexivity]. Qed.

Lemma pow2_lt_inv (a b : Z) : (pow2 a < pow2 b)%Q -> (a < b)%Z.
Proof. intros H. apply (Qpower_lt_compat_l_inv 2); [exact H|reflexivity]. Qed.

Lemma pow2_Z (k : Z) : (0 <= k)%Z -> (pow2 k == inject_Z (2 ^ k))%Q.
Proof. intros H. unfold pow2. rewrite Zpower_Qpower by exact H. reflexivity. Qed.

Lemma pow2_0 : (pow2 0 == 1)%Q.
Proof. reflexivity. Qed.

Lemma pow2_sub (a b : Z) : (pow2 (a - b) == pow2 a / pow2 b)%Q.
Proof.
  assert (pow2 a == pow2 (a - b) * pow2 b)%Q as E.
  { rewrite <- pow2_add. replace (a - b + b)%Z with a by lia. reflexivity. }
  rewrite E. field. pose proof (pow2_pos b). lra.
Qed.

Lemma Qlog2_spec (q : Q) :
  (0 < q)%Q -> (pow2 (Qlog2 q) <= q < pow2 (Qlog2 q + 1))%Q.
Proof.
  intros Hq. destruct q as [n d]. unfold Qlog2. cbn [Qnum Qden].
  assert (0 < n)%Z as Hn by (unfold Qlt in Hq; simpl in Hq; lia).
  set (a := Z.log2 n). set (b := Z.log2 (Z.pos d)).
  destruct (Z.log2_spec n Hn) as [Ha1 Ha2]. fold a in Ha1, Ha2.
  destruct (Z.log2_spec (Z.pos d) (Pos2Z.is_pos d)) as [Hb1 Hb2].
  fold b in Hb1, Hb2.
  assert (0 <= a)%Z as Ha0 by apply Z.log2_nonneg.
  assert (0 <= b)%Z as Hb0 by apply Z.log2_nonneg.
  assert (n # d == inject_Z n / inject_Z (Z.pos d))%Q as Eq
    by (rewrite Qmake_Qdiv; reflexivity).
  assert (0 < inject_Z (Z.pos d))%Q as Hd
    by (change 0%Q with (inject_Z 0); rewrite <- Zlt_Qlt; lia).
  assert (pow2 a <= inject_Z n)%Q as Qa1
    by (rewrite pow2_Z by lia; rewrite <- Zle_Qle; exact Ha1).
  assert (inject_Z n < pow2 (a + 1))%Q as Qa2.
  { rewrite pow2_Z by lia. rewrite <- Zlt_Qlt.
    replace (a + 1)%Z with (Z.succ a) by lia. exact Ha2. }
  assert (pow2 b <= inject_Z (Z.pos d))%Q as Qb1
    by (rewrite pow2_Z by lia; rewrite <- Zle_Qle; exact Hb1).
  assert (inject_Z (Z.pos d) < pow2 (b + 1))%Q as Qb2.
  { rewrite pow2_Z by lia. rewrite <- Zlt_Qlt.
    replace (b + 1)%Z with (Z.succ b) by lia. exact Hb2. }
  assert (n # d < pow2 (a - b + 1))%Q as Hupper.
  { rewrite Eq. apply Qlt_shift_div_r; [exact Hd|].
    apply Qlt_le_trans with (pow2 (a + 1)); [exact Qa2|].
    replace (a + 1)%Z with (a - b + 1 + b)%Z by lia. rewrite pow2_add.
    apply Qmult_le_l; [apply pow2_pos|exact Qb1]. }
  assert (pow2 (a - b - 1) <= n # d)%Q as Hlower.
  { rewrite Eq. apply Qle_shift_div_l; [exact Hd|].
    apply Qle_trans with (pow2 a); [|exact Qa1].
    replace a with (a - b - 1 + (b + 1))%Z at 2 by lia. rewrite pow2_add.
    apply Qmult_le_l; [apply pow2_pos|]. apply Qlt_le_weak. exact Qb2. }
  destruct (Qle_bool (pow2 (a - b)) (n # d)) eqn:E.
  - apply Qle_bool_iff in E. split; [exact E|exact Hupper].
  - apply Qle_bool_false in E. split; [exact Hlower|].
    replace (a - b - 1 + 1)%Z with (a - b)%Z by lia. exact E.
Qed.

Lemma Qlog2_unique (q : Q) (k : Z) :
  (pow2 k <= q < pow2 (k + 1))%Q -> Qlog2 q = k.
Proof.
  intros [H1 H2].
  assert (0 < q)%Q as Hq by (pose proof (pow2_pos k); lra).
  destruct (Qlog2_spec q Hq) as [E1 E2].
  assert (Qlog2 q < k + 1)%Z by (apply pow2_lt_inv; lra).
  assert (k < Qlog2 q + 1)%Z by (apply pow2_lt_inv; lra).
  lia.
Qed.

Lemma Qlog2_le (a b : Q) : (0 < a)%Q -> (a <= b)%Q -> (Qlog2 a <= Qlog2 b)%Z.
Proof.
  intros Ha Hab.
  destruct (Qlog2_spec a Ha) as [A1 A2].
  destruct (Qlog2_spec b) as [B1 B2]; [lra|].
  assert (Qlog2 a < Qlog2 b + 1)%Z by (apply pow2_lt_inv; lra). lia.
Qed.

(** Round half to even on the integers. *)
Lemma Qround_half_even_cases (q : Q) :
  let f := Qfloor q in
  (Qround_half_even q = f /\ (q - inject_Z f <= 1 # 2)%Q
   /\ ((q - inject_Z f == 1 # 2)%Q -> Z.even f = true))
  \/ (Qround_half_even q = (f + 1)%Z /\ (1 # 2 <= q - inject_Z f)%Q
      /\ ((q - inject_Z f == 1 # 2)%Q -> Z.even f = false)).
Proof.
  intros f. unfold Qround_half_even. fold f.
  destruct (Qcompare_spec (q - inject_Z f) (1 # 2)) as [E|E|E].
  - destruct (Z.even f) eqn:Ev.
    + left. split; [reflexivity|]. split; [lra|auto].
    + right. split; [reflexivity|]. split; [lra|auto].
  - left. split; [reflexivity|]. split; [lra|]. intros E'. lra.
  - right. split; [reflexivity|]. split; [lra|]. intros E'. lra.
Qed.

Lemma Qround_half_even_Z (z : Z) : Qround_half_even (inject_Z z) = z.
Proof.
  destruct (Qround_half_even_cases (inject_Z z)) as [(E & _)|(E & H & _)].
  - rewrite E. apply Qfloor_Z.
  - exfalso. rewrite Qfloor_Z in H. lra.
Qed.

Lemma Qfloor_bounds (q : Q) :
  (inject_Z (Qfloor q) <= q < inject_Z (Qfloor q) + 1)%Q.
Proof.
  split; [apply Qfloor_le|].
  pose proof (Qlt_floor q) as H. rewrite inject_Z_plus in H. exact H.
Qed.

Lemma Qround_half_even_le (p q : Q) :
  (p <= q)%Q -> (Qround_half_even p <= Qround_half_even q)%Z.
Proof.
  intros Hpq.
  pose proof (Qfloor_resp_le p q Hpq) as Hf.
  pose proof (Qfloor_bounds p) as Bp. pose proof (Qfloor_bounds q) as Bq.
  destruct (Qround_half_even_cases p) as [(Ep & Hp & Tp)|(Ep & Hp & Tp)];
    destruct (Qround_half_even_cases q) as [(Eq & Hq & Tq)|(Eq & Hq & Tq)];
    rewrite Ep, Eq; cbv zeta in *; try lia.
  destruct (Z.eq_dec (Qfloor p) (Qfloor q)) as [E|E]; [|lia].
  exfalso. rewrite E in Hp, Tp.
  assert (q - inject_Z (Qfloor q) == 1 # 2)%Q as Hq' by lra.
  assert (p - inject_Z (Qfloor q) == 1 # 2)%Q as Hp' by lra.
  specialize (Tp Hp'). specialize (Tq Hq'). congruence.
Qed.

Lemma Qround_half_even_error (q : Q) :
  (Qabs (inject_Z (Qround_half_even q) - q) <= 1 # 2)%Q.
Proof.
  pose proof (Qfloor_bounds q) as B.
  destruct (Qround_half_even_cases q) as [(E & H & _)|(E & H & _)];
    rewrite E; cbv zeta in *; apply Qabs_Qle_condition.
  - lra.
  - rewrite inject_Z_plus. change (inject_Z 1) with 1%Q. lra.
Qed.

Lemma Qround_half_even_comp (p q : Q) :
  (p == q)%Q -> Qround_half_even p = Qround_half_even q.
Proof.
  intros H. unfold Qround_half_even.
  rewrite (Qfloor_comp p q H).
  assert (p - inject_Z (Qfloor q) == q - inject_Z (Qfloor q))%Q as E
    by (rewrite H; reflexivity).
  rewrite (Qcompare_comp _ _ E (1 # 2) (1 # 2) (Qeq_refl _)). reflexivity.
Qed.

Lemma round_float_comp (prec emax : Z) (p q : Q) :
  (p == q)%Q -> round_float prec emax p = round_float prec emax q.
Proof. intros H. unfold round_float. rewrite (Qred_complete p q H). reflexivity. Qed.

Lemma round_to_le (x : Z) (a b : Q) :
  (a <= b)%Q -> (round_to x a <= round_to x b)%Q.
Proof.
  intros H. unfold round_to. pose proof (pow2_pos x) as Hx.
  apply Qmult_le_compat_r; [|lra].
  rewrite <- Zle_Qle. apply Qround_half_even_le.
  apply Qmult_le_compat_r; [exact H|].
  apply Qlt_le_weak, Qinv_lt_0_compat. exact Hx.
Qed.

(** A multiple of the grid step is left alone. *)
Lemma round_to_grid (x : Z) (m : Z) (a : Q) :
  (a == inject_Z m * pow2 x)%Q -> (round_to x a == a)%Q.
Proof.
  intros Ha. unfold round_to. pose proof (pow2_pos x) as Hx.
  assert (a / pow2 x == inject_Z m)%Q as E by (rewrite Ha; field; lra).
  rewrite (Qround_half_even_comp _ _ E), Qround_half_even_Z.
  symmetry. exact Ha.
Qed.

Lemma round_to_comp (x : Z) (a b : Q) :
  (a == b)%Q -> (round_to x a == round_to x b)%Q.
Proof.
  intros H. unfold round_to.
  assert (a / pow2 x == b / pow2 x)%Q as E by (rewrite H; reflexivity).
  rewrite (Qround_half_even_comp _ _ E). reflexivity.
Qed.

Lemma round_to_nonneg (x : Z) (a : Q) : (0 <= a)%Q -> (0 <= round_to x a)%Q.
Proof.
  intros H.
  assert (round_to x 0 == 0)%Q as E.
  { apply (round_to_grid x 0). ring. }
  rewrite <- E. apply round_to_le. exact H.
Qed.

(** A power of two on a coarser exponent is on the grid. *)
Lemma pow2_on_grid (x k : Z) :
  (x <= k)%Z -> (pow2 k == inject_Z (2 ^ (k - x)) * pow2 x)%Q.
Proof.
  intros H. rewrite <- pow2_Z by lia. rewrite <- pow2_add.
  replace (k - x + x)%Z with k by lia. reflexivity.
Qed.

Lemma round_to_ge_pow2 (x k : Z) (a : Q) :
  (x <= k)%Z -> (pow2 k <= a)%Q -> (pow2 k <= round_to x a)%Q.
Proof.
  intros Hx Ha.
  rewrite <- (round_to_grid x (2 ^ (k - x))%Z (pow2 k) (pow2_on_grid x k Hx)).
  apply round_to_le. exact Ha.
Qed.

Lemma round_to_le_pow2 (x k : Z) (a : Q) :
  (x <= k)%Z -> (a <= pow2 k)%Q -> (round_to x a <= pow2 k)%Q.
Proof.
  intros Hx Ha.
  rewrite <- (round_to_grid x (2 ^ (k - x))%Z (pow2 k) (pow2_on_grid x k Hx)).
  apply round_to_le. exact Ha.
Qed.

(** The rounding of positive numbers is monotone. *)
Lemma quantum_le (prec emin : Z) (a b : Q) :
  (0 < a)%Q -> (a <= b)%Q -> (quantum prec emin a <= quantum prec emin b)%Z.
Proof.
  intros Ha Hab. unfold quantum. pose proof (Qlog2_le a b Ha Hab). lia.
Qed.

Lemma round_pos_le (prec emin : Z) (a b : Q) :
  (1 <= prec)%Z -> (0 < a)%Q -> (a <= b)%Q ->
  (round_to (quantum prec emin a) a <= round_to (quantum prec emin b) b)%Q.
Proof.
  intros Hp Ha Hab.
  assert (0 < b)%Q as Hb by lra.
  pose proof (quantum_le prec emin a b Ha Hab) as Hq.
  destruct (Z.eq_dec (quantum prec emin a) (quantum prec emin b)) as [E|E].
  - rewrite E. apply round_to_le. exact Hab.
  - destruct (Qlog2_spec a Ha) as [A1 A2].
    destruct (Qlog2_spec b Hb) as [B1 B2].
    unfold quantum in *.
    set (ea := Qlog2 a) in *. set (eb := Qlog2 b) in *.
    set (xa := Z.max (ea - prec + 1) emin) in *.
    set (xb := Z.max (eb - prec + 1) emin) in *.
    assert (xb = eb - prec + 1)%Z as Exb by lia.
    assert (ea + 1 <= eb)%Z as Hab' by lia.
    apply Qle_trans with (pow2 (Z.max (ea + 1) xa)).
    + apply round_to_le_pow2; [lia|].
      apply Qle_trans with (pow2 (ea + 1)); [lra|apply pow2_le; lia].
    + apply Qle_trans with (pow2 eb); [apply pow2_le; lia|].
      apply round_to_ge_pow2; [lia|exact B1].
Qed.

Lemma Qlog2_comp (a b : Q) : (0 < a)%Q -> (a == b)%Q -> Qlog2 a = Qlog2 b.
Proof.
  intros Ha E. apply Qlog2_unique.
  destruct (Qlog2_spec b) as [B1 B2]; [lra|]. lra.
Qed.

Lemma round_mag_comp (prec emax : Z) (a b : Q) :
  (0 < a)%Q -> (a == b)%Q -> (round_mag prec emax a == round_mag prec emax b)%Q.
Proof.
  intros Ha E. unfold round_mag, quantum.
  rewrite (Qlog2_comp a b Ha E). apply round_to_comp. exact E.
Qed.

Lemma round_mag_le (prec emax : Z) (a b : Q) :
  (1 <= prec)%Z -> (0 < a)%Q -> (a <= b)%Q ->
  (round_mag prec emax a <= round_mag prec emax b)%Q.
Proof. intros. apply round_pos_le; assumption. Qed.

Lemma round_mag_nonneg (prec emax : Z) (a : Q) :
  (0 <= a)%Q -> (0 <= round_mag prec emax a)%Q.
Proof. intros H. apply round_to_nonneg. exact H. Qed.

Lemma round_float_zero (prec emax : Z) (q : Q) :
  (q == 0)%Q -> round_float prec emax q = Fin 0.
Proof.
  intros H. rewrite (round_float_comp prec emax q 0 H). reflexivity.
Qed.

Lemma round_float_pos (prec emax : Z) (q : Q) :
  (0 < q)%Q ->
  round_float prec emax q
  = if Qle_bool (pow2 emax) (round_mag prec emax q) then Inf false
    else Fin (Qred (round_mag prec emax q)).
Proof.
  intros Hq. unfold round_float.
  pose proof (Qred_correct q) as Er.
  assert (Qzero (Qred q) = false) as -> by (apply Qzero_false; lra).
  assert (Qneg (Qred q) = false) as ->.
  { destruct (Qneg (Qred q)) eqn:E; [|reflexivity].
    apply Qneg_true in E. lra. }
  assert (Qabs (Qred q) == q)%Q as Ea by (rewrite Qabs_pos; lra).
  assert (0 < Qabs (Qred q))%Q as Hpos by lra.
  pose proof (round_mag_comp prec emax _ _ Hpos Ea) as Em.
  fold (round_mag prec emax (Qabs (Qred q))).
  rewrite (Qleb_comp _ _ (Qeq_refl (pow2 emax)) _ _ Em).
  destruct (Qle_bool (pow2 emax) (round_mag prec emax q)); [reflexivity|].
  f_equal. apply Qred_complete. exact Em.
Qed.

Lemma round_float_neg (prec emax : Z) (q : Q) :
  (q < 0)%Q ->
  round_float prec emax q
  = if Qle_bool (pow2 emax) (round_mag prec emax (- q)) then Inf true
    else Fin (Qred (- round_mag prec emax (- q))).
Proof.
  intros Hq. unfold round_float.
  pose proof (Qred_correct q) as Er.
  assert (Qzero (Qred q) = false) as -> by (apply Qzero_false; lra).
  assert (Qneg (Qred q) = true) as -> by (apply Qneg_true; lra).
  assert (Qabs (Qred q) == - q)%Q as Ea by (rewrite Qabs_neg; lra).
  assert (0 < Qabs (Qred q))%Q as Hpos by lra.
  pose proof (round_mag_comp prec emax _ _ Hpos Ea) as Em.
  fold (round_mag prec emax (Qabs (Qred q))).
  rewrite (Qleb_comp _ _ (Qeq_refl (pow2 emax)) _ _ Em).
  destruct (Qle_bool (pow2 emax) (round_mag prec emax (- q))); [reflexivity|].
  f_equal. apply Qred_complete. rewrite Em. reflexivity.
Qed.

(** Rounding keeps the order. *)
Lemma round_float_le (prec emax : Z) (p q : Q) :
  (1 <= prec)%Z -> (p <= q)%Q ->
  fleb (round_float prec emax p) (round_float prec emax q) = true.
Proof.
  intros Hp Hpq.
  destruct (Q_dec p 0) as [[Hp0|Hp0]|Hp0]; destruct (Q_dec q 0) as [[Hq0|Hq0]|Hq0];
    try (exfalso; lra).
  - (* both negative *)
    rewrite (round_float_neg _ _ p Hp0), (round_float_neg _ _ q Hq0).
    assert (round_mag prec emax (- q) <= round_mag prec emax (- p))%Q as Hm
      by (apply round_mag_le; [exact Hp|lra|lra]).
    destruct (Qle_bool (pow2 emax) (round_mag prec emax (- p))) eqn:Ep;
      destruct (Qle_bool (pow2 emax) (round_mag prec emax (- q))) eqn:Eq;
      try reflexivity.
    + apply Qle_bool_iff in Eq. apply Qle_bool_false in Ep. lra.
    + cbn [fleb]. apply Qle_bool_iff. rewrite !Qred_correct. lra.
  - (* negative, positive *)
    rewrite (round_float_neg _ _ p Hp0), (round_float_pos _ _ q Hq0).
    pose proof (round_mag_nonneg prec emax (- p)) as H1.
    pose proof (round_mag_nonneg prec emax q) as H2.
    destruct (Qle_bool (pow2 emax) (round_mag prec emax (- p)));
      destruct (Qle_bool (pow2 emax) (round_mag prec emax q)); try reflexivity.
    cbn [fleb]. apply Qle_bool_iff. rewrite !Qred_correct.
    assert (0 <= - p)%Q by lra. assert (0 <= q)%Q by lra. auto.
    specialize (H1 H). specialize (H2 H0). lra.
  - (* negative, zero *)
    rewrite (round_float_neg _ _ p Hp0), (round_float_zero _ _ q Hq0).
    pose proof (round_mag_nonneg prec emax (- p)) as H1.
    destruct (Qle_bool (pow2 emax) (round_mag prec emax (- p))); [reflexivity|].
    cbn [fleb]. apply Qle_bool_iff. rewrite !Qred_correct.
    assert (0 <= - p)%Q by lra. specialize (H1 H). lra.
  - (* both positive *)
    rewrite (round_float_pos _ _ p Hp0), (round_float_pos _ _ q Hq0).
    assert (round_mag prec emax p <= round_mag prec emax q)%Q as Hm
      by (apply round_mag_le; [exact Hp|lra|lra]).
    destruct (Qle_bool (pow2 emax) (round_mag prec emax p)) eqn:Ep;
      destruct (Qle_bool (pow2 emax) (round_mag prec emax q)) eqn:Eq;
      try reflexivity.
    + apply Qle_bool_iff in Ep. apply Qle_bool_false in Eq. lra.
    + cbn [fleb]. apply Qle_bool_iff. rewrite !Qred_correct. lra.
  - (* zero, positive *)
    rewrite (round_float_zero _ _ p Hp0), (round_float_pos _ _ q Hq0).
    pose proof (round_mag_nonneg prec emax q) as H2.
    destruct (Qle_bool (pow2 emax) (round_mag prec emax q)); [reflexivity|].
    cbn [fleb]. apply Qle_bool_iff. rewrite !Qred_correct.
    assert (0 <= q)%Q by lra. specialize (H2 H). lra.
  - rewrite (round_float_zero _ _ p Hp0), (round_float_zero _ _ q Hq0).
    reflexivity.
Qed.

Lemma Qred_inject_Z (z : Z) : Qred (inject_Z z) = inject_Z z.
Proof.
  unfold Qred, inject_Z.
  pose proof (Z.ggcd_gcd z 1) as Hg.
  pose proof (Z.ggcd_correct_divisors z 1) as Hd.
  destruct (Z.ggcd z 1) as [g [n d]]. cbn [fst snd] in *.
  rewrite Z.gcd_1_r in Hg. subst g. destruct Hd as [H1 H2].
  rewrite Z.mul_1_l in H1, H2. subst. reflexivity.
Qed.

(** A number with at most [prec] significant bits above [emin] is its
    own rounding. *)
Lemma round_mag_fix (prec emax : Z) (m x : Z) (a : Q) :
  (1 <= prec)%Z ->
  (a == inject_Z m * pow2 x)%Q ->
  (1 <= m <= 2 ^ prec)%Z ->
  (3 - emax - prec <= x)%Z ->
  (round_mag prec emax a == a)%Q.
Proof.
  intros Hp Ha Hm Hx. unfold round_mag.
  set (x' := quantum prec (3 - emax - prec) a).
  assert (0 < pow2 x)%Q as Hpx by apply pow2_pos.
  assert (0 < inject_Z m)%Q as Hm0
    by (change 0%Q with (inject_Z 0); rewrite <- Zlt_Qlt; lia).
  destruct (Z.eq_dec m (2 ^ prec)%Z) as [E|E].
  - (* a power of two *)
    assert (a == pow2 (prec + x))%Q as Ea.
    { rewrite Ha, E, pow2_add. rewrite (pow2_Z prec) by lia. reflexivity. }
    assert (Qlog2 a = prec + x)%Z as El.
    { apply Qlog2_unique. rewrite Ea. split; [lra|apply pow2_lt; lia]. }
    assert (x' = x + 1)%Z as Ex by (unfold x', quantum; rewrite El; lia).
    rewrite Ex.
    apply (round_to_grid (x + 1) (2 ^ (prec - 1))%Z).
    rewrite Ea, <- pow2_Z by lia. rewrite <- pow2_add.
    replace (prec - 1 + (x + 1))%Z with (prec + x)%Z by lia. reflexivity.
  - set (l := Z.log2 m).
    assert (0 <= l <= prec - 1)%Z as Hl.
    { unfold l. split; [apply Z.log2_nonneg|].
      assert (Z.log2 m < prec)%Z; [|lia].
      apply Z.log2_lt_pow2; lia. }
    destruct (Z.log2_spec m) as [L1 L2]; [lia|]. fold l in L1, L2.
    assert (Qlog2 a = l + x)%Z as El.
    { apply Qlog2_unique. rewrite Ha. split.
      - rewrite pow2_add, (pow2_Z l) by lia.
        apply Qmult_le_compat_r; [|lra]. rewrite <- Zle_Qle. exact L1.
      - replace (l + x + 1)%Z with (Z.succ l + x)%Z by lia.
        rewrite pow2_add, (pow2_Z (Z.succ l)) by lia.
        apply Qmult_lt_compat_r; [exact Hpx|]. rewrite <- Zlt_Qlt. exact L2. }
    assert (x' <= x)%Z as Ex by (unfold x', quantum; rewrite El; lia).
    apply (round_to_grid x' (m * 2 ^ (x - x'))%Z).
    rewrite Ha, inject_Z_mult, <- pow2_Z by lia.
    rewrite <- Qmult_assoc, <- pow2_add.
    replace (x - x' + x')%Z with x by lia. reflexivity.
Qed.

(** The rounded magnitude has at most [prec] significant bits above
    [emin]. *)
Lemma round_mag_grid (prec emax : Z) (a : Q) :
  (1 <= prec)%Z -> (0 < a)%Q ->
  exists m,
    (round_mag prec emax a
     == inject_Z m * pow2 (quantum prec (3 - emax - prec) a))%Q
    /\ (0 <= m <= 2 ^ prec)%Z.
Proof.
  intros Hp Ha. unfold round_mag, round_to.
  set (x := quantum prec (3 - emax - prec) a).
  exists (Qround_half_even (a / pow2 x)). split; [reflexivity|].
  pose proof (pow2_pos x) as Hx.
  destruct (Qlog2_spec a Ha) as [A1 A2].
  assert (Qlog2 a + 1 - x <= prec)%Z as Hq by (unfold x, quantum; lia).
  split.
  - rewrite <- (Qround_half_even_Z 0). apply Qround_half_even_le.
    apply Qle_shift_div_l; [exact Hx|]. change (inject_Z 0) with 0%Q. lra.
  - rewrite <- (Qround_half_even_Z (2 ^ prec)%Z). apply Qround_half_even_le.
    apply Qle_shift_div_r; [exact Hx|].
    rewrite <- pow2_Z by lia. rewrite <- pow2_add.
    apply Qle_trans with (pow2 (Qlog2 a + 1)); [lra|apply pow2_le; lia].
Qed.

Lemma round_mag_idem (prec emax : Z) (a : Q) :
  (1 <= prec)%Z -> (0 < a)%Q -> (0 < round_mag prec emax a)%Q ->
  (round_mag prec emax (round_mag prec emax a) == round_mag prec emax a)%Q.
Proof.
  intros Hp Ha Hr.
  destruct (round_mag_grid prec emax a Hp Ha) as (m & Em & Hm).
  apply (round_mag_fix prec emax m (quantum prec (3 - emax - prec) a));
    [exact Hp|exact Em| |unfold quantum; lia].
  assert (m <> 0)%Z; [|lia].
  intros ->. rewrite Em in Hr. change (inject_Z 0) with 0%Q in Hr. lra.
Qed.

(** A value produced by rounding is its own rounding. *)
Lemma round_float_idem (prec emax : Z) (q r : Q) :
  (1 <= prec)%Z ->
  round_float prec emax q = Fin r -> round_float prec emax r = Fin r.
Proof.
  intros Hp H.
  destruct (Q_dec q 0) as [[Hq|Hq]|Hq].
  - rewrite (round_float_neg _ _ q Hq) in H.
    destruct (Qle_bool (pow2 emax) (round_mag prec emax (- q))) eqn:Eo;
      [discriminate|].
    injection H as <-. apply Qle_bool_false in Eo.
    set (rm := round_mag prec emax (- q)) in *.
    assert (0 <= rm)%Q as H0 by (apply round_mag_nonneg; lra).
    destruct (Qle_lt_or_eq _ _ H0) as [Hpos|Hz].
    + assert (Qred (- rm) < 0)%Q as Hneg by (rewrite Qred_correct; lra).
      rewrite (round_float_neg _ _ _ Hneg).
      assert (- Qred (- rm) == rm)%Q as E1 by (rewrite Qred_correct; ring).
      assert (0 < - Qred (- rm))%Q as Hpos' by lra.
      pose proof (round_mag_comp prec emax _ _ Hpos' E1) as E2.
      pose proof (round_mag_idem prec emax (- q) Hp) as E3.
      fold rm in E3. assert (0 < - q)%Q as Hq' by lra.
      specialize (E3 Hq' Hpos).
      assert (Qle_bool (pow2 emax) (round_mag prec emax (- Qred (- rm))) = false)
        as -> by (apply Qle_bool_false; lra).
      f_equal. apply Qred_complete. rewrite E2, E3. reflexivity.
    + assert (Qred (- rm) = 0%Q) as -> by (apply Qred_0; lra). reflexivity.
  - rewrite (round_float_pos _ _ q Hq) in H.
    destruct (Qle_bool (pow2 emax) (round_mag prec emax q)) eqn:Eo;
      [discriminate|].
    injection H as <-. apply Qle_bool_false in Eo.
    set (rm := round_mag prec emax q) in *.
    assert (0 <= rm)%Q as H0 by (apply round_mag_nonneg; lra).
    destruct (Qle_lt_or_eq _ _ H0) as [Hpos|Hz].
    + assert (0 < Qred rm)%Q as Hpos' by (rewrite Qred_correct; lra).
      rewrite (round_float_pos _ _ _ Hpos').
      pose proof (round_mag_comp prec emax _ _ Hpos' (Qred_correct rm)) as E2.
      pose proof (round_mag_idem prec emax q Hp Hq) as E3. fold rm in E3.
      specialize (E3 Hpos).
      assert (Qle_bool (pow2 emax) (round_mag prec emax (Qred rm)) = false)
        as -> by (apply Qle_bool_false; lra).
      f_equal. apply Qred_complete. rewrite E2, E3. reflexivity.
    + assert (Qred rm = 0%Q) as -> by (apply Qred_0; lra). reflexivity.
  - rewrite (round_float_zero _ _ q Hq) in H. injection H as <-. reflexivity.
Qed.

(** Integers of at most [prec] bits are exact. *)
Lemma round_float_Z (prec emax : Z) (z : Z) :
  (1 <= prec < emax)%Z -> (Z.abs z <= 2 ^ prec)%Z ->
  round_float prec emax (inject_Z z) = Fin (inject_Z z).
Proof.
  intros Hp Hz.
  assert (pow2 prec < pow2 emax)%Q as Hlim by (apply pow2_lt; lia).
  assert (forall m, (1 <= m <= 2 ^ prec)%Z ->
                    (round_mag prec emax (inject_Z m) == inject_Z m)%Q
                    /\ (inject_Z m < pow2 emax)%Q) as Hfix.
  { intros m Hm. split.
    - apply (round_mag_fix prec emax m 0); [lia| |exact Hm|lia].
      rewrite pow2_0. ring.
    - apply Qle_lt_trans with (pow2 prec); [|exact Hlim].
      rewrite pow2_Z by lia. rewrite <- Zle_Qle. lia. }
  destruct (Z.lt_trichotomy z 0) as [Hneg|[->|Hpos]].
  - assert (inject_Z z < 0)%Q as Hq
      by (change 0%Q with (inject_Z 0); rewrite <- Zlt_Qlt; lia).
    rewrite (round_float_neg _ _ _ Hq).
    destruct (Hfix (- z)%Z) as [E1 E2]; [lia|].
    rewrite inject_Z_opp in E1, E2.
    assert (Qle_bool (pow2 emax) (round_mag prec emax (- inject_Z z)) = false)
      as -> by (apply Qle_bool_false; lra).
    f_equal. transitivity (Qred (inject_Z z)); [|apply Qred_inject_Z].
    apply Qred_complete. rewrite E1. ring.
  - reflexivity.
  - assert (0 < inject_Z z)%Q as Hq
      by (change 0%Q with (inject_Z 0); rewrite <- Zlt_Qlt; lia).
    rewrite (round_float_pos _ _ _ Hq).
    destruct (Hfix z) as [E1 E2]; [lia|].
    assert (Qle_bool (pow2 emax) (round_mag prec emax (inject_Z z)) = false)
      as -> by (apply Qle_bool_false; lra).
    f_equal. transitivity (Qred (inject_Z z)); [|apply Qred_inject_Z].
    apply Qred_complete. exact E1.
Qed.

(** The rounding error is at most half a unit in the last place. *)
Lemma Qlog2_lt_pow2 (a : Q) (k : Z) :
  (0 < a)%Q -> (a < pow2 k)%Q -> (Qlog2 a < k)%Z.
Proof.
  intros Ha Hk. destruct (Qlog2_spec a Ha) as [H1 _].
  apply pow2_lt_inv. lra.
Qed.

Lemma round_to_error (x : Z) (a : Q) :
  (Qabs (round_to x a - a) <= pow2 (x - 1))%Q.
Proof.
  unfold round_to. pose proof (pow2_pos x) as Hx.
  pose proof (Qround_half_even_error (a / pow2 x)) as E.
  set (t := inject_Z (Qround_half_even (a / pow2 x))) in *.
  assert (t * pow2 x - a == (t - a / pow2 x) * pow2 x)%Q as -> by (field; lra).
  rewrite Qabs_Qmult. rewrite (Qabs_pos (pow2 x)) by lra.
  assert (pow2 (x - 1) == (1 # 2) * pow2 x)%Q as ->.
  { rewrite pow2_sub. assert (pow2 1 == 2)%Q as -> by reflexivity. field. }
  apply Qmult_le_compat_r; [exact E|lra].
Qed.

Lemma round_mag_error (prec emax : Z) (a : Q) (k : Z) :
  (0 < a)%Q -> (a < pow2 k)%Q -> (3 - emax - prec <= k - prec)%Z ->
  (Qabs (round_mag prec emax a - a) <= pow2 (k - prec - 1))%Q.
Proof.
  intros Ha Hk He. unfold round_mag.
  eapply Qle_trans; [apply round_to_error|]. apply pow2_le.
  pose proof (Qlog2_lt_pow2 a k Ha Hk). unfold quantum. lia.
Qed.

Lemma round_float_error (prec emax : Z) (q r : Q) (k : Z) :
  (0 <= q)%Q -> (q < pow2 k)%Q -> (3 - emax - prec <= k - prec)%Z ->
  round_float prec emax q = Fin r ->
  (Qabs (r - q) <= pow2 (k - prec - 1))%Q.
Proof.
  intros H0 Hk He Hr. destruct (Qlt_le_dec 0 q) as [Hpos|Hz].
  - rewrite round_float_pos in Hr by exact Hpos.
    destruct (Qle_bool _ _); [discriminate|]. injection Hr as <-.
    rewrite Qred_correct. apply round_mag_error; assumption.
  - rewrite round_float_zero in Hr by lra. injection Hr as <-.
    assert (0 - q == 0)%Q as -> by lra.
    simpl. apply Qlt_le_weak, pow2_pos.
Qed.

Lemma round32_error (q r : Q) (k : Z) :
  (0 <= q)%Q -> (q < pow2 k)%Q -> (-125 <= k)%Z ->
  round32 q = Fin r -> (Qabs (r - q) <= pow2 (k - 25))%Q.
Proof.
  intros H0 Hk He Hr.
  replace (k - 25)%Z with (k - 24 - 1)%Z by lia.
  apply (round_float_error 24 128); auto. lia.
Qed.

(** ** Binary32 arithmetic *)

(** A rounded value is in lowest terms. *)
Lemma round_float_canonical (prec emax : Z) (q r : Q) :
  round_float prec emax q = Fin r -> Qred r = r.
Proof.
  unfold round_float. destruct (Qzero (Qred q)).
  - intros [= <-]. reflexivity.
  - destruct (Qle_bool _ _); [discriminate|].
    intros [= <-]. apply Qred_complete, Qred_correct.
Qed.

Lemma canonical_eq (p q : Q) : Qred p = p -> Qred q = q -> (p == q)%Q -> p = q.
Proof. intros Hp Hq E. rewrite <- Hp, <- Hq. apply Qred_complete, E. Qed.

(** Between two values that round to finite values, the rounding is
    finite and between them. *)
Lemma round_float_bounds (prec emax : Z) (a b a' b' q : Q) :
  (1 <= prec)%Z -> (a <= q <= b)%Q ->
  round_float prec emax a = Fin a' -> round_float prec emax b = Fin b' ->
  exists r, round_float prec emax q = Fin r /\ (a' <= r <= b')%Q.
Proof.
  intros Hp [H1 H2] Ha Hb.
  pose proof (round_float_le prec emax a q Hp H1) as L1.
  pose proof (round_float_le prec emax q b Hp H2) as L2.
  rewrite Ha in L1. rewrite Hb in L2.
  destruct (round_float prec emax q) as [|[]|r]; try discriminate.
  exists r. split; [reflexivity|].
  simpl in L1, L2. apply Qle_bool_iff in L1, L2. split; assumption.
Qed.

Lemma round32_comp (p q : Q) : (p == q)%Q -> round32 p = round32 q.
Proof. apply round_float_comp. Qed.

Lemma round32_zero (q : Q) : (q == 0)%Q -> round32 q = Fin 0.
Proof. apply round_float_zero. Qed.

Lemma round32_le (p q : Q) :
  (p <= q)%Q -> fleb (round32 p) (round32 q) = true.
Proof. apply round_float_le. lia. Qed.

Lemma round32_idem (q r : Q) : round32 q = Fin r -> round32 r = Fin r.
Proof. apply round_float_idem. lia. Qed.

Lemma round32_Z (z : Z) :
  (Z.abs z <= 2 ^ 24)%Z -> round32 (inject_Z z) = Fin (inject_Z z).
Proof. apply round_float_Z. lia. Qed.

Lemma round32_one : round32 1 = Fin 1.
Proof. apply (round32_Z 1). simpl. lia. Qed.

Lemma round32_bounds (a b a' b' q : Q) :
  (a <= q <= b)%Q -> round32 a = Fin a' -> round32 b = Fin b' ->
  exists r, round32 q = Fin r /\ (a' <= r <= b')%Q.
Proof. apply round_float_bounds. lia. Qed.

Lemma add32_Fin (a b : Q) : add32 (Fin a) (Fin b) = round32 (a + b).
Proof. unfold add32. simpl. apply round32_comp, Qred_correct. Qed.

Lemma sub32_Fin (a b : Q) : sub32 (Fin a) (Fin b) = round32 (a - b).
Proof. unfold sub32. simpl. apply round32_comp, Qred_correct. Qed.

Lemma mul32_Fin (a b : Q) : mul32 (Fin a) (Fin b) = round32 (a * b).
Proof. unfold mul32. simpl. apply round32_comp, Qred_correct. Qed.

Lemma div32_Fin (a b : Q) :
  ~ (b == 0)%Q -> div32 (Fin a) (Fin b) = round32 (a / b).
Proof.
  intros Hb. unfold div32. simpl.
  apply Qzero_false in Hb. rewrite Hb. simpl.
  apply round32_comp, Qred_correct.
Qed.

(** ** Finite data *)

Lemma finite_list_map_Fin (l : list float) :
  finite_list l -> exists qs, l = map Fin qs.
Proof.
  induction 1 as [|x l Hx _ [qs ->]].
  - exists []. reflexivity.
  - destruct x as [| |q]; try discriminate. exists (q :: qs). reflexivity.
Qed.

Lemma finite_map_map2d_Fin (g : grid float) :
  finite_map g -> exists qg, g = map2d Fin qg.
Proof.
  induction 1 as [|r g Hr _ [qg ->]].
  - exists []. reflexivity.
  - destruct (finite_list_map_Fin r Hr) as [qs ->].
    exists (qs :: qg). reflexivity.
Qed.

Lemma concat_map2d {A B : Type} (f : A -> B) (g : grid A) :
  concat (map2d f g) = map f (concat g).
Proof. unfold map2d. symmetry. apply concat_map. Qed.

Lemma map2d_map2d {A B C : Type} (f : A -> B) (h : B -> C) (g : grid A) :
  map2d h (map2d f g) = map2d (fun a => h (f a)) g.
Proof.
  unfold map2d. rewrite map_map. apply map_ext. intros r. apply map_map.
Qed.

Lemma map2d_ext_in {A B : Type} (f h : A -> B) (g : grid A) :
  (forall a, In a (concat g) -> f a = h a) -> map2d f g = map2d h g.
Proof.
  intros H. unfold map2d. apply map_ext_in. intros r Hr.
  apply map_ext_in. intros a Ha. apply H.
  apply in_concat. exists r. split; assumption.
Qed.

(** The minimum of finite values is one of them and below all of them. *)
Lemma fold_minimum_Fin (qs : list Q) (a : Q) :
  exists m, fold_left minimum (map Fin qs) (Fin a) = Fin m
            /\ In m (a :: qs) /\ forall q, In q (a :: qs) -> (m <= q)%Q.
Proof.
  revert a. induction qs as [|b qs IH]; intros a; simpl.
  - exists a. split; [reflexivity|]. split; [now left|].
    intros q [<-|[]]. lra.
  - destruct (Qle_bool a b) eqn:E.
    + destruct (IH a) as (m & -> & Hin & Hle).
      apply Qle_bool_iff in E.
      exists m. split; [reflexivity|]. split.
      * destruct Hin as [<-|Hin]; [now left|right; now right].
      * intros q [<-|[<-|Hq]].
        -- apply Hle. now left.
        -- assert (m <= a)%Q by (apply Hle; now left). lra.
        -- apply Hle. now right.
    + destruct (IH b) as (m & -> & Hin & Hle).
      apply Qle_bool_false in E.
      exists m. split; [reflexivity|]. split.
      * right. exact Hin.
      * intros q [<-|[<-|Hq]].
        -- assert (m <= b)%Q by (apply Hle; now left). lra.
        -- apply Hle. now left.
        -- apply Hle. now right.
Qed.

Lemma fold_maximum_Fin (qs : list Q) (a : Q) :
  exists m, fold_left maximum (map Fin qs) (Fin a) = Fin m
            /\ In m (a :: qs) /\ forall q, In q (a :: qs) -> (q <= m)%Q.
Proof.
  revert a. induction qs as [|b qs IH]; intros a; simpl.
  - exists a. split; [reflexivity|]. split; [now left|].
    intros q [<-|[]]. lra.
  - destruct (Qle_bool b a) eqn:E.
    + destruct (IH a) as (m & -> & Hin & Hle).
      apply Qle_bool_iff in E.
      exists m. split; [reflexivity|]. split.
      * destruct Hin as [<-|Hin]; [now left|right; now right].
      * intros q [<-|[<-|Hq]].
        -- apply Hle. now left.
        -- assert (a <= m)%Q by (apply Hle; now left). lra.
        -- apply Hle. now right.
    + destruct (IH b) as (m & -> & Hin & Hle).
      apply Qle_bool_false in E.
      exists m. split; [reflexivity|]. split.
      * right. exact Hin.
      * intros q [<-|[<-|Hq]].
        -- assert (b <= m)%Q by (apply Hle; now left). lra.
        -- apply Hle. now left.
        -- apply Hle. now right.
Qed.

Lemma np_min_Fin (qs : list Q) :
  qs <> [] ->
  exists m, np_min (map Fin qs) = Ok (Fin m)
            /\ In m qs /\ forall q, In q qs -> (m <= q)%Q.
Proof.
  destruct qs as [|a qs]; [congruence|]. intros _.
  destruct (fold_minimum_Fin qs a) as (m & H & Hin & Hle).
  exists m. simpl. rewrite H. auto.
Qed.

Lemma np_max_Fin (qs : list Q) :
  qs <> [] ->
  exists m, np_max (map Fin qs) = Ok (Fin m)
            /\ In m qs /\ forall q, In q qs -> (q <= m)%Q.
Proof.
  destruct qs as [|a qs]; [congruence|]. intros _.
  destruct (fold_maximum_Fin qs a) as (m & H & Hin & Hle).
  exists m. simpl. rewrite H. auto.
Qed.

(** ** DepthNormalizer *)

Lemma normalize_depth_Fin (qg : grid Q) :
  concat qg <> [] ->
  exists lo hi,
    In lo (concat qg) /\ In hi (concat qg)
    /\ (forall q, In q (concat qg) -> (lo <= q <= hi)%Q)
    /\ depth_range (map2d Fin qg) = Ok (sub32 (Fin hi) (Fin lo))
    /\ normalize_depth (map2d Fin qg)
       = Ok (map2d (fun q => div32 (sub32 (Fin q) (Fin lo))
                                   (sub32 (Fin hi) (Fin lo)))
                   qg).
Proof.
  intros Hne.
  destruct (np_min_Fin _ Hne) as (lo & Hmin & Hlo & Hlo_le).
  destruct (np_max_Fin _ Hne) as (hi & Hmax & Hhi & Hhi_le).
  exists lo, hi. repeat split; auto.
  - unfold depth_range. rewrite concat_map2d, Hmin, Hmax. reflexivity.
  - unfold normalize_depth. rewrite concat_map2d, Hmin, Hmax. simpl.
    rewrite map2d_map2d. reflexivity.
Qed.

Lemma constant_map_Fin (v : Q) (g : grid float) :
  constant_map v g ->
  exists qg, g = map2d Fin qg /\ forall q, In q (concat qg) -> (q == v)%Q.
Proof.
  induction 1 as [|r g Hr _ (qg & -> & Hqg)].
  - exists []. split; [reflexivity|]. intros q [].
  - assert (exists qs, r = map Fin qs /\ forall q, In q qs -> (q == v)%Q)
      as (qs & -> & Hqs).
    { induction Hr as [|x r (q & -> & Hq) _ (qs & -> & Hqs)].
      - exists []. split; [reflexivity|]. intros q [].
      - exists (q :: qs). split; [reflexivity|].
        intros q' [<-|Hq']; auto. }
    exists (qs :: qg). split; [reflexivity|].
    intros q Hq. simpl in Hq. apply in_app_or in Hq. destruct Hq; auto.
Qed.

Lemma flat_entry_is_nan (v q lo hi : Q) :
  (q == v)%Q -> (lo == v)%Q -> (hi == v)%Q ->
  div32 (sub32 (Fin q) (Fin lo)) (sub32 (Fin hi) (Fin lo)) = NaN.
Proof.
  intros Hq Hlo Hhi. rewrite !sub32_Fin.
  rewrite (round32_zero (q - lo)) by lra.
  rewrite (round32_zero (hi - lo)) by lra.
  reflexivity.
Qed.

(** C1. On a flat map of finite values the code divides zero by zero:
    every entry of the normalised map is NaN, where the specification
    asks for an all-zero map. *)
Theorem normalize_depth_flat_is_nan (depth_map : grid float) (v : Q) :
  concat depth_map <> [] ->
  constant_map v depth_map ->
  normalize_depth depth_map = Ok (map2d (fun _ => NaN) depth_map).
Proof.
  intros Hne Hc.
  destruct (constant_map_Fin v depth_map Hc) as (qg & -> & Hv).
  rewrite concat_map2d in Hne.
  assert (concat qg <> []) as Hne' by (intros E; rewrite E in Hne; auto).
  destruct (normalize_depth_Fin qg Hne') as (lo & hi & Hlo & Hhi & _ & _ & ->).
  f_equal. rewrite map2d_map2d. apply map2d_ext_in. intros q Hq.
  apply (flat_entry_is_nan v); auto.
Qed.

Lemma normalize_depth_flat_is_nan_witness :
  normalize_depth [[Fin (1 # 2); Fin (1 # 2)]; [Fin (1 # 2); Fin (1 # 2)]]
  = Ok [[NaN; NaN]; [NaN; NaN]].
Proof.
  apply (normalize_depth_flat_is_nan
           [[Fin (1 # 2); Fin (1 # 2)]; [Fin (1 # 2); Fin (1 # 2)]] (1 # 2)).
  - discriminate.
  - repeat constructor; exists (1 # 2); split; reflexivity.
Defined.

Lemma Qdiv_unit (a d : Q) : (0 <= a <= d)%Q -> (0 < d)%Q -> (0 <= a / d <= 1)%Q.
Proof.
  intros [H0 Hd] Hpos. split.
  - apply Qle_shift_div_l; [assumption|]. lra.
  - apply Qle_shift_div_r; [assumption|]. lra.
Qed.

Lemma in_concat_map2d {A B : Type} (f : A -> B) (g : grid A) (b : B) :
  In b (concat (map2d f g)) <-> exists a, f a = b /\ In a (concat g).
Proof. rewrite concat_map2d. apply in_map_iff. Qed.

(** One entry of the normalised map, when the float32 range [w] of the
    map is finite and positive: a float32 value of the unit interval,
    0 at the minimum and 1 at the maximum, and larger for a larger
    depth. *)
Lemma normalize_entry (lo hi w q : Q) :
  sub32 (Fin hi) (Fin lo) = Fin w -> (0 < w)%Q -> (lo <= q <= hi)%Q ->
  exists n,
    div32 (sub32 (Fin q) (Fin lo)) (Fin w) = Fin n
    /\ (0 <= n <= 1)%Q /\ round32 n = Fin n /\ Qred n = n
    /\ ((q == lo)%Q -> n = 0%Q) /\ ((q == hi)%Q -> n = 1%Q).
Proof.
  intros Hw Hpos Hq. rewrite sub32_Fin in Hw. rewrite sub32_Fin.
  destruct (round32_bounds 0 (hi - lo) 0 w (q - lo)) as (a & Ha & Ha0 & Haw);
    [lra|reflexivity|exact Hw|].
  rewrite Ha. rewrite div32_Fin by lra.
  destruct (round32_bounds 0 1 0 1 (a / w)) as (n & Hn & Hn0 & Hn1);
    [apply Qdiv_unit; [split; assumption|exact Hpos]|reflexivity
    |exact round32_one|].
  exists n. split; [exact Hn|]. split; [split; assumption|].
  split; [exact (round32_idem _ _ Hn)|].
  split; [exact (round_float_canonical _ _ _ _ Hn)|]. split.
  - intros E. rewrite (round32_zero (q - lo)) in Ha by lra.
    injection Ha as <-. rewrite round32_zero in Hn by (field; lra).
    injection Hn as <-. reflexivity.
  - intros E. rewrite (round32_comp (q - lo) (hi - lo)) in Ha by lra.
    rewrite Hw in Ha. injection Ha as <-.
    rewrite (round32_comp (w / w) 1) in Hn by (field; lra).
    rewrite round32_one in Hn. injection Hn as <-. reflexivity.
Qed.

Lemma normalize_entry_le (lo hi w p q : Q) :
  sub32 (Fin hi) (Fin lo) = Fin w -> (0 < w)%Q ->
  (lo <= p)%Q -> (p <= q)%Q -> (q <= hi)%Q ->
  fleb (div32 (sub32 (Fin p) (Fin lo)) (Fin w))
       (div32 (sub32 (Fin q) (Fin lo)) (Fin w)) = true.
Proof.
  intros Hw Hpos Hp Hpq Hq. pose proof Hw as Hw'. rewrite sub32_Fin in Hw'.
  rewrite !sub32_Fin.
  destruct (round32_bounds 0 (hi - lo) 0 w (p - lo)) as (a & Ha & Ha0 & Haw);
    [lra|reflexivity|exact Hw'|].
  destruct (round32_bounds 0 (hi - lo) 0 w (q - lo)) as (b & Hb & Hb0 & Hbw);
    [lra|reflexivity|exact Hw'|].
  assert (a <= b)%Q as Hab.
  { pose proof (round32_le (p - lo) (q - lo)) as L.
    rewrite Ha, Hb in L. apply Qle_bool_iff. apply L. lra. }
  rewrite Ha, Hb. rewrite !div32_Fin by lra. apply round32_le.
  apply Qmult_le_compat_r; [exact Hab|].
  apply Qlt_le_weak, Qinv_lt_0_compat, Hpos.
Qed.

(** The float32 range of a finite map, with the map's extremes. *)
Lemma depth_range_Fin (qg : grid Q) (w : float) :
  depth_range (map2d Fin qg) = Ok w ->
  exists lo hi,
    In lo (concat qg) /\ In hi (concat qg)
    /\ (forall q, In q (concat qg) -> (lo <= q <= hi)%Q)
    /\ w = sub32 (Fin hi) (Fin lo)
    /\ normalize_depth (map2d Fin qg)
       = Ok (map2d (fun q => div32 (sub32 (Fin q) (Fin lo)) w) qg).
Proof.
  intros Hw.
  assert (concat qg <> []) as Hne.
  { intros E. unfold depth_range in Hw. rewrite concat_map2d, E in Hw.
    discriminate. }
  destruct (normalize_depth_Fin qg Hne) as (lo & hi & Hlo & Hhi & Hb & Hr & Hn).
  rewrite Hr in Hw. injection Hw as <-. exists lo, hi. auto.
Qed.

(** C6. On a finite map whose float32 range [max - min] is finite and
    positive, the normaliser returns a map with every entry in [0, 1],
    and normalising that map again returns it unchanged. *)
Theorem normalize_depth_idempotent (depth_map : grid float) (w : Q) :
  finite_map depth_map ->
  depth_range depth_map = Ok (Fin w) ->
  (0 < w)%Q ->
  exists normalized,
    normalize_depth depth_map = Ok normalized
    /\ unit_map normalized
    /\ normalize_depth normalized = Ok normalized.
Proof.
  intros Hfin Hw Hpos.
  destruct (finite_map_map2d_Fin _ Hfin) as (qg & ->).
  destruct (depth_range_Fin qg _ Hw)
    as (lo & hi & Hlo & Hhi & Hbnd & Ew & Hn).
  symmetry in Ew.
  set (g := fun q : Q => div32 (sub32 (Fin q) (Fin lo)) (Fin w)) in *.
  set (f := fun q : Q => match g q with Fin n => n | _ => 0%Q end).
  assert (forall q, In q (concat qg) ->
            g q = Fin (f q) /\ (0 <= f q <= 1)%Q /\ round32 (f q) = Fin (f q)
            /\ Qred (f q) = f q) as Hf.
  { intros q Hq.
    destruct (normalize_entry lo hi w q Ew Hpos (Hbnd q Hq))
      as (n & En & Hn01 & Hidem & Hcan & _).
    unfold f. fold (g q) in En. rewrite En. auto. }
  assert (f lo = 0%Q) as Hflo.
  { destruct (normalize_entry lo hi w lo Ew Hpos (Hbnd lo Hlo))
      as (n & En & _ & _ & _ & E0 & _).
    unfold f. fold (g lo) in En. rewrite En. apply E0. reflexivity. }
  assert (f hi = 1%Q) as Hfhi.
  { destruct (normalize_entry lo hi w hi Ew Hpos (Hbnd hi Hhi))
      as (n & En & _ & _ & _ & _ & E1).
    unfold f. fold (g hi) in En. rewrite En. apply E1. reflexivity. }
  assert (map2d g qg = map2d Fin (map2d f qg)) as Hshape.
  { rewrite map2d_map2d. apply map2d_ext_in. intros q Hq.
    apply (Hf q Hq). }
  rewrite Hshape in Hn.
  exists (map2d Fin (map2d f qg)). split; [exact Hn|]. split.
  - unfold unit_map, map2d. rewrite map_map.
    apply List.Forall_forall. intros r' Hr'. apply in_map_iff in Hr'.
    destruct Hr' as (r & <- & Hr). rewrite map_map.
    apply List.Forall_forall. intros x Hx. apply in_map_iff in Hx.
    destruct Hx as (q & <- & Hq). exists (f q). split; [reflexivity|].
    apply (Hf q). apply in_concat. exists r. split; assumption.
  - assert (concat (map2d f qg) <> []) as Hne'.
    { rewrite concat_map2d. intros E. apply map_eq_nil in E.
      rewrite E in Hlo. destruct Hlo. }
    destruct (normalize_depth_Fin _ Hne')
      as (lo' & hi' & Hlo' & Hhi' & Hbnd' & _ & Hn').
    rewrite Hn'. f_equal.
    apply in_concat_map2d in Hlo', Hhi'.
    destruct Hlo' as (q1 & E1 & Hq1), Hhi' as (q2 & E2 & Hq2).
    assert (lo' = 0%Q) as ->.
    { assert (In (f lo) (concat (map2d f qg))) as Hin
        by (apply in_concat_map2d; eauto).
      apply Hbnd' in Hin. rewrite Hflo in Hin.
      destruct (Hf q1 Hq1) as (_ & Hu & _ & Hcan). rewrite E1 in Hu, Hcan.
      apply canonical_eq; [exact Hcan|reflexivity|lra]. }
    assert (hi' = 1%Q) as ->.
    { assert (In (f hi) (concat (map2d f qg))) as Hin
        by (apply in_concat_map2d; eauto).
      apply Hbnd' in Hin. rewrite Hfhi in Hin.
      destruct (Hf q2 Hq2) as (_ & Hu & _ & Hcan). rewrite E2 in Hu, Hcan.
      apply canonical_eq; [exact Hcan|reflexivity|lra]. }
    apply map2d_ext_in. intros y Hy. apply in_concat_map2d in Hy.
    destruct Hy as (q & <- & Hq).
    destruct (Hf q Hq) as (_ & _ & Hidem & _).
    rewrite !sub32_Fin.
    rewrite (round32_comp (1 - 0) 1) by lra. rewrite round32_one.
    rewrite (round32_comp (f q - 0) (f q)) by lra. rewrite Hidem.
    rewrite div32_Fin by lra.
    rewrite (round32_comp (f q / 1) (f q)) by (field). exact Hidem.
Qed.

Lemma normalize_depth_idempotent_witness :
  exists normalized,
    normalize_depth [[Fin 2; Fin 6]; [Fin 4; Fin 3]] = Ok normalized
    /\ unit_map normalized
    /\ normalize_depth normalized = Ok normalized.
Proof.
  apply (normalize_depth_idempotent [[Fin 2; Fin 6]; [Fin 4; Fin 3]] 4).
  - repeat constructor.
  - vm_compute. reflexivity.
  - reflexivity.
Defined.

(** C6, the claim as written fails.  A finite map that is not flat, with
    entries [2^127] and [-2^127]: the range [max - min] is [2^128], which
    overflows float32 to infinity, so the entries below the maximum
    become 0 and the maximum itself becomes infinity over infinity, NaN;
    normalising the result again gives NaN everywhere. *)
Lemma normalize_depth_overflows :
  let depth_map := [[Fin (inject_Z (2 ^ 127)); Fin (inject_Z (- 2 ^ 127))];
                    [Fin 0; Fin (inject_Z (2 ^ 126))]] in
  finite_map depth_map
  /\ varied depth_map
  /\ normalize_depth depth_map = Ok [[NaN; Fin 0]; [Fin 0; Fin 0]]
  /\ normalize_depth [[NaN; Fin 0]; [Fin 0; Fin 0]]
     = Ok [[NaN; NaN]; [NaN; NaN]].
Proof.
  split; [repeat constructor|]. split.
  - exists (Fin 0), (Fin (inject_Z (2 ^ 126))). simpl.
    split; [tauto|]. split; [tauto|]. reflexivity.
  - split; vm_compute; reflexivity.
Qed.

(** ** Parameter validation at the endpoint *)

Lemma feqb_zero (x : float) :
  feqb x (Fin 0) = true -> exists q, x = Fin q /\ (q == 0)%Q.
Proof.
  destruct x as [|[]|q]; try discriminate.
  unfold feqb. simpl. intros H. apply andb_true_iff in H. destruct H as [H1 H2].
  apply Qle_bool_iff in H1, H2. exists q. split; [reflexivity|lra].
Qed.

Section Endpoint.

Variable getGaussianKernel : Z -> Q -> list Q.
Variable models_loaded : bool.
Variable depth_model : image -> Result (grid float).
Variable Image_open : list Byte.byte -> Result image.
Variable resize_image : image -> Z * Z -> Result image.
Variable resize_map : grid float -> Z * Z -> Result (grid float).
Variable encode_rgb : image -> string.
Variable encode_gray : grid Z -> string.

Lemma process_body_zero_focus_strength (image_bytes : list Byte.byte)
    (focus_strength : float) (blur_radius : Z) :
  feqb focus_strength (Fin 0) = true ->
  exists e,
    process_body getGaussianKernel models_loaded depth_model Image_open
      resize_image resize_map encode_rgb encode_gray
      image_bytes focus_strength blur_radius = Raise e.
Proof.
  intros Hz. unfold process_body.
  destruct (Image_open image_bytes) as [image_np|e]; simpl; [|eauto].
  destruct (shape image_np) as [original_height original_width].
  match goal with
  | |- context [bind ?c _] => destruct c as [processed|e]; simpl; [|eauto]
  end.
  destruct (_estimate_depth models_loaded depth_model processed)
    as [dm|e]; simpl; [|eauto].
  destruct (squeezed processed); simpl; [eauto|].
  destruct (_find_subject_focus_plane dm) as [fp|e]; simpl; [|eauto].
  unfold py_truediv. rewrite Hz. simpl. eauto.
Qed.

(** C7, as the code has it.  With a [focus_strength] of exactly 0 the
    endpoint answers 400 with the [focus_strength] range message before
    any processing (for an upload whose content type starts with
    [image/]); Python's division [0.1 / focus_strength] raises
    [ZeroDivisionError] instead of producing an infinity; and
    [process_auto_focus] called directly has no parameter check of its
    own: it ends in the generic 500 of its [except] clause (503 when the
    model is not loaded), never in a 400. *)
Theorem zero_focus_strength_is_rejected (file : UploadFile)
    (image_bytes : list Byte.byte) (focus_strength : float) (blur_radius : Z) :
  feqb focus_strength (Fin 0) = true ->
  (String.prefix "image/" (content_type file) = true ->
   auto_focus_blur getGaussianKernel models_loaded depth_model Image_open
     resize_image resize_map encode_rgb encode_gray
     file focus_strength blur_radius
   = Raise (HTTPException 400 "focus_strength must be between 0.1 and 3.0"))
  /\ (exists msg,
        py_truediv (float64 (Fin (1 # 10))) focus_strength
        = Raise (ZeroDivisionError msg))
  /\ (exists detail,
        process_auto_focus getGaussianKernel models_loaded depth_model
          Image_open resize_image resize_map encode_rgb encode_gray
          image_bytes focus_strength blur_radius
        = Raise (HTTPException (if models_loaded then 500 else 503) detail)).
Proof.
  intros Hz.
  destruct (feqb_zero _ Hz) as (q & -> & Hq).
  assert (Qle_bool (1 # 10) q = false) as Hlow
    by (apply Qle_bool_false; lra).
  repeat split.
  - intros Himg. unfold auto_focus_blur. rewrite Himg. simpl.
    rewrite Hlow. reflexivity.
  - unfold py_truediv. rewrite Hz. eauto.
  - unfold process_auto_focus.
    destruct models_loaded eqn:Hl; simpl; [|eauto].
    pose proof (process_body_zero_focus_strength image_bytes (Fin q)
                  blur_radius Hz) as [e He].
    rewrite Hl in He. rewrite He. eauto.
Qed.

End Endpoint.

(** ** Arrays: entries and shapes *)

Lemma lookup_map {A B : Type} (f : A -> B) (l : list A) (i : nat) :
  map f l !! i = f <$> l !! i.
Proof. exact (list_lookup_fmap f l i). Qed.

Lemma lookup2_map2d {A B : Type} (f : A -> B) (g : grid A) (y x : nat) :
  lookup2 (map2d f g) y x = f <$> lookup2 g y x.
Proof.
  unfold lookup2, map2d. rewrite lookup_map.
  destruct (g !! y) as [row|]; simpl; [apply lookup_map|reflexivity].
Qed.

Lemma lookup2_zip2d {A B C : Type} (f : A -> B -> C) (g : grid A) (h : grid B)
    (y x : nat) :
  lookup2 (zip2d f g h) y x
  = match lookup2 g y x, lookup2 h y x with
    | Some a, Some b => Some (f a b)
    | _, _ => None
    end.
Proof.
  unfold lookup2, zip2d. rewrite lookup_zip_with.
  destruct (g !! y) as [r|]; simpl; [|reflexivity].
  destruct (h !! y) as [r'|]; simpl.
  - rewrite lookup_zip_with.
    destruct (r !! x); simpl; [|reflexivity].
    destruct (r' !! x); reflexivity.
  - destruct (r !! x); reflexivity.
Qed.

Lemma grid_ext {A : Type} (g h : grid A) :
  length g = length h ->
  (forall y x, lookup2 g y x = lookup2 h y x) ->
  g = h.
Proof.
  intros Hlen Hl. apply list_eq. intros y.
  destruct (g !! y) as [r|] eqn:Eg, (h !! y) as [r'|] eqn:Eh.
  - f_equal. apply list_eq. intros x.
    specialize (Hl y x). unfold lookup2 in Hl. rewrite Eg, Eh in Hl. exact Hl.
  - apply lookup_lt_Some in Eg. apply lookup_ge_None in Eh. lia.
  - apply lookup_ge_None in Eg. apply lookup_lt_Some in Eh. lia.
  - reflexivity.
Qed.

Lemma same_shape_true {A B : Type} (g : grid A) (h : grid B) :
  same_shape g h = true <-> map length g = map length h.
Proof. unfold same_shape. apply bool_decide_eq_true. Qed.

Lemma map_length_eq_length {A B : Type} (g : grid A) (h : grid B) :
  map length g = map length h -> length g = length h.
Proof. intros H. apply (f_equal length) in H. rewrite !length_map in H. exact H. Qed.

Lemma lookup2_same_shape {A B : Type} (g : grid A) (h : grid B) (y x : nat) :
  map length g = map length h ->
  is_Some (lookup2 g y x) <-> is_Some (lookup2 h y x).
Proof.
  intros H. unfold lookup2.
  assert (length <$> g !! y = length <$> h !! y) as Hy.
  { rewrite <- !lookup_map. rewrite H. reflexivity. }
  destruct (g !! y) as [r|], (h !! y) as [r'|]; simpl in Hy; try discriminate.
  - injection Hy as Hy. rewrite !lookup_lt_is_Some. lia.
  - split; intros [? ?]; discriminate.
Qed.

Lemma map_length_map2d {A B : Type} (f : A -> B) (g : grid A) :
  map length (map2d f g) = map length g.
Proof.
  unfold map2d. rewrite map_map. apply map_ext. intros r. apply length_map.
Qed.

Lemma map_length_zip2d {A B C : Type} (f : A -> B -> C) (g : grid A)
    (h : grid B) :
  map length g = map length h ->
  map length (zip2d f g h) = map length g.
Proof.
  unfold zip2d. revert h. induction g as [|r g IH]; intros [|r' h] H;
    try discriminate; simpl in *.
  - reflexivity.
  - injection H as Hr Hg. f_equal; [|auto].
    rewrite length_zip_with. lia.
Qed.

Lemma map_length_imap {A B : Type} (f : nat -> list A -> list B) (g : grid A) :
  (forall i r, length (f i r) = length r) ->
  map length (imap f g) = map length g.
Proof.
  revert f. induction g as [|r g IH]; intros f Hf; simpl.
  - reflexivity.
  - f_equal; [apply Hf|]. apply IH. intros i r'. apply Hf.
Qed.

Lemma length_filter_row (k : list Q) (row : list float) :
  length (filter_row k row) = length row.
Proof. unfold filter_row. apply length_imap. Qed.

Lemma map_length_sepFilter2D (kx ky : list Q) (src : grid float) :
  map length (sepFilter2D kx ky src) = map length src.
Proof.
  unfold sepFilter2D. rewrite map_length_imap.
  - rewrite map_map. apply map_ext. intros r. apply length_filter_row.
  - intros i r. apply length_imap.
Qed.

Lemma Forall2d_lookup2 {A : Type} (P : A -> Prop) (g : grid A) (y x : nat)
    (a : A) :
  Forall (Forall P) g -> lookup2 g y x = Some a -> P a.
Proof.
  intros H Hl. unfold lookup2 in Hl.
  destruct (g !! y) as [r|] eqn:E; [|discriminate].
  eapply Forall_lookup_1; [|exact Hl].
  eapply Forall_lookup_1; [exact H|exact E].
Qed.

Lemma Forall2d_of_lookup2 {A : Type} (P : A -> Prop) (g : grid A) :
  (forall y x a, lookup2 g y x = Some a -> P a) -> Forall (Forall P) g.
Proof.
  intros H. apply Forall_lookup_2. intros y r Hr.
  apply Forall_lookup_2. intros x a Ha.
  apply (H y x). unfold lookup2. rewrite Hr. exact Ha.
Qed.

(** ** Conversions between 8-bit channels and floats *)

Lemma Qtruncate_inject_Z (q : Q) (z : Z) : (q == inject_Z z)%Q -> Qtruncate q = z.
Proof.
  unfold Qeq, Qtruncate. simpl. intros H.
  rewrite Z.mul_1_r in H. rewrite H. apply Z.quot_mul. discriminate.
Qed.

Lemma astype_uint8_exact (q : Q) (c : Z) :
  (q == inject_Z c)%Q -> uint8 c -> astype_uint8 (Fin q) = c.
Proof.
  intros Hq Hc. simpl. rewrite (Qtruncate_inject_Z q c Hq).
  apply Z.mod_small. exact Hc.
Qed.

Lemma saturate_cast_uchar_uint8 (x : float) : uint8 (saturate_cast_uchar x).
Proof.
  unfold uint8. destruct x as [|[]|q]; simpl; lia.
Qed.

(** With a zero mask value the blend is the original channel, with a
    mask value of one it is the blurred channel. *)
Lemma round32_uint8 (c : Z) : uint8 c -> round32 (inject_Z c) = Fin (inject_Z c).
Proof.
  intros Hc. apply round32_Z. unfold uint8 in Hc.
  change (2 ^ 24)%Z with 16777216%Z. lia.
Qed.

Lemma blend_zero (m a b : Q) :
  (m == 0)%Q -> round32 a = Fin a -> blend (Fin m) (Fin a) (Fin b) = Fin a.
Proof.
  intros Hm Ha. unfold blend. rewrite sub32_Fin.
  rewrite (round32_comp (1 - m) 1) by lra. rewrite round32_one.
  rewrite !mul32_Fin.
  rewrite (round32_comp (1 * a) a) by ring. rewrite Ha.
  rewrite (round32_zero (m * b)) by (rewrite Hm; ring).
  rewrite add32_Fin. rewrite (round32_comp (a + 0) a) by ring. exact Ha.
Qed.

Lemma blend_one (m a b : Q) :
  (m == 1)%Q -> round32 b = Fin b -> blend (Fin m) (Fin a) (Fin b) = Fin b.
Proof.
  intros Hm Hb. unfold blend. rewrite sub32_Fin.
  rewrite (round32_zero (1 - m)) by lra.
  rewrite !mul32_Fin.
  rewrite (round32_zero (0 * a)) by ring.
  rewrite (round32_comp (m * b) b) by (rewrite Hm; ring). rewrite Hb.
  rewrite add32_Fin. rewrite (round32_comp (0 + b) b) by ring. exact Hb.
Qed.

Lemma blend_u8_zero (m : Q) (a b : Z) :
  (m == 0)%Q -> uint8 a -> astype_uint8 (blend_u8 (Fin m) a b) = a.
Proof.
  intros Hm Ha. unfold blend_u8, astype_float.
  rewrite blend_zero by (auto using round32_uint8).
  apply astype_uint8_exact; [reflexivity|exact Ha].
Qed.

Lemma blend_u8_one (m : Q) (a b : Z) :
  (m == 1)%Q -> uint8 b -> astype_uint8 (blend_u8 (Fin m) a b) = b.
Proof.
  intros Hm Hb. unfold blend_u8, astype_float.
  rewrite blend_one by (auto using round32_uint8).
  apply astype_uint8_exact; [reflexivity|exact Hb].
Qed.

(** ** The Gaussian filter returns an image of the same shape *)

Lemma nonempty_map2d {A B : Type} (f : A -> B) (g : grid A) :
  nonempty (map2d f g) = nonempty g.
Proof. destruct g as [|[|a r] g]; reflexivity. Qed.

Lemma odd_kernel_size (r : Z) :
  (0 <= r)%Z -> (0 <? r * 2 + 1)%Z && Z.odd (r * 2 + 1) = true.
Proof.
  intros Hr. apply andb_true_iff. split.
  - apply Z.ltb_lt. lia.
  - rewrite Z.add_comm, Z.mul_comm. rewrite Z.odd_add_mul_2. reflexivity.
Qed.

Lemma GaussianBlur_ok (K : Z -> Q -> list Q) (src : grid float) (k : Z)
    (sigma : Q) :
  nonempty src = true ->
  (0 <? k)%Z && Z.odd k = true ->
  GaussianBlur K src (k, k) sigma
  = Ok (sepFilter2D (K k sigma) (K k sigma) src).
Proof.
  intros Hne Hk. unfold GaussianBlur. rewrite Hne. simpl.
  apply andb_true_iff in Hk. destruct Hk as [-> ->]. reflexivity.
Qed.

Lemma GaussianBlur_u8_ok (K : Z -> Q -> list Q) (src : image) (k : Z)
    (sigma : Q) :
  nonempty src = true ->
  (0 <? k)%Z && Z.odd k = true ->
  exists blurred,
    GaussianBlur_u8 K src (k, k) sigma = Ok blurred
    /\ map length blurred = map length src
    /\ valid_image blurred.
Proof.
  intros Hne Hk. unfold GaussianBlur_u8.
  rewrite !GaussianBlur_ok by (unfold plane; rewrite ?nonempty_map2d; assumption).
  simpl. eexists. split; [reflexivity|]. split.
  - unfold merge_planes. rewrite map_length_zip2d.
    + rewrite map_length_sepFilter2D. apply map_length_map2d.
    + rewrite map_length_zip2d; rewrite !map_length_sepFilter2D;
        unfold plane; rewrite !map_length_map2d; reflexivity.
  - apply Forall2d_of_lookup2. intros y x p Hp.
    unfold merge_planes in Hp. rewrite lookup2_zip2d in Hp.
    destruct (lookup2 _ y x); [|discriminate].
    destruct (lookup2 _ y x); [|discriminate].
    injection Hp as <-. repeat split; apply saturate_cast_uchar_uint8.
Qed.

(** ** DepthBlurCompositor, vectorised *)

Lemma optimized_returns (K : Z -> Q -> list Q) (image_np : image)
    (blur_mask : grid float) (r : Z) :
  nonempty image_np = true ->
  (0 <= r)%Z ->
  same_shape blur_mask image_np = true ->
  exists blurred,
    GaussianBlur_u8 K image_np (r * 2 + 1, r * 2 + 1)%Z (inject_Z r / 3)
    = Ok blurred
    /\ map length blurred = map length image_np
    /\ valid_image blurred
    /\ _apply_depth_blur_optimized K image_np blur_mask r
       = Ok (composite blur_mask image_np blurred).
Proof.
  intros Hne Hr Hs.
  destruct (GaussianBlur_u8_ok K image_np (r * 2 + 1) (inject_Z r / 3) Hne
              (odd_kernel_size r Hr)) as (blurred & Hb & Hshape & Hvalid).
  exists blurred. repeat split; auto.
  unfold _apply_depth_blur_optimized. rewrite Hb. simpl.
  rewrite Hs. simpl.
  assert (same_shape blur_mask blurred = true) as ->; [|reflexivity].
  apply same_shape_true. apply same_shape_true in Hs. congruence.
Qed.

Lemma lookup2_composite (blur_mask : grid float) (image_np blurred : image)
    (y x : nat) :
  lookup2 (composite blur_mask image_np blurred) y x
  = match lookup2 blur_mask y x, lookup2 image_np y x, lookup2 blurred y x with
    | Some m, Some p, Some q => Some (pmap astype_uint8 (pzip (blend_u8 m) p q))
    | _, _, _ => None
    end.
Proof.
  unfold composite. rewrite lookup2_map2d, !lookup2_zip2d.
  destruct (lookup2 blur_mask y x), (lookup2 image_np y x),
    (lookup2 blurred y x); reflexivity.
Qed.

Lemma length_composite (blur_mask : grid float) (image_np blurred : image) :
  map length blur_mask = map length image_np ->
  map length blurred = map length image_np ->
  length (composite blur_mask image_np blurred) = length image_np.
Proof.
  intros Hm Hb. unfold composite, map2d, zip2d.
  rewrite length_map, !length_zip_with.
  apply map_length_eq_length in Hm, Hb. lia.
Qed.

Lemma composite_pixel_zero (m : Q) (p q : pixel) :
  (m == 0)%Q -> valid_pixel p ->
  pmap astype_uint8 (pzip (blend_u8 (Fin m)) p q) = p.
Proof.
  destruct p as [[pr pg] pb], q as [[qr qg] qb].
  intros Hm (Hr & Hg & Hb). unfold pmap, pzip.
  unfold red, green, blue in *. cbn [fst snd] in *.
  rewrite !blend_u8_zero by assumption. reflexivity.
Qed.

Lemma composite_pixel_one (m : Q) (p q : pixel) :
  (m == 1)%Q -> valid_pixel q ->
  pmap astype_uint8 (pzip (blend_u8 (Fin m)) p q) = q.
Proof.
  destruct p as [[pr pg] pb], q as [[qr qg] qb].
  intros Hm (Hr & Hg & Hb). unfold pmap, pzip.
  unfold red, green, blue in *. cbn [fst snd] in *.
  rewrite !blend_u8_one by assumption. reflexivity.
Qed.

(** C3. With a mask that is zero everywhere the vectorised compositor
    returns the original image, and with a mask that is one everywhere it
    returns the heavily blurred rendition, whatever the image and the
    radius. *)
Theorem optimized_compositor_extremes (K : Z -> Q -> list Q) (image_np : image)
    (zeros ones : grid float) (max_blur_radius : Z) :
  valid_image image_np ->
  nonempty image_np = true ->
  (0 <= max_blur_radius)%Z ->
  same_shape zeros image_np = true -> constant_map 0 zeros ->
  same_shape ones image_np = true -> constant_map 1 ones ->
  exists blurred_image,
    GaussianBlur_u8 K image_np
      (max_blur_radius * 2 + 1, max_blur_radius * 2 + 1)%Z
      (inject_Z max_blur_radius / 3) = Ok blurred_image
    /\ _apply_depth_blur_optimized K image_np zeros max_blur_radius
       = Ok image_np
    /\ _apply_depth_blur_optimized K image_np ones max_blur_radius
       = Ok blurred_image.
Proof.
  intros Hvalid Hne Hr Hs0 Hc0 Hs1 Hc1.
  destruct (optimized_returns K image_np zeros max_blur_radius Hne Hr Hs0)
    as (blurred & Hb & Hshape & Hbvalid & H0).
  destruct (optimized_returns K image_np ones max_blur_radius Hne Hr Hs1)
    as (blurred' & Hb' & _ & _ & H1).
  rewrite Hb in Hb'. injection Hb' as <-.
  apply same_shape_true in Hs0, Hs1.
  exists blurred. split; [exact Hb|]. split.
  - rewrite H0. f_equal. apply grid_ext.
    + apply length_composite; assumption.
    + intros y x. rewrite lookup2_composite.
      destruct (lookup2 image_np y x) as [p|] eqn:Ep.
      * assert (is_Some (lookup2 zeros y x)) as [m Em]
          by (apply (lookup2_same_shape _ _ y x Hs0); eauto).
        assert (is_Some (lookup2 blurred y x)) as [q Eq]
          by (apply (lookup2_same_shape _ _ y x Hshape); eauto).
        rewrite Em, Eq. f_equal.
        destruct (Forall2d_lookup2 _ _ _ _ _ Hc0 Em) as (z & -> & Hz).
        apply composite_pixel_zero; [exact Hz|].
        exact (Forall2d_lookup2 _ _ _ _ _ Hvalid Ep).
      * destruct (lookup2 zeros y x) as [m|] eqn:Em; [|reflexivity].
        assert (is_Some (lookup2 image_np y x)) as [p Ep']
          by (apply (lookup2_same_shape _ _ y x Hs0); eauto).
        congruence.
  - rewrite H1. f_equal. apply grid_ext.
    + rewrite length_composite by assumption.
      symmetry. apply map_length_eq_length. exact Hshape.
    + intros y x. rewrite lookup2_composite.
      destruct (lookup2 blurred y x) as [q|] eqn:Eq.
      * assert (is_Some (lookup2 image_np y x)) as [p Ep]
          by (apply (lookup2_same_shape _ _ y x Hshape); eauto).
        assert (is_Some (lookup2 ones y x)) as [m Em]
          by (apply (lookup2_same_shape _ _ y x Hs1); eauto).
        rewrite Em, Ep. f_equal.
        destruct (Forall2d_lookup2 _ _ _ _ _ Hc1 Em) as (z & -> & Hz).
        apply composite_pixel_one; [exact Hz|].
        exact (Forall2d_lookup2 _ _ _ _ _ Hbvalid Eq).
      * destruct (lookup2 ones y x), (lookup2 image_np y x); reflexivity.
Qed.

Ltac forall_list :=
  repeat match goal with |- Forall _ _ => constructor end.

Ltac valid_image_tac :=
  unfold valid_image, black_white; forall_list;
  unfold valid_pixel, uint8, red, green, blue; cbn [fst snd]; lia.

Lemma optimized_compositor_extremes_witness :
  exists blurred_image,
    GaussianBlur_u8 reference_kernel black_white (3 * 2 + 1, 3 * 2 + 1)%Z
      (inject_Z 3 / 3) = Ok blurred_image
    /\ _apply_depth_blur_optimized reference_kernel black_white
         [[Fin 0; Fin 0]] 3 = Ok black_white
    /\ _apply_depth_blur_optimized reference_kernel black_white
         [[Fin 1; Fin 1]] 3 = Ok blurred_image.
Proof.
  apply (optimized_compositor_extremes reference_kernel black_white
           [[Fin 0; Fin 0]] [[Fin 1; Fin 1]] 3).
  - valid_image_tac.
  - reflexivity.
  - lia.
  - reflexivity.
  - unfold constant_map. forall_list. all: eexists; split; reflexivity.
  - reflexivity.
  - unfold constant_map. forall_list. all: eexists; split; reflexivity.
Defined.

(** ** The blend is truncated, not rounded *)

Lemma Qtruncate_nonneg (q : Q) : (0 <= q)%Q -> Qtruncate q = Qfloor q.
Proof.
  destruct q as [n d]. unfold Qle, Qtruncate, Qfloor. simpl.
  intros H. apply Z.quot_div_nonneg; lia.
Qed.

(** The float32 blend of two channels with a weight between 0 and 1 is
    at most 255.5: each of the four roundings adds at most half a unit
    in its last place. *)
Lemma blend_u8_range (m : Q) (a b : Z) :
  (0 <= m <= 1)%Q -> uint8 a -> uint8 b ->
  exists q, blend_u8 (Fin m) a b = Fin q /\ (0 <= q <= 511 # 2)%Q.
Proof.
  intros [Hm0 Hm1] Ha Hb. unfold blend_u8, blend, astype_float.
  assert (0 <= inject_Z a <= 255)%Q as [Ha0 Ha1].
  { unfold uint8 in Ha. split.
    - change 0%Q with (inject_Z 0). rewrite <- Zle_Qle. lia.
    - change 255%Q with (inject_Z 255). rewrite <- Zle_Qle. lia. }
  assert (0 <= inject_Z b <= 255)%Q as [Hb0 Hb1].
  { unfold uint8 in Hb. split.
    - change 0%Q with (inject_Z 0). rewrite <- Zle_Qle. lia.
    - change 255%Q with (inject_Z 255). rewrite <- Zle_Qle. lia. }
  set (A := inject_Z a) in *. set (B := inject_Z b) in *.
  assert (round32 255 = Fin 255) as R255 by (vm_compute; reflexivity).
  assert (pow2 1 == 2)%Q as P1 by reflexivity.
  assert (pow2 8 == 256)%Q as P8 by reflexivity.
  assert (pow2 (1 - 25) == 1 # 16777216)%Q as E24 by reflexivity.
  assert (pow2 (8 - 25) == 1 # 131072)%Q as E17 by reflexivity.
  rewrite sub32_Fin.
  destruct (round32_bounds 0 1 0 1 (1 - m)) as (s & Hs & Hs0 & Hs1);
    [lra|reflexivity|exact round32_one|].
  pose proof (round32_error (1 - m) s 1) as Es.
  rewrite P1, E24 in Es. specialize (Es ltac:(lra) ltac:(lra) ltac:(lia) Hs).
  apply Qabs_Qle_condition in Es. destruct Es as [_ Es].
  rewrite Hs, !mul32_Fin.
  assert (0 <= s * A <= 255)%Q as [Hx0 Hx1] by nra.
  assert (0 <= m * B <= 255)%Q as [Hy0 Hy1] by nra.
  destruct (round32_bounds 0 255 0 255 (s * A)) as (x & Hx & Hx0' & Hx1');
    [lra|reflexivity|exact R255|].
  destruct (round32_bounds 0 255 0 255 (m * B)) as (y & Hy & Hy0' & Hy1');
    [lra|reflexivity|exact R255|].
  pose proof (round32_error (s * A) x 8) as Ex.
  rewrite P8, E17 in Ex. specialize (Ex ltac:(lra) ltac:(lra) ltac:(lia) Hx).
  apply Qabs_Qle_condition in Ex. destruct Ex as [_ Ex].
  pose proof (round32_error (m * B) y 8) as Ey.
  rewrite P8, E17 in Ey. specialize (Ey ltac:(lra) ltac:(lra) ltac:(lia) Hy).
  apply Qabs_Qle_condition in Ey. destruct Ey as [_ Ey].
  rewrite Hx, Hy, add32_Fin.
  assert (s * A <= 255 * s)%Q as Hsa by nra.
  assert (m * B <= 255 * m)%Q as Hmb by nra.
  apply (round32_bounds 0 (511 # 2) 0 (511 # 2) (x + y));
    [lra|reflexivity|vm_compute; reflexivity].
Qed.

Lemma blend_u8_truncated (m : Q) (a b : Z) :
  (0 <= m <= 1)%Q -> uint8 a -> uint8 b ->
  channel_truncated (Fin m) a b (astype_uint8 (blend_u8 (Fin m) a b)).
Proof.
  intros Hm Ha Hb. unfold channel_truncated.
  destruct (blend_u8_range m a b Hm Ha Hb) as (q & Hq & Hq0 & Hq1).
  exists q. split; [exact Hq|]. split; [lra|].
  rewrite Hq. unfold astype_uint8. rewrite Qtruncate_nonneg by exact Hq0.
  apply Z.mod_small. split.
  - rewrite <- (Qfloor_Z 0). apply Qfloor_resp_le. exact Hq0.
  - assert (Qfloor q <= 255)%Z; [|lia].
    replace 255%Z with (Qfloor (511 # 2)) by reflexivity.
    apply Qfloor_resp_le. exact Hq1.
Qed.

(** C9, as the code has it.  For a mask with values in [0, 1] the
    vectorised compositor returns an image of the input's shape in which
    every channel is the float32 blend
    [(1 - mask) * original + mask * blurred] with its fraction dropped
    (not rounded to nearest); the blend is at least 0 and below 256, so
    the result is in 0..255 without any clamp. *)
Theorem optimized_compositor_truncates (K : Z -> Q -> list Q)
    (image_np : image) (blur_mask : grid float) (max_blur_radius : Z) :
  valid_image image_np ->
  nonempty image_np = true ->
  (0 <= max_blur_radius)%Z ->
  same_shape blur_mask image_np = true ->
  unit_map blur_mask ->
  exists blurred_image out,
    GaussianBlur_u8 K image_np
      (max_blur_radius * 2 + 1, max_blur_radius * 2 + 1)%Z
      (inject_Z max_blur_radius / 3) = Ok blurred_image
    /\ _apply_depth_blur_optimized K image_np blur_mask max_blur_radius = Ok out
    /\ same_shape out image_np = true
    /\ forall y x m p q,
         lookup2 blur_mask y x = Some m ->
         lookup2 image_np y x = Some p ->
         lookup2 blurred_image y x = Some q ->
         exists o,
           lookup2 out y x = Some o
           /\ channel_truncated m (red p) (red q) (red o)
           /\ channel_truncated m (green p) (green q) (green o)
           /\ channel_truncated m (blue p) (blue q) (blue o).
Proof.
  intros Hvalid Hne Hr Hs Hunit.
  destruct (optimized_returns K image_np blur_mask max_blur_radius Hne Hr Hs)
    as (blurred & Hb & Hshape & Hbvalid & Hout).
  exists blurred, (composite blur_mask image_np blurred).
  split; [exact Hb|]. split; [exact Hout|]. split.
  - apply same_shape_true. apply same_shape_true in Hs.
    unfold composite. rewrite map_length_map2d, map_length_zip2d; [exact Hs|].
    rewrite map_length_zip2d; congruence.
  - intros y x m p q Em Ep Eq.
    rewrite lookup2_composite, Em, Ep, Eq. eexists. split; [reflexivity|].
    destruct (Forall2d_lookup2 _ _ _ _ _ Hunit Em) as (m' & -> & Hm).
    destruct (Forall2d_lookup2 _ _ _ _ _ Hvalid Ep) as (Hpr & Hpg & Hpb).
    destruct (Forall2d_lookup2 _ _ _ _ _ Hbvalid Eq) as (Hqr & Hqg & Hqb).
    destruct p as [[pr pg] pb], q as [[qr qg] qb].
    unfold pmap, pzip, red, green, blue in *. cbn [fst snd] in *.
    repeat split; apply blend_u8_truncated; assumption.
Qed.

Lemma optimized_compositor_truncates_witness :
  exists blurred_image out,
    GaussianBlur_u8 reference_kernel black_white (3 * 2 + 1, 3 * 2 + 1)%Z
      (inject_Z 3 / 3) = Ok blurred_image
    /\ _apply_depth_blur_optimized reference_kernel black_white
         [[Fin 0; Fin (1 # 256)]] 3 = Ok out
    /\ same_shape out black_white = true
    /\ forall y x m p q,
         lookup2 [[Fin 0; Fin (1 # 256)]] y x = Some m ->
         lookup2 black_white y x = Some p ->
         lookup2 blurred_image y x = Some q ->
         exists o,
           lookup2 out y x = Some o
           /\ channel_truncated m (red p) (red q) (red o)
           /\ channel_truncated m (green p) (green q) (green o)
           /\ channel_truncated m (blue p) (blue q) (blue o).
Proof.
  apply (optimized_compositor_truncates reference_kernel black_white
           [[Fin 0; Fin (1 # 256)]] 3).
  - valid_image_tac.
  - reflexivity.
  - lia.
  - reflexivity.
  - unfold unit_map. forall_list.
    + exists 0%Q. split; [reflexivity|lra].
    + exists (1 # 256)%Q. split; [reflexivity|lra].
Defined.

(** C9, as stated, fails.  A single white pixel, which any blur leaves
    white, and the float32 mask value nearest to 0.008: the float32
    blend of 255 with 255 is 254.9999847..., which rounding would take
    to 255, and the compositor returns 254. *)
Lemma optimized_compositor_not_rounded :
  let white := [[(255, 255, 255)]]%Z in
  let mask := float32 (Fin (8 # 1000)) in
  GaussianBlur_u8 reference_kernel white (7, 7)%Z (inject_Z 3 / 3) = Ok white
  /\ blend_u8 mask 255 255 = Fin (16711679 # 65536)
  /\ saturate_cast_uchar (blend_u8 mask 255 255) = 255%Z
  /\ _apply_depth_blur_optimized reference_kernel white [[mask]] 3
     = Ok [[(254, 254, 254)]]%Z.
Proof. repeat split; vm_compute; reflexivity. Qed.

Lemma zero_focus_strength_is_rejected_witness :
  (String.prefix "image/" (content_type sample_upload) = true ->
   auto_focus_blur reference_kernel true sample_depth_model
     sample_Image_open sample_resize sample_resize sample_encode
     sample_encode sample_upload (Fin 0) 15
   = Raise (HTTPException 400 "focus_strength must be between 0.1 and 3.0"))
  /\ (exists msg,
        py_truediv (float64 (Fin (1 # 10))) (Fin 0)
        = Raise (ZeroDivisionError msg))
  /\ (exists detail,
        process_auto_focus reference_kernel true sample_depth_model
          sample_Image_open sample_resize sample_resize sample_encode
          sample_encode [] (Fin 0) 15
        = Raise (HTTPException 500 detail)).
Proof.
  apply (zero_focus_strength_is_rejected reference_kernel true
           sample_depth_model sample_Image_open sample_resize sample_resize
           sample_encode sample_encode sample_upload [] (Fin 0) 15).
  reflexivity.
Defined.

(** C7, the claim as written fails for the core.  [process_auto_focus]
    on the image [four_reds] with a [focus_strength] of 0 decodes the
    image, estimates the depth and the focus plane, and only then
    divides: the [ZeroDivisionError] comes back as the 500 that every
    processing failure gets, not as a rejection of the parameter. *)
Lemma zero_focus_strength_reaches_the_division :
  exists detail,
    process_auto_focus reference_kernel true sample_depth_model
      open_four_reds sample_resize sample_resize sample_encode
      sample_encode [] (Fin 0) 15
    = Raise (HTTPException 500 detail)
    /\ String.prefix "Processing failed: " detail = true
    /\ exists focus_plane,
         (depth_map <- _estimate_depth true sample_depth_model four_reds ;;
          _find_subject_focus_plane depth_map) = Ok focus_plane.
Proof.
  eexists. split; [vm_compute; reflexivity|].
  split; [reflexivity|]. eexists. vm_compute. reflexivity.
Qed.

(** ** BlurMaskBuilder *)

Lemma In_concat_lookup2 {A : Type} (g : grid A) (a : A) :
  In a (concat g) -> exists y x, lookup2 g y x = Some a.
Proof.
  intros H. apply in_concat in H. destruct H as (r & Hr & Ha).
  apply list_elem_of_In, list_elem_of_lookup_1 in Hr, Ha.
  destruct Hr as [y Hy], Ha as [x Hx].
  exists y, x. unfold lookup2. rewrite Hy. exact Hx.
Qed.

Lemma lookup2_In_concat {A : Type} (g : grid A) (y x : nat) (a : A) :
  lookup2 g y x = Some a -> In a (concat g).
Proof.
  unfold lookup2. intros H.
  destruct (g !! y) as [r|] eqn:Er; [|discriminate].
  apply in_concat. exists r. split.
  - apply list_elem_of_In. eapply list_elem_of_lookup_2. exact Er.
  - apply list_elem_of_In. eapply list_elem_of_lookup_2. exact H.
Qed.

Lemma zip_with_map_map {A B C D : Type} (f : B -> C -> D) (a : A -> B)
    (b : A -> C) (l : list A) :
  zip_with f (map a l) (map b l) = map (fun x => f (a x) (b x)) l.
Proof. induction l as [|x l IH]; simpl; [reflexivity|]. rewrite IH. reflexivity. Qed.

Lemma zip2d_map2d {A B C D : Type} (f : B -> C -> D) (a : A -> B)
    (b : A -> C) (g : grid A) :
  zip2d f (map2d a g) (map2d b g) = map2d (fun x => f (a x) (b x)) g.
Proof.
  unfold zip2d, map2d. rewrite zip_with_map_map.
  apply map_ext. intros r. apply zip_with_map_map.
Qed.

Lemma nonempty_concat {A : Type} (g : grid A) :
  nonempty g = true -> concat g <> [].
Proof. destruct g as [|[|a r] g]; simpl; intros H; discriminate. Qed.

Lemma maximum_idem (d : float) : maximum d d = d.
Proof.
  destruct d as [|[]|q]; try reflexivity.
  simpl. destruct (Qle_bool q q); reflexivity.
Qed.

Lemma np_max_const {A : Type} (d : float) (l : list A) :
  l <> [] -> np_max (map (fun _ => d) l) = Ok d.
Proof.
  destruct l as [|a l]; [congruence|]. intros _. simpl. f_equal.
  induction l as [|b l IH]; simpl; [reflexivity|].
  rewrite maximum_idem. exact IH.
Qed.

Lemma fsub_Fin_Qeq (q v : Q) (y : float) :
  (q == v)%Q -> fsub (Fin q) y = fsub (Fin v) y.
Proof.
  intros H. destruct y as [|s|b]; simpl; try reflexivity.
  f_equal. apply Qred_complete. rewrite H. reflexivity.
Qed.

Lemma distance_to_Qeq (focus_plane : float) (q v : Q) :
  (q == v)%Q ->
  distance_to focus_plane (Fin q) = distance_to focus_plane (Fin v).
Proof.
  intros H. unfold distance_to, sub32. rewrite (fsub_Fin_Qeq q v) by exact H.
  reflexivity.
Qed.

(** The builder pixel by pixel, once the largest distance is known. *)
Lemma blur_intensity_map_pointwise (depth_map : grid float)
    (focus_plane focus_range max_distance : float) :
  np_max (map (distance_to focus_plane) (concat depth_map)) = Ok max_distance ->
  blur_intensity_map depth_map focus_plane focus_range
  = Ok (map2d (fun d =>
                 if fleb (distance_to focus_plane d) (float32 focus_range)
                 then Fin 0
                 else if fltb (Fin 0) max_distance
                      then div32 (distance_to focus_plane d) max_distance
                      else Fin 0)
              depth_map).
Proof.
  intros H. unfold blur_intensity_map. rewrite concat_map2d.
  unfold distance_to in H |- *. rewrite H. cbn [bind]. f_equal.
  destruct (fltb (Fin 0) max_distance).
  - rewrite map2d_map2d, zip2d_map2d. reflexivity.
  - rewrite zip2d_map2d. reflexivity.
Qed.

Lemma np_max_nonempty (l : list float) :
  l <> [] -> exists m, np_max l = Ok m.
Proof. destruct l as [|x l]; [congruence|]. intros _. eexists. reflexivity. Qed.

Lemma max_distance_exists (depth_map : grid float) (focus_plane : float) :
  nonempty depth_map = true ->
  exists m, np_max (map (distance_to focus_plane) (concat depth_map)) = Ok m.
Proof.
  intros Hne. apply np_max_nonempty. apply nonempty_concat in Hne.
  intros E. apply map_eq_nil in E. auto.
Qed.

(** On a uniform map every pixel is at the same distance from the focus
    plane, which is also the largest distance. *)
Lemma blur_intensity_map_uniform (depth_map : grid float) (v : Q)
    (focus_plane focus_range : float) :
  nonempty depth_map = true ->
  constant_map v depth_map ->
  blur_intensity_map depth_map focus_plane focus_range
  = Ok (map2d (fun _ =>
                 let d := distance_to focus_plane (Fin v) in
                 if fleb d (float32 focus_range) then Fin 0
                 else if fltb (Fin 0) d then div32 d d else Fin 0)
              depth_map).
Proof.
  intros Hne Hc.
  destruct (constant_map_Fin v depth_map Hc) as (qg & -> & Hv).
  set (d := distance_to focus_plane (Fin v)).
  assert (np_max (map (distance_to focus_plane) (concat (map2d Fin qg))) = Ok d)
    as Hmx.
  { rewrite concat_map2d, map_map.
    rewrite (map_ext_in _ (fun _ => d)).
    - apply np_max_const. apply nonempty_concat in Hne.
      rewrite concat_map2d in Hne. intros E. rewrite E in Hne. auto.
    - intros q Hq. apply distance_to_Qeq, Hv, Hq. }
  rewrite (blur_intensity_map_pointwise _ _ focus_range _ Hmx). f_equal.
  rewrite !map2d_map2d. apply map2d_ext_in. intros q Hq. cbv zeta.
  rewrite (distance_to_Qeq focus_plane q v) by auto. reflexivity.
Qed.

(** The filter maps a zero array to a zero array. *)
Lemma weighted_sum_zero (k : list Q) (j : Z) (sample : Z -> float) :
  (forall p, sample p = Fin 0) -> weighted_sum k j sample (Fin 0) = Fin 0.
Proof.
  intros Hs. revert j. induction k as [|kj k IH]; intros j; simpl.
  - reflexivity.
  - rewrite Hs. simpl.
    assert (Qred (0 + Qred (kj * 0)) = 0%Q) as ->; [|apply IH].
    apply Qred_0. rewrite Qred_correct. ring.
Qed.

Lemma at1_zero_row (row : list float) (x : Z) : zero_row row -> at1 row x = Fin 0.
Proof.
  intros H. unfold at1.
  destruct (nth_in_or_default (Z.to_nat x) row (Fin 0)) as [Hin| ->];
    [|reflexivity].
  revert Hin. generalize (nth (Z.to_nat x) row (Fin 0)). intros a Ha.
  apply (proj1 (List.Forall_forall _ _) H a Ha).
Qed.

Lemma imap_const_id {A : Type} (f : nat -> A -> A) (l : list A) :
  (forall i a, l !! i = Some a -> f i a = a) -> imap f l = l.
Proof.
  intros H. apply list_eq. intros i. rewrite list_lookup_imap.
  destruct (l !! i) as [a|] eqn:E; simpl; [|reflexivity].
  f_equal. apply H. exact E.
Qed.

Lemma filter_row_zero (k : list Q) (row : list float) :
  zero_row row -> filter_row k row = row.
Proof.
  intros H. unfold filter_row. apply imap_const_id. intros i a Ha.
  rewrite weighted_sum_zero.
  - symmetry. exact (Forall_lookup_1 _ _ _ _ H Ha).
  - intros p. apply at1_zero_row. exact H.
Qed.

Lemma sepFilter2D_zero (kx ky : list Q) (g : grid float) :
  Forall zero_row g -> sepFilter2D kx ky g = g.
Proof.
  intros H. unfold sepFilter2D.
  assert (map (filter_row kx) g = g) as ->.
  { rewrite <- (map_id g) at 2. apply map_ext_in. intros r Hr.
    apply filter_row_zero. apply (proj1 (List.Forall_forall _ _) H r Hr). }
  apply imap_const_id. intros y row Hrow.
  apply imap_const_id. intros x a Ha.
  rewrite weighted_sum_zero.
  - symmetry.
    exact (Forall_lookup_1 _ _ _ _ (Forall_lookup_1 _ _ _ _ H Hrow) Ha).
  - intros p. unfold at2. apply at1_zero_row.
    destruct (nth_in_or_default (Z.to_nat (borderInterpolate p (Z.of_nat (length g))))
                g []) as [Hin| ->].
    + apply (proj1 (List.Forall_forall _ _) H _ Hin).
    + constructor.
Qed.

Lemma zero_map2d {A : Type} (g : grid A) :
  Forall zero_row (map2d (fun _ => Fin 0) g).
Proof.
  unfold map2d. apply List.Forall_forall. intros r Hr.
  apply in_map_iff in Hr. destruct Hr as (r0 & <- & _).
  apply List.Forall_forall. intros x Hx.
  apply in_map_iff in Hx. destruct Hx as (a & <- & _). reflexivity.
Qed.

Lemma zero_mask_is_smoothed_to_zero (K : Z -> Q -> list Q)
    (depth_map raw : grid float) :
  nonempty depth_map = true ->
  raw = map2d (fun _ => Fin 0) depth_map ->
  GaussianBlur K raw (21, 21)%Z 0 = Ok (map2d (fun _ => Fin 0) depth_map).
Proof.
  intros Hne ->.
  rewrite GaussianBlur_ok; [|rewrite nonempty_map2d; exact Hne|reflexivity].
  rewrite sepFilter2D_zero; [reflexivity|apply zero_map2d].
Qed.

(** The filter with positive coefficients maps an array of positive
    values to an array of positive values: the border is reflected, so
    every sample is an entry of the array. *)
Lemma borderInterpolate_range (p len : Z) :
  (0 < len)%Z -> (0 <= borderInterpolate p len < len)%Z.
Proof.
  intros Hlen. unfold borderInterpolate.
  destruct (len =? 1)%Z eqn:E1; [lia|]. apply Z.eqb_neq in E1.
  pose proof (Z.mod_pos_bound p (2 * len - 2) ltac:(lia)) as Hm.
  destruct (p mod (2 * len - 2) <? len)%Z eqn:E2.
  - apply Z.ltb_lt in E2. lia.
  - apply Z.ltb_ge in E2. lia.
Qed.

Lemma fltb_zero_Fin (q : Q) : fltb (Fin 0) (Fin q) = true <-> (0 < q)%Q.
Proof.
  unfold fltb. cbn [fleb]. rewrite andb_true_iff, negb_true_iff.
  rewrite Qle_bool_iff, Qle_bool_false. split; [tauto|]. intros H. split; lra.
Qed.

Lemma weighted_sum_positive (k : list Q) (j : Z) (sample : Z -> float) (a : Q) :
  Forall (fun w => (0 < w)%Q) k ->
  (forall p, positive_value (sample p)) ->
  exists r, weighted_sum k j sample (Fin a) = Fin r
            /\ (a <= r)%Q /\ (k <> [] -> (a < r)%Q).
Proof.
  intros Hk Hs. revert j a.
  induction Hk as [|w k Hw Hk IH]; intros j a; simpl.
  - exists a. split; [reflexivity|]. split; [lra|congruence].
  - destruct (Hs j) as (s & -> & Hpos). simpl.
    destruct (IH (j + 1)%Z (Qred (a + Qred (w * s)))) as (r & -> & Hr & _).
    exists r. split; [reflexivity|].
    rewrite !Qred_correct in Hr.
    assert (0 < w * s)%Q by (apply Qmult_lt_0_compat; assumption).
    split; [lra|]. intros _. lra.
Qed.

Lemma at1_positive (row : list float) (x : Z) :
  Forall positive_value row -> (0 <= x < Z.of_nat (length row))%Z ->
  positive_value (at1 row x).
Proof.
  intros H Hx. unfold at1.
  apply (proj1 (List.Forall_forall _ _) H). apply nth_In. lia.
Qed.

Lemma Forall_imap {A B : Type} (P : B -> Prop) (f : nat -> A -> B) (l : list A) :
  (forall i a, l !! i = Some a -> P (f i a)) -> Forall P (imap f l).
Proof.
  intros H. apply Forall_lookup_2. intros i b Hb.
  apply list_lookup_imap_Some in Hb. destruct Hb as (a & Ha & ->).
  apply (H i a Ha).
Qed.

Lemma filter_row_positive (k : list Q) (row : list float) :
  positive_kernel k -> Forall positive_value row ->
  Forall positive_value (filter_row k row).
Proof.
  intros [Hne Hk] Hrow. unfold filter_row. apply Forall_imap. intros i a Ha.
  apply lookup_lt_Some in Ha.
  destruct (weighted_sum_positive k (Z.of_nat i - anchor k)
              (fun p => at1 row (borderInterpolate p (Z.of_nat (length row))))
              0 Hk) as (r & -> & _ & Hr).
  - intros p. apply at1_positive; [exact Hrow|].
    apply borderInterpolate_range. lia.
  - exists r. split; [reflexivity|]. apply Hr, Hne.
Qed.

Lemma sepFilter2D_positive (kx ky : list Q) (src : grid float) (w : nat) :
  positive_kernel kx -> positive_kernel ky -> rect w src ->
  Forall (Forall positive_value) src ->
  Forall (Forall positive_value) (sepFilter2D kx ky src).
Proof.
  intros Hkx [Hne Hky] Hrect Hsrc. unfold sepFilter2D.
  set (tmp := map (filter_row kx) src).
  assert (Forall (fun r => length r = w /\ Forall positive_value r) tmp) as Htmp.
  { apply List.Forall_forall. intros r Hr. apply in_map_iff in Hr.
    destruct Hr as (r0 & <- & Hr0). split.
    - rewrite length_filter_row.
      apply (proj1 (List.Forall_forall _ _) Hrect _ Hr0).
    - apply filter_row_positive; [exact Hkx|].
      apply (proj1 (List.Forall_forall _ _) Hsrc _ Hr0). }
  apply Forall_imap. intros y row Hrow.
  apply Forall_imap. intros x a Ha.
  pose proof (Forall_lookup_1 _ _ _ _ Htmp Hrow) as [Hlen _].
  apply lookup_lt_Some in Hrow, Ha.
  destruct (weighted_sum_positive ky (Z.of_nat y - anchor ky)
              (fun p => at2 tmp (borderInterpolate p (Z.of_nat (length tmp)))
                          (Z.of_nat x))
              0 Hky) as (r & -> & _ & Hr).
  - intros p. unfold at2.
    pose proof (borderInterpolate_range p (Z.of_nat (length tmp)) ltac:(lia))
      as Hb.
    assert (In (nth (Z.to_nat (borderInterpolate p (Z.of_nat (length tmp))))
                    tmp []) tmp) as Hin by (apply nth_In; lia).
    apply (proj1 (List.Forall_forall _ _) Htmp) in Hin.
    destruct Hin as [Hl Hp]. apply at1_positive; [exact Hp|]. lia.
  - exists r. split; [reflexivity|]. apply Hr, Hne.
Qed.

(** C2, as the code has it.  On a uniform depth map every pixel is at one
    float32 distance from the focus plane.  The mask is zero everywhere
    when that distance is within the focus range or is not positive;
    when it is finite, positive and beyond the range, every pixel has
    intensity 1 before smoothing, and smoothing with positive
    coefficients leaves every pixel of the mask positive. *)
Theorem uniform_depth_blur_mask (K : Z -> Q -> list Q) (depth_map : grid float)
    (w : nat) (v : Q) (focus_plane focus_range : float) :
  nonempty depth_map = true ->
  rect w depth_map ->
  constant_map v depth_map ->
  (fleb (distance_to focus_plane (Fin v)) (float32 focus_range) = true
   \/ fltb (Fin 0) (distance_to focus_plane (Fin v)) = false ->
   _create_blur_mask K depth_map focus_plane focus_range
   = Ok (map2d (fun _ => Fin 0) depth_map))
  /\ (fleb (distance_to focus_plane (Fin v)) (float32 focus_range) = false ->
      fltb (Fin 0) (distance_to focus_plane (Fin v)) = true ->
      isfinite (distance_to focus_plane (Fin v)) = true ->
      blur_intensity_map depth_map focus_plane focus_range
      = Ok (map2d (fun _ => Fin 1) depth_map)
      /\ (positive_kernel (K 21%Z 0%Q) ->
          exists blur_mask,
            _create_blur_mask K depth_map focus_plane focus_range = Ok blur_mask
            /\ forall y x m,
                 lookup2 blur_mask y x = Some m -> fltb (Fin 0) m = true)).
Proof.
  intros Hne Hrect Hc.
  pose proof (blur_intensity_map_uniform depth_map v focus_plane focus_range
                Hne Hc) as Hmap.
  cbv zeta in Hmap. split.
  - intros Hin.
    unfold _create_blur_mask. rewrite Hmap. cbn [bind].
    apply zero_mask_is_smoothed_to_zero; [exact Hne|].
    destruct Hin as [-> | ->]; [reflexivity|].
    destruct (fleb _ (float32 focus_range)); reflexivity.
  - intros Hout Hpos Hfin. rewrite Hout, Hpos in Hmap.
    destruct (distance_to focus_plane (Fin v)) as [| |d]; try discriminate.
    apply fltb_zero_Fin in Hpos.
    rewrite div32_Fin in Hmap by lra.
    rewrite (round32_comp (d / d) 1) in Hmap by (field; lra).
    rewrite round32_one in Hmap.
    split; [exact Hmap|]. intros HK.
    unfold _create_blur_mask. rewrite Hmap. cbn [bind].
    rewrite GaussianBlur_ok; [|rewrite nonempty_map2d; exact Hne|reflexivity].
    eexists. split; [reflexivity|]. intros y x m Hm.
    assert (Forall (Forall positive_value)
              (sepFilter2D (K 21%Z 0%Q) (K 21%Z 0%Q)
                 (map2d (fun _ => Fin 1) depth_map))) as Hp.
    { apply (sepFilter2D_positive _ _ _ w); auto.
      - unfold rect, map2d. apply List.Forall_forall. intros r Hr.
        apply in_map_iff in Hr. destruct Hr as (r0 & <- & Hr0).
        rewrite length_map.
        apply (proj1 (List.Forall_forall _ _) Hrect _ Hr0).
      - apply Forall2d_of_lookup2. intros y' x' b Hb.
        rewrite lookup2_map2d in Hb.
        destruct (lookup2 depth_map y' x'); [|discriminate].
        injection Hb as <-. exists 1%Q. split; [reflexivity|lra]. }
    destruct (Forall2d_lookup2 _ _ _ _ _ Hp Hm) as (q & -> & Hq).
    apply fltb_zero_Fin. exact Hq.
Qed.

Lemma positive_kernel21 : positive_kernel (reference_kernel 21 0).
Proof.
  split; [discriminate|].
  change (reference_kernel 21 0) with kernel21. unfold kernel21, millionths.
  simpl map. forall_list. all: reflexivity.
Qed.

Lemma uniform_depth_blur_mask_witness :
  _create_blur_mask reference_kernel
    [[Fin (1 # 2); Fin (1 # 2)]; [Fin (1 # 2); Fin (1 # 2)]]
    (Fin (1 # 2)) (Fin 0)
  = Ok (map2d (fun _ => Fin 0)
          [[Fin (1 # 2); Fin (1 # 2)]; [Fin (1 # 2); Fin (1 # 2)]])
  /\ blur_intensity_map [[Fin 0; Fin 0]; [Fin 0; Fin 0]]
       (Fin (1 # 2)) (Fin (1 # 8))
     = Ok (map2d (fun _ => Fin 1) [[Fin 0; Fin 0]; [Fin 0; Fin 0]])
  /\ exists blur_mask,
       _create_blur_mask reference_kernel [[Fin 0; Fin 0]; [Fin 0; Fin 0]]
         (Fin (1 # 2)) (Fin (1 # 8)) = Ok blur_mask
       /\ forall y x m,
            lookup2 blur_mask y x = Some m -> fltb (Fin 0) m = true.
Proof.
  split.
  - apply (proj1 (uniform_depth_blur_mask reference_kernel
                    [[Fin (1 # 2); Fin (1 # 2)]; [Fin (1 # 2); Fin (1 # 2)]]
                    2 (1 # 2) (Fin (1 # 2)) (Fin 0)
                    eq_refl
                    ltac:(unfold rect; forall_list; reflexivity)
                    ltac:(unfold constant_map; forall_list;
                          eexists; split; reflexivity))).
    left. vm_compute. reflexivity.
  - pose proof (proj2 (uniform_depth_blur_mask reference_kernel
                    [[Fin 0; Fin 0]; [Fin 0; Fin 0]]
                    2 0 (Fin (1 # 2)) (Fin (1 # 8))
                    eq_refl
                    ltac:(unfold rect; forall_list; reflexivity)
                    ltac:(unfold constant_map; forall_list;
                          eexists; split; reflexivity))) as H.
    destruct H as [H1 H2]; [vm_compute; reflexivity..|].
    split; [exact H1|]. apply H2. exact positive_kernel21.
Defined.

(** C2, as stated, fails.  A uniform map at depth 0 with the focus plane
    at 0.5 and [focus_strength = 1]: the distance 0.5 is outside the
    focus range 0.1, every pixel has intensity 1 before smoothing, and
    the mask is positive, not zero. *)
Lemma uniform_depth_mask_not_zero :
  py_truediv (float64 (Fin (1 # 10))) (Fin 1) = Ok (float64 (Fin (1 # 10)))
  /\ blur_intensity_map [[Fin 0; Fin 0]; [Fin 0; Fin 0]]
       (Fin (1 # 2)) (float64 (Fin (1 # 10)))
     = Ok [[Fin 1; Fin 1]; [Fin 1; Fin 1]]
  /\ exists blur_mask m,
       _create_blur_mask reference_kernel [[Fin 0; Fin 0]; [Fin 0; Fin 0]]
         (Fin (1 # 2)) (float64 (Fin (1 # 10))) = Ok blur_mask
       /\ lookup2 blur_mask 0 0 = Some m
       /\ fltb (Fin 0) m = true.
Proof.
  split; [vm_compute; reflexivity|]. split; [vm_compute; reflexivity|].
  do 2 eexists. split; [vm_compute; reflexivity|].
  split; [reflexivity|]. reflexivity.
Qed.

(** ** The intensity before smoothing *)

Lemma unit_value_zero : unit_value (Fin 0).
Proof. exists 0%Q. split; [reflexivity|lra]. Qed.

Lemma fleb_Fin_trans (p q : Q) (r : float) :
  (p <= q)%Q -> fleb (Fin q) r = true -> fleb (Fin p) r = true.
Proof.
  intros Hpq. destruct r as [|[]|r]; simpl; try (intros H; exact H).
  intros H. apply Qle_bool_iff in H. apply Qle_bool_iff. lra.
Qed.

(** A distance is never negative. *)
Lemma distance_to_nonneg (focus_plane d : float) (q : Q) :
  distance_to focus_plane d = Fin q -> (0 <= q)%Q.
Proof.
  unfold distance_to, fabs.
  destruct (sub32 d (float32 focus_plane)) as [|s|a]; try discriminate.
  intros H. injection H as <-. rewrite Qred_correct. apply Qabs_nonneg.
Qed.

(** The intensity of one pixel at the finite distance [q], given the
    largest distance [m] of the map. *)
Lemma intensity_unit (r : float) (m q : Q) :
  (0 <= q <= m)%Q ->
  unit_value (if fleb (Fin q) r then Fin 0
              else if fltb (Fin 0) (Fin m) then div32 (Fin q) (Fin m)
                   else Fin 0).
Proof.
  intros [Hq Hm]. destruct (fleb (Fin q) r); [apply unit_value_zero|].
  destruct (fltb (Fin 0) (Fin m)) eqn:Hpos; [|apply unit_value_zero].
  apply fltb_zero_Fin in Hpos. rewrite div32_Fin by lra.
  destruct (round32_bounds 0 1 0 1 (q / m)) as (n & -> & Hn);
    [apply Qdiv_unit; [split; assumption|exact Hpos]|reflexivity
    |exact round32_one|].
  exists n. split; [reflexivity|exact Hn].
Qed.

Lemma intensity_le (r : float) (m q1 q2 : Q) :
  (0 <= q1)%Q -> (q1 <= q2)%Q -> (q2 <= m)%Q ->
  fleb (if fleb (Fin q1) r then Fin 0
        else if fltb (Fin 0) (Fin m) then div32 (Fin q1) (Fin m) else Fin 0)
       (if fleb (Fin q2) r then Fin 0
        else if fltb (Fin 0) (Fin m) then div32 (Fin q2) (Fin m) else Fin 0)
  = true.
Proof.
  intros H1 H12 H2.
  destruct (fleb (Fin q2) r) eqn:E2.
  - rewrite (fleb_Fin_trans q1 q2 r H12 E2). reflexivity.
  - destruct (fltb (Fin 0) (Fin m)) eqn:Hpos.
    + apply fltb_zero_Fin in Hpos. rewrite !div32_Fin by lra.
      assert (0 <= / m)%Q as Hinv by (apply Qlt_le_weak, Qinv_lt_0_compat, Hpos).
      destruct (fleb (Fin q1) r).
      * rewrite <- (round32_zero 0) by reflexivity. apply round32_le.
        apply Qmult_le_0_compat; [lra|exact Hinv].
      * apply round32_le. apply Qmult_le_compat_r; [exact H12|exact Hinv].
    + destruct (fleb (Fin q1) r); reflexivity.
Qed.

(** C5, as the code has it.  For a depth map and a focus plane whose
    float32 distances are all finite, every pixel of the intensity map
    before smoothing lies in [0, 1], and a larger distance to the focus
    plane gives a larger or equal intensity. *)
Theorem blur_mask_unit_and_monotone_before_smoothing
    (depth_map : grid float) (focus_plane focus_range : float) :
  nonempty depth_map = true ->
  Forall (fun d => isfinite (distance_to focus_plane d) = true)
         (concat depth_map) ->
  exists blur_intensity,
    blur_intensity_map depth_map focus_plane focus_range = Ok blur_intensity
    /\ same_shape blur_intensity depth_map = true
    /\ unit_map blur_intensity
    /\ forall y1 x1 y2 x2 d1 d2 b1 b2,
         lookup2 depth_map y1 x1 = Some d1 ->
         lookup2 depth_map y2 x2 = Some d2 ->
         fleb (distance_to focus_plane d1) (distance_to focus_plane d2) = true ->
         lookup2 blur_intensity y1 x1 = Some b1 ->
         lookup2 blur_intensity y2 x2 = Some b2 ->
         fleb b1 b2 = true.
Proof.
  intros Hne Hfin.
  assert (finite_list (map (distance_to focus_plane) (concat depth_map)))
    as Hfl.
  { apply List.Forall_forall. intros x Hx. apply in_map_iff in Hx.
    destruct Hx as (d & <- & Hd).
    apply (proj1 (List.Forall_forall _ _) Hfin _ Hd). }
  destruct (finite_list_map_Fin _ Hfl) as (qs & Hqs).
  assert (qs <> []) as Hqne.
  { intros ->. apply nonempty_concat in Hne.
    apply map_eq_nil in Hqs. auto. }
  destruct (np_max_Fin qs Hqne) as (mx & Hmax & _ & Hle).
  rewrite <- Hqs in Hmax.
  assert (forall d, In d (concat depth_map) ->
            exists q, distance_to focus_plane d = Fin q /\ (0 <= q <= mx)%Q)
    as Hdist.
  { intros d Hd.
    pose proof (proj1 (List.Forall_forall _ _) Hfin _ Hd) as Hf.
    cbv beta in Hf.
    destruct (distance_to focus_plane d) as [| |q] eqn:E; try discriminate.
    exists q. split; [reflexivity|]. split.
    - exact (distance_to_nonneg _ _ _ E).
    - apply Hle. apply (in_map (distance_to focus_plane)) in Hd.
      rewrite E, Hqs in Hd. apply in_map_iff in Hd.
      destruct Hd as (q' & [= ->] & Hq'). exact Hq'. }
  eexists. split; [exact (blur_intensity_map_pointwise _ _ _ _ Hmax)|].
  split; [apply same_shape_true, map_length_map2d|]. split.
  - apply Forall2d_of_lookup2. intros y x b Hb.
    rewrite lookup2_map2d in Hb.
    destruct (lookup2 depth_map y x) as [d|] eqn:Ed; [|discriminate].
    injection Hb as <-.
    destruct (Hdist d (lookup2_In_concat _ _ _ _ Ed)) as (q & -> & Hq).
    apply intensity_unit. exact Hq.
  - intros y1 x1 y2 x2 d1 d2 b1 b2 E1 E2 Hd B1 B2.
    rewrite lookup2_map2d in B1, B2. rewrite E1 in B1. rewrite E2 in B2.
    injection B1 as <-. injection B2 as <-.
    destruct (Hdist d1 (lookup2_In_concat _ _ _ _ E1)) as (q1 & Q1 & Hq1).
    destruct (Hdist d2 (lookup2_In_concat _ _ _ _ E2)) as (q2 & Q2 & Hq2).
    rewrite Q1, Q2 in Hd |- *. cbn [fleb] in Hd. apply Qle_bool_iff in Hd.
    apply intensity_le; lra.
Qed.

Lemma blur_mask_unit_and_monotone_before_smoothing_witness :
  exists blur_intensity,
    blur_intensity_map [depth_row] (Fin 0) (Fin (1 # 8)) = Ok blur_intensity
    /\ same_shape blur_intensity [depth_row] = true
    /\ unit_map blur_intensity
    /\ forall y1 x1 y2 x2 d1 d2 b1 b2,
         lookup2 [depth_row] y1 x1 = Some d1 ->
         lookup2 [depth_row] y2 x2 = Some d2 ->
         fleb (distance_to (Fin 0) d1) (distance_to (Fin 0) d2) = true ->
         lookup2 blur_intensity y1 x1 = Some b1 ->
         lookup2 blur_intensity y2 x2 = Some b2 ->
         fleb b1 b2 = true.
Proof.
  apply (blur_mask_unit_and_monotone_before_smoothing
           [depth_row] (Fin 0) (Fin (1 # 8))).
  - reflexivity.
  - unfold depth_row. simpl. forall_list. all: vm_compute; reflexivity.
Defined.

(** C5, as stated, fails after smoothing.  In [depth_row] with the focus
    plane at 0 and a focus range of 0.125, pixel 0 (distance 0.5, among
    in-focus pixels) and pixel 11 (distance 0.375, next to far pixels)
    are both outside the range; pixel 11 is the nearer of the two and
    has the larger value in the smoothed mask. *)
Lemma smoothed_mask_not_monotone :
  lookup2 [depth_row] 0 0 = Some (Fin (1 # 2))
  /\ lookup2 [depth_row] 0 11 = Some (Fin (3 # 8))
  /\ distance_to (Fin 0) (Fin (1 # 2)) = Fin (1 # 2)
  /\ distance_to (Fin 0) (Fin (3 # 8)) = Fin (3 # 8)
  /\ fleb (distance_to (Fin 0) (Fin (1 # 2))) (float32 (Fin (1 # 8))) = false
  /\ fleb (distance_to (Fin 0) (Fin (3 # 8))) (float32 (Fin (1 # 8))) = false
  /\ exists blur_mask m0 m11,
       _create_blur_mask reference_kernel [depth_row] (Fin 0) (Fin (1 # 8))
       = Ok blur_mask
       /\ lookup2 blur_mask 0 0 = Some m0
       /\ lookup2 blur_mask 0 11 = Some m11
       /\ fltb m0 m11 = true.
Proof.
  repeat (split; [vm_compute; reflexivity|]).
  do 3 eexists. split; [vm_compute; reflexivity|].
  repeat split; vm_compute; reflexivity.
Qed.

(** ** FocusPlaneEstimator: the median *)

Lemma existsb_isnan_Fin (qs : list Q) : existsb isnan (map Fin qs) = false.
Proof. induction qs as [|q qs IH]; simpl; auto. Qed.

Lemma insort_Fin (a : Q) (l : list Q) :
  exists l', insort (Fin a) (map Fin l) = map Fin l'
             /\ length l' = S (length l)
             /\ forall q, In q l' -> q = a \/ In q l.
Proof.
  induction l as [|b l (l' & IH & Hlen & Hin)]; simpl.
  - exists [a]. split; [reflexivity|]. split; [reflexivity|].
    intros q [<-|[]]. now left.
  - destruct (Qle_bool a b).
    + exists (a :: b :: l). split; [reflexivity|]. split; [reflexivity|].
      intros q [<-|Hq]; [now left|now right].
    + rewrite IH. exists (b :: l'). split; [reflexivity|].
      split; [simpl; lia|].
      intros q [<-|Hq]; [right; now left|].
      destruct (Hin q Hq) as [->|Hq']; [now left|right; now right].
Qed.

Lemma np_sort_Fin (qs : list Q) :
  exists qs', np_sort (map Fin qs) = map Fin qs'
              /\ length qs' = length qs
              /\ forall q, In q qs' -> In q qs.
Proof.
  unfold np_sort.
  induction qs as [|a qs (qs' & IH & Hlen & Hin)]; cbn [map foldr].
  - exists []. auto.
  - rewrite IH.
    destruct (insort_Fin a qs') as (l' & -> & Hlen' & Hin').
    exists l'. split; [reflexivity|]. split; [simpl; lia|].
    intros q Hq. destruct (Hin' q Hq) as [->|Hq']; [now left|right; auto].
Qed.

Lemma slice_map {A B : Type} (f : A -> B) (a b : nat) (l : list A) :
  slice a b (map f l) = map f (slice a b l).
Proof. unfold slice. rewrite skipn_map, firstn_map. reflexivity. Qed.

Lemma In_slice {A : Type} (a b : nat) (l : list A) (x : A) :
  In x (slice a b l) -> In x l.
Proof.
  unfold slice. intros H.
  rewrite <- (firstn_skipn a l). apply in_or_app. right.
  rewrite <- (firstn_skipn (b - a) (drop a l)). apply in_or_app. now left.
Qed.

Lemma length_slice {A : Type} (a b : nat) (l : list A) :
  length (slice a b l) = (b - a) `min` (length l - a).
Proof. unfold slice. rewrite length_take, length_drop. reflexivity. Qed.

Lemma round32_two : round32 2 = Fin 2.
Proof. apply (round32_Z 2). simpl. lia. Qed.

(** The float32 mean of two values of the unit interval is in the unit
    interval. *)
Lemma average_unit (a b : float) :
  unit_value a -> unit_value b -> unit_value (div32 (add32 a b) (Fin 2)).
Proof.
  intros (p & -> & Hp) (q & -> & Hq). rewrite add32_Fin.
  destruct (round32_bounds 0 2 0 2 (p + q)) as (t & -> & Ht);
    [lra|reflexivity|exact round32_two|].
  rewrite div32_Fin by lra.
  destruct (round32_bounds 0 1 0 1 (t / 2)) as (m & -> & Hm);
    [|reflexivity|exact round32_one|].
  - split; [apply Qle_shift_div_l|apply Qle_shift_div_r]; lra.
  - exists m. split; [reflexivity|exact Hm].
Qed.

(** The mean that [np.median] takes: of one value or of two. *)
Lemma np_mean_unit (l : list Q) :
  length l = 1 \/ length l = 2 ->
  (forall q, In q l -> (0 <= q <= 1)%Q) ->
  unit_value (np_mean (map Fin l)).
Proof.
  intros Hlen Hb.
  destruct l as [|a [|b [|c l]]]; simpl in Hlen; try lia.
  - assert (0 <= a <= 1)%Q as Ha by (apply Hb; now left).
    unfold np_mean. cbn [map fold_left length].
    rewrite add32_Fin.
    destruct (round32_bounds 0 1 0 1 (0 + a)) as (a' & -> & Ha');
      [lra|reflexivity|exact round32_one|].
    change (inject_Z (Z.of_nat 1)) with 1%Q. rewrite div32_Fin by lra.
    destruct (round32_bounds 0 1 0 1 (a' / 1)) as (m & -> & Hm);
      [|reflexivity|exact round32_one|].
    + assert (a' / 1 == a')%Q as -> by field. exact Ha'.
    + exists m. split; [reflexivity|exact Hm].
  - assert (0 <= a <= 1)%Q as Ha by (apply Hb; now left).
    assert (0 <= b <= 1)%Q as Hb' by (apply Hb; right; now left).
    unfold np_mean. cbn [map fold_left length].
    rewrite add32_Fin.
    destruct (round32_bounds 0 1 0 1 (0 + a)) as (a' & -> & Ha');
      [lra|reflexivity|exact round32_one|].
    change (inject_Z (Z.of_nat 2)) with 2%Q.
    apply average_unit.
    + exists a'. split; [reflexivity|exact Ha'].
    + exists b. split; [reflexivity|exact Hb'].
Qed.

(** The median of values of the unit interval is in the unit interval. *)
Lemma np_median_unit (qs : list Q) :
  qs <> [] ->
  (forall q, In q qs -> (0 <= q <= 1)%Q) ->
  unit_value (np_median (map Fin qs)).
Proof.
  intros Hne Hb. unfold np_median. rewrite existsb_isnan_Fin.
  destruct (np_sort_Fin qs) as (part & -> & Hlen & Hin).
  rewrite length_map, Hlen.
  assert (0 < length qs) as Hpos by (destruct qs; [congruence|simpl; lia]).
  assert (length qs / 2 < length qs) as Hidx
    by (apply Nat.div_lt; lia).
  destruct (Nat.odd (length qs)) eqn:Hodd; rewrite slice_map;
    apply np_mean_unit.
  - left. rewrite length_slice. lia.
  - intros q Hq. apply Hb, Hin. eapply In_slice. exact Hq.
  - right. rewrite length_slice.
    assert (2 <= length qs) as H2.
    { destruct (length qs) as [|[|n]]; [lia|discriminate|lia]. }
    assert (1 <= length qs / 2) by (apply Nat.div_le_lower_bound; lia).
    lia.
  - intros q Hq. apply Hb, Hin. eapply In_slice. exact Hq.
Qed.

(** ** FocusPlaneEstimator: the histogram *)

(** [np.argmax] returns the first index that holds a largest entry. *)
Lemma argmax_from_spec (pre rest : list nat) (best_i best_v : nat) :
  pre !! best_i = Some best_v ->
  (forall j c, pre !! j = Some c -> c <= best_v) ->
  (forall j c, pre !! j = Some c -> j < best_i -> c < best_v) ->
  exists r top,
    argmax_from rest (length pre) best_i best_v = r
    /\ (pre ++ rest) !! r = Some top
    /\ (forall j c, (pre ++ rest) !! j = Some c -> c <= top)
    /\ (forall j c, (pre ++ rest) !! j = Some c -> j < r -> c < top).
Proof.
  revert pre best_i best_v.
  induction rest as [|x rest IH]; intros pre best_i best_v Hbest Hmax Hfirst.
  - exists best_i, best_v. rewrite app_nil_r. auto.
  - cbn [argmax_from].
    assert (pre ++ x :: rest = (pre ++ [x]) ++ rest) as Happ
      by (rewrite <- app_assoc; reflexivity).
    assert (S (length pre) = length (pre ++ [x])) as Hlen
      by (rewrite length_app; simpl; lia).
    assert (best_i < length pre) as Hbi by (eapply lookup_lt_Some; eauto).
    rewrite Happ, Hlen.
    destruct (Nat.ltb_spec best_v x) as [Hlt|Hge].
    + apply IH.
      * rewrite lookup_app_r by lia. rewrite Nat.sub_diag. reflexivity.
      * intros j c Hj. apply lookup_app_Some in Hj.
        destruct Hj as [Hj|[_ Hj]].
        -- apply Hmax in Hj. lia.
        -- destruct (j - length pre); simpl in Hj; [|discriminate].
           injection Hj as <-. lia.
      * intros j c Hj Hjlt. rewrite lookup_app_l in Hj by lia.
        apply Hmax in Hj. lia.
    + apply IH.
      * apply lookup_app_l_Some. exact Hbest.
      * intros j c Hj. apply lookup_app_Some in Hj.
        destruct Hj as [Hj|[_ Hj]].
        -- apply Hmax in Hj. lia.
        -- destruct (j - length pre); simpl in Hj; [|discriminate].
           injection Hj as <-. lia.
      * intros j c Hj Hjlt. rewrite lookup_app_l in Hj by lia.
        exact (Hfirst j c Hj Hjlt).
Qed.

Lemma np_argmax_spec (l : list nat) :
  l <> [] ->
  exists i top,
    np_argmax l = Ok i
    /\ l !! i = Some top
    /\ (forall j c, l !! j = Some c -> c <= top)
    /\ (forall j c, l !! j = Some c -> j < i -> c < top).
Proof.
  destruct l as [|x l]; [congruence|]. intros _.
  destruct (argmax_from_spec [x] l 0 x) as (r & top & Hr & Htop & Hmax & Hfst).
  - reflexivity.
  - intros [|j] c Hj; simpl in Hj; [|discriminate]. injection Hj as <-. lia.
  - intros j c _ Hj. lia.
  - exists r, top. simpl in Hr. simpl. rewrite Hr. auto.
Qed.


Lemma length_linspace (start stop : float) (num : nat) :
  length (linspace start stop num) = num.
Proof. unfold linspace. rewrite length_map, length_seq. reflexivity. Qed.

Lemma length_bincount (indices : list Z) (bins : nat) :
  length (bincount indices bins) = bins.
Proof. unfold bincount. rewrite length_map, length_seq. reflexivity. Qed.

(** What the estimator relies on: [np.histogram] returns as many counts
    as there are bins and one more edge, and a failure is a
    [ValueError]. *)
Lemma np_histogram_shape (a : list float) (bins : nat) (hist : list nat)
    (bin_edges : list float) :
  np_histogram a bins = Ok (hist, bin_edges) ->
  length hist = bins /\ length bin_edges = S bins.
Proof.
  unfold np_histogram. destruct (_get_outer_edges a) as [[f l]|e];
    [|discriminate].
  cbn [bind]. intros [= <- <-].
  rewrite length_bincount, length_linspace. lia.
Qed.


(** ** FocusPlaneEstimator: the estimate *)

Lemma In_center_region (depth_map : grid float) (x : float) :
  In x (concat (center_region depth_map)) -> In x (concat depth_map).
Proof.
  unfold center_region. destruct (shape depth_map) as [height width].
  intros H. apply in_concat in H. destruct H as (r' & Hr' & Hx).
  apply in_map_iff in Hr'. destruct Hr' as (r & <- & Hr).
  apply in_concat. exists r. split.
  - eapply In_slice. exact Hr.
  - eapply In_slice. exact Hx.
Qed.

Lemma Forall_concat_In {A : Type} (P : A -> Prop) (g : grid A) (x : A) :
  Forall (Forall P) g -> In x (concat g) -> P x.
Proof.
  intros H Hx. apply in_concat in Hx. destruct Hx as (r & Hr & Hx).
  apply (proj1 (List.Forall_forall _ _)
           (proj1 (List.Forall_forall _ _) H r Hr) x Hx).
Qed.

Lemma list_Fin (P : Q -> Prop) (l : list float) :
  (forall x, In x l -> exists q, x = Fin q /\ P q) ->
  exists qs, l = map Fin qs /\ forall q, In q qs -> P q.
Proof.
  induction l as [|x l IH]; intros H.
  - exists []. split; [reflexivity|]. intros q [].
  - destruct (H x) as (q & -> & Hq); [now left|].
    destruct IH as (qs & -> & Hqs); [intros y Hy; apply H; now right|].
    exists (q :: qs). split; [reflexivity|].
    intros q' [<-|Hq']; auto.
Qed.

Section FocusPlane.

(** [np.histogram], whatever it is, as long as it returns 50 counts with
    51 edges and fails with a [ValueError] only. *)
Variable histogram : list float -> nat -> Result (list nat * list float).

Hypothesis histogram_shape :
  forall a bins hist bin_edges,
    histogram a bins = Ok (hist, bin_edges) ->
    length hist = bins /\ length bin_edges = S bins.

Hypothesis histogram_raises :
  forall a bins e, histogram a bins = Raise e -> exists msg, e = ValueError msg.

(** The estimate once the histogram is known. *)
Lemma focus_plane_of_histogram (depth_map : grid float) (hist : list nat)
    (bin_edges : list float) :
  histogram (concat (center_region depth_map)) 50 = Ok (hist, bin_edges) ->
  exists most_common_bin top lo hi,
    np_argmax hist = Ok most_common_bin
    /\ hist !! most_common_bin = Some top
    /\ (forall j c, hist !! j = Some c -> c <= top)
    /\ (forall j c, hist !! j = Some c -> j < most_common_bin -> c < top)
    /\ bin_edges !! most_common_bin = Some lo
    /\ bin_edges !! (most_common_bin + 1) = Some hi
    /\ _find_subject_focus_plane_with histogram depth_map
       = Ok (div32 (add32 (np_median (concat (center_region depth_map)))
                          (div32 (add32 lo hi) (Fin 2)))
                   (Fin 2)).
Proof.
  intros Hhist. destruct (histogram_shape _ _ _ _ Hhist) as [Hlen Hedges].
  assert (hist <> []) as Hne by (intros ->; discriminate).
  destruct (np_argmax_spec hist Hne) as (i & top & Harg & Htop & Hmax & Hfst).
  assert (i < 50) as Hi by (rewrite <- Hlen; eapply lookup_lt_Some; eauto).
  destruct (lookup_lt_is_Some_2 bin_edges i ltac:(lia)) as [lo Hlo].
  destruct (lookup_lt_is_Some_2 bin_edges (i + 1) ltac:(lia)) as [hi Hhi].
  exists i, top, lo, hi. split_and!; auto.
  unfold _find_subject_focus_plane_with. rewrite Hhist. cbn [bind].
  rewrite Harg. cbn [bind]. unfold getitem. rewrite Hlo, Hhi. reflexivity.
Qed.

(** C4, as the code has it.  The estimator returns the float32 average
    of the median of the central crop and of the midpoint of the fullest
    of the 50 bins of its histogram, the first such bin when several are
    equally full.  On a normalised map with a non-empty crop the result
    is in [0, 1] whenever the two edges of that bin are. *)
Theorem focus_plane_is_average_of_median_and_mode (depth_map : grid float)
    (hist : list nat) (bin_edges : list float) :
  histogram (concat (center_region depth_map)) 50 = Ok (hist, bin_edges) ->
  exists most_common_bin top lo hi focus_plane,
    np_argmax hist = Ok most_common_bin
    /\ hist !! most_common_bin = Some top
    /\ (forall j c, hist !! j = Some c -> c <= top)
    /\ (forall j c, hist !! j = Some c -> j < most_common_bin -> c < top)
    /\ bin_edges !! most_common_bin = Some lo
    /\ bin_edges !! (most_common_bin + 1) = Some hi
    /\ _find_subject_focus_plane_with histogram depth_map = Ok focus_plane
    /\ focus_plane
       = div32 (add32 (np_median (concat (center_region depth_map)))
                      (div32 (add32 lo hi) (Fin 2)))
               (Fin 2)
    /\ (unit_map depth_map ->
        nonempty (center_region depth_map) = true ->
        unit_value lo -> unit_value hi ->
        unit_value focus_plane).
Proof.
  intros Hhist.
  destruct (focus_plane_of_histogram depth_map hist bin_edges Hhist)
    as (i & top & lo & hi & H1 & H2 & H3 & H4 & H5 & H6 & H7).
  exists i, top, lo, hi. eexists. split_and!; try eassumption; [reflexivity|].
  intros Hunit Hne Ulo Uhi.
  destruct (list_Fin (fun q => (0 <= q <= 1)%Q)
              (concat (center_region depth_map))) as (qs & Hcrop & Hqs).
  { intros x Hx. apply In_center_region in Hx.
    exact (Forall_concat_In _ _ _ Hunit Hx). }
  assert (qs <> []) as Hqne.
  { intros ->. apply nonempty_concat in Hne. auto. }
  rewrite Hcrop. apply average_unit.
  - apply np_median_unit; assumption.
  - apply average_unit; assumption.
Qed.


End FocusPlane.

Lemma unit_map_far_centre : unit_map far_centre.
Proof.
  unfold unit_map, far_centre, map2d. simpl. forall_list.
  all: eexists; split; [reflexivity|lra].
Qed.

Lemma focus_plane_is_average_of_median_and_mode_witness :
  exists hist bin_edges,
    np_histogram (concat (center_region quarter_steps)) 50
    = Ok (hist, bin_edges)
    /\ exists most_common_bin top lo hi focus_plane,
         np_argmax hist = Ok most_common_bin
         /\ hist !! most_common_bin = Some top
         /\ (forall j c, hist !! j = Some c -> c <= top)
         /\ (forall j c, hist !! j = Some c -> j < most_common_bin -> c < top)
         /\ bin_edges !! most_common_bin = Some lo
         /\ bin_edges !! (most_common_bin + 1) = Some hi
         /\ _find_subject_focus_plane quarter_steps = Ok focus_plane
         /\ focus_plane
            = div32 (add32 (np_median (concat (center_region quarter_steps)))
                           (div32 (add32 lo hi) (Fin 2)))
                    (Fin 2)
         /\ (unit_map quarter_steps ->
             nonempty (center_region quarter_steps) = true ->
             unit_value lo -> unit_value hi ->
             unit_value focus_plane).
Proof.
  do 2 eexists. split; [vm_compute; reflexivity|].
  apply (focus_plane_is_average_of_median_and_mode np_histogram
           np_histogram_shape quarter_steps).
  vm_compute. reflexivity.
Defined.

(** C4, as stated, fails.  [far_centre] is normalised and its central
    2x2 crop is constant at depth 1: the median is 1, the histogram
    range is widened to [0.5, 1.5], the fullest bin starts at 1, and the
    focus plane is above 1. *)
Lemma focus_plane_above_one :
  unit_map far_centre
  /\ center_region far_centre = [[Fin 1; Fin 1]; [Fin 1; Fin 1]]
  /\ np_median (concat (center_region far_centre)) = Fin 1
  /\ exists r,
       _find_subject_focus_plane far_centre = Ok (Fin r) /\ (1 < r)%Q.
Proof.
  split; [exact unit_map_far_centre|].
  split; [vm_compute; reflexivity|]. split; [vm_compute; reflexivity|].
  eexists. split; [vm_compute; reflexivity|]. reflexivity.
Qed.



(** ** DepthBlurCompositor, per pixel *)


Lemma getitem2_lookup2 {A : Type} (g : grid A) (y x : nat) (a : A) :
  lookup2 g y x = Some a -> getitem2 g y x = Ok a.
Proof.
  unfold lookup2, getitem2, getitem. intros H.
  destruct (g !! y) as [row|]; [|discriminate]. cbn [bind]. rewrite H.
  reflexivity.
Qed.






Lemma astype_roundtrip (c : Z) : uint8 c -> astype_uint8 (astype_float c) = c.
Proof. intros H. apply astype_uint8_exact; [reflexivity|exact H]. Qed.

Lemma pixel_roundtrip (p : pixel) :
  valid_pixel p -> pmap astype_uint8 (pmap astype_float p) = p.
Proof.
  destruct p as [[r g] b]. intros (Hr & Hg & Hb).
  unfold red, green, blue in *. cbn [fst snd] in *. unfold pmap.
  rewrite !astype_roundtrip by assumption. reflexivity.
Qed.

Lemma positive_mask_value (m : float) :
  fltb (Fin 0) m = true -> m <> Inf false -> exists q, m = Fin q /\ (0 < q)%Q.
Proof.
  destruct m as [|[]|q]; try discriminate; [congruence|].
  unfold fltb. simpl. intros H _. apply andb_true_iff in H.
  destruct H as [_ H]. apply negb_true_iff, Qle_bool_false in H. eauto.
Qed.

Lemma rect_lookup2 {A : Type} (w : nat) (g : grid A) (y x : nat) :
  rect w g -> y < length g -> x < w -> is_Some (lookup2 g y x).
Proof.
  intros Hr Hy Hx. unfold lookup2.
  destruct (lookup_lt_is_Some_2 g y Hy) as [row Hrow]. rewrite Hrow.
  apply lookup_lt_is_Some_2.
  rewrite (Forall_lookup_1 _ _ _ _ Hr Hrow). exact Hx.
Qed.

Section NaiveLoop.

Variable image_np : image.
Variable blur_mask : grid float.
Variable blur_levels : list (grid fpixel).
Variable w : nat.

Hypothesis mask_rect : rect w blur_mask.
Hypothesis mask_shape : map length blur_mask = map length image_np.
Hypothesis mask_no_overflow : no_overflow blur_mask.
Hypothesis levels_nonempty : blur_levels <> [].
Hypothesis levels_shape :
  forall level, In level blur_levels -> map length level = map length image_np.



End NaiveLoop.




(** ** Further properties of the code *)

Lemma shape_map2d {A B : Type} (f : A -> B) (g : grid A) :
  shape (map2d f g) = shape g.
Proof.
  destruct g as [|r g]; [reflexivity|]. unfold shape, map2d. simpl.
  rewrite !length_map. reflexivity.
Qed.

Lemma center_region_map2d (f : float -> float) (g : grid float) :
  center_region (map2d f g) = map2d f (center_region g).
Proof.
  unfold center_region. rewrite shape_map2d.
  destruct (shape g) as [height width]. unfold map2d.
  rewrite slice_map, !map_map. apply map_ext. intros r. apply slice_map.
Qed.

Lemma fold_minimum_nan (l : list float) : fold_left minimum l NaN = NaN.
Proof. induction l as [|b l IH]; simpl; auto. Qed.

(** What the flat-map NaNs lead to: on a flat finite depth map whose
    central crop holds a pixel, normalisation returns an all-NaN map and
    the focus-plane estimation then raises [ValueError] (turned into a
    500 response by [process_auto_focus]). *)
Theorem flat_map_stops_focus_estimation (depth_map : grid float) (v : Q) :
  constant_map v depth_map ->
  nonempty (center_region depth_map) = true ->
  exists normalized msg,
    normalize_depth depth_map = Ok normalized
    /\ _find_subject_focus_plane normalized = Raise (ValueError msg).
Proof.
  intros Hc Hne.
  assert (concat (center_region depth_map) <> []) as Hcrop
    by (apply nonempty_concat; exact Hne).
  assert (concat depth_map <> []) as Hmap.
  { destruct (concat (center_region depth_map)) as [|x l] eqn:E;
      [congruence|].
    assert (In x (concat depth_map)) as Hin
      by (apply In_center_region; rewrite E; now left).
    intros E'. rewrite E' in Hin. destruct Hin. }
  exists (map2d (fun _ => NaN) depth_map). eexists.
  split.
  { destruct (constant_map_Fin v depth_map Hc) as (qg & Eq & Hv).
    rewrite Eq in Hmap |- *. rewrite concat_map2d in Hmap.
    assert (concat qg <> []) as Hq by (intros E; rewrite E in Hmap; auto).
    destruct (normalize_depth_Fin qg Hq) as (lo & hi & Hlo & Hhi & _ & _ & ->).
    f_equal. rewrite map2d_map2d. apply map2d_ext_in. intros q Hin.
    apply (flat_entry_is_nan v); auto. }
  unfold _find_subject_focus_plane, _find_subject_focus_plane_with.
  rewrite center_region_map2d, concat_map2d.
  unfold np_histogram, _get_outer_edges.
  destruct (concat (center_region depth_map)) as [|x l]; [congruence|].
  cbn [map np_min np_max bind]. rewrite fold_minimum_nan. reflexivity.
Qed.

Lemma flat_map_stops_focus_estimation_witness :
  exists normalized msg,
    normalize_depth
      (map2d Fin [[1 # 2; 1 # 2]; [1 # 2; 1 # 2]; [1 # 2; 1 # 2]]) = Ok normalized
    /\ _find_subject_focus_plane normalized = Raise (ValueError msg).
Proof.
  apply (flat_map_stops_focus_estimation
           (map2d Fin [[1 # 2; 1 # 2]; [1 # 2; 1 # 2]; [1 # 2; 1 # 2]]) (1 # 2)).
  - unfold constant_map, map2d. simpl. forall_list.
    all: eexists; split; reflexivity.
  - reflexivity.
Defined.

(** A [blur_radius] outside 3..50 is answered with 400 once the file is
    an image and [focus_strength] is in range. *)
Theorem blur_radius_out_of_range_is_rejected (K : Z -> Q -> list Q)
    (models_loaded : bool) (depth_model : image -> Result (grid float))
    (Image_open : list Byte.byte -> Result image)
    (resize_image : image -> Z * Z -> Result image)
    (resize_map : grid float -> Z * Z -> Result (grid float))
    (encode_rgb : image -> string) (encode_gray : grid Z -> string)
    (file : UploadFile) (focus_strength : float) (blur_radius : Z) :
  String.prefix "image/" (content_type file) = true ->
  fleb (Fin (1 # 10)) focus_strength && fleb focus_strength (Fin 3) = true ->
  (blur_radius < 3 \/ 50 < blur_radius)%Z ->
  auto_focus_blur K models_loaded depth_model Image_open resize_image
    resize_map encode_rgb encode_gray file focus_strength blur_radius
  = Raise (HTTPException 400 "blur_radius must be between 3 and 50").
Proof.
  intros Himg Hfs Hr. unfold auto_focus_blur. rewrite Himg, Hfs. simpl.
  assert ((3 <=? blur_radius)%Z && (blur_radius <=? 50)%Z = false) as ->;
    [|reflexivity].
  apply andb_false_iff. destruct Hr; [left; apply Z.leb_gt|right; apply Z.leb_gt];
    lia.
Qed.

Lemma blur_radius_out_of_range_is_rejected_witness :
  auto_focus_blur reference_kernel true sample_depth_model sample_Image_open
    sample_resize sample_resize sample_encode sample_encode
    sample_upload (Fin 1) 51
  = Raise (HTTPException 400 "blur_radius must be between 3 and 50").
Proof.
  apply (blur_radius_out_of_range_is_rejected reference_kernel true
           sample_depth_model sample_Image_open sample_resize sample_resize
           sample_encode sample_encode sample_upload (Fin 1) 51).
  - reflexivity.
  - reflexivity.
  - right. lia.
Defined.

(** ** DepthNormalizer: order, extremes, NaN *)

(** On a finite map whose float32 range [max - min] is finite and
    positive the normaliser keeps the shape, never reverses the order of
    two depths, sends a smallest depth to 0 and a largest depth to 1. *)
Theorem normalize_depth_keeps_order (depth_map : grid float) (w : Q) :
  finite_map depth_map ->
  depth_range depth_map = Ok (Fin w) ->
  (0 < w)%Q ->
  exists normalized,
    normalize_depth depth_map = Ok normalized
    /\ same_shape normalized depth_map = true
    /\ (forall y1 x1 y2 x2 d1 d2 n1 n2,
          lookup2 depth_map y1 x1 = Some d1 ->
          lookup2 depth_map y2 x2 = Some d2 ->
          lookup2 normalized y1 x1 = Some n1 ->
          lookup2 normalized y2 x2 = Some n2 ->
          fleb d1 d2 = true -> fleb n1 n2 = true)
    /\ (exists y x lo,
          lookup2 depth_map y x = Some lo
          /\ lookup2 normalized y x = Some (Fin 0)
          /\ forall d, In d (concat depth_map) -> fleb lo d = true)
    /\ (exists y x hi,
          lookup2 depth_map y x = Some hi
          /\ lookup2 normalized y x = Some (Fin 1)
          /\ forall d, In d (concat depth_map) -> fleb d hi = true).
Proof.
  intros Hfin Hw Hpos.
  destruct (finite_map_map2d_Fin _ Hfin) as (qg & ->).
  destruct (depth_range_Fin qg _ Hw)
    as (lo & hi & Hlo & Hhi & Hbnd & Ew & Hn).
  symmetry in Ew.
  eexists. split; [exact Hn|]. split; [|split; [|split]].
  - apply same_shape_true. rewrite !map_length_map2d. reflexivity.
  - intros y1 x1 y2 x2 d1 d2 n1 n2 E1 E2 N1 N2 Hd.
    rewrite lookup2_map2d in E1, E2, N1, N2.
    destruct (lookup2 qg y1 x1) as [q1|] eqn:L1; [|discriminate].
    destruct (lookup2 qg y2 x2) as [q2|] eqn:L2; [|discriminate].
    injection E1 as <-. injection E2 as <-.
    injection N1 as <-. injection N2 as <-.
    cbn [fleb] in Hd. apply Qle_bool_iff in Hd.
    apply (normalize_entry_le lo hi w q1 q2 Ew Hpos); [|exact Hd|].
    + apply (Hbnd q1 (lookup2_In_concat _ _ _ _ L1)).
    + apply (Hbnd q2 (lookup2_In_concat _ _ _ _ L2)).
  - destruct (In_concat_lookup2 qg lo Hlo) as (y & x & Hyx).
    exists y, x, (Fin lo). rewrite !lookup2_map2d, Hyx.
    cbn [fmap option_fmap option_map].
    split; [reflexivity|]. split.
    + destruct (normalize_entry lo hi w lo Ew Hpos (Hbnd lo Hlo))
        as (n & -> & _ & _ & _ & E0 & _).
      rewrite E0 by reflexivity. reflexivity.
    + intros d Hd. apply in_concat_map2d in Hd. destruct Hd as (q & <- & Hq).
      cbn [fleb]. apply Qle_bool_iff. apply (Hbnd q Hq).
  - destruct (In_concat_lookup2 qg hi Hhi) as (y & x & Hyx).
    exists y, x, (Fin hi). rewrite !lookup2_map2d, Hyx.
    cbn [fmap option_fmap option_map].
    split; [reflexivity|]. split.
    + destruct (normalize_entry lo hi w hi Ew Hpos (Hbnd hi Hhi))
        as (n & -> & _ & _ & _ & _ & E1).
      rewrite E1 by reflexivity. reflexivity.
    + intros d Hd. apply in_concat_map2d in Hd. destruct Hd as (q & <- & Hq).
      cbn [fleb]. apply Qle_bool_iff. apply (Hbnd q Hq).
Qed.

Lemma normalize_depth_keeps_order_witness :
  exists normalized,
    normalize_depth [[Fin 2; Fin 6]; [Fin 4; Fin 3]] = Ok normalized
    /\ same_shape normalized [[Fin 2; Fin 6]; [Fin 4; Fin 3]] = true
    /\ (forall y1 x1 y2 x2 d1 d2 n1 n2,
          lookup2 [[Fin 2; Fin 6]; [Fin 4; Fin 3]] y1 x1 = Some d1 ->
          lookup2 [[Fin 2; Fin 6]; [Fin 4; Fin 3]] y2 x2 = Some d2 ->
          lookup2 normalized y1 x1 = Some n1 ->
          lookup2 normalized y2 x2 = Some n2 ->
          fleb d1 d2 = true -> fleb n1 n2 = true)
    /\ (exists y x lo,
          lookup2 [[Fin 2; Fin 6]; [Fin 4; Fin 3]] y x = Some lo
          /\ lookup2 normalized y x = Some (Fin 0)
          /\ forall d, In d (concat [[Fin 2; Fin 6]; [Fin 4; Fin 3]]) ->
                       fleb lo d = true)
    /\ (exists y x hi,
          lookup2 [[Fin 2; Fin 6]; [Fin 4; Fin 3]] y x = Some hi
          /\ lookup2 normalized y x = Some (Fin 1)
          /\ forall d, In d (concat [[Fin 2; Fin 6]; [Fin 4; Fin 3]]) ->
                       fleb d hi = true).
Proof.
  apply (normalize_depth_keeps_order [[Fin 2; Fin 6]; [Fin 4; Fin 3]] 4).
  - repeat constructor.
  - vm_compute. reflexivity.
  - reflexivity.
Defined.

Lemma fsub_nan_r (d : float) : fsub d NaN = NaN.
Proof. destruct d as [|[]|q]; reflexivity. Qed.

Lemma minimum_nan_r (a : float) : minimum a NaN = NaN.
Proof. destruct a as [|[]|q]; reflexivity. Qed.

Lemma maximum_nan_r (a : float) : maximum a NaN = NaN.
Proof. destruct a as [|[]|q]; reflexivity. Qed.

Lemma fold_maximum_nan (l : list float) : fold_left maximum l NaN = NaN.
Proof. induction l as [|b l IH]; simpl; auto. Qed.

Lemma fold_minimum_In_nan (l : list float) (x : float) :
  In NaN (x :: l) -> fold_left minimum l x = NaN.
Proof.
  revert x. induction l as [|b l IH]; intros x H.
  - destruct H as [->|[]]. reflexivity.
  - cbn [fold_left]. destruct H as [->|[->|H]].
    + apply fold_minimum_nan.
    + rewrite minimum_nan_r. apply fold_minimum_nan.
    + apply IH. right. exact H.
Qed.

Lemma fold_maximum_In_nan (l : list float) (x : float) :
  In NaN (x :: l) -> fold_left maximum l x = NaN.
Proof.
  revert x. induction l as [|b l IH]; intros x H.
  - destruct H as [->|[]]. reflexivity.
  - cbn [fold_left]. destruct H as [->|[->|H]].
    + apply fold_maximum_nan.
    + rewrite maximum_nan_r. apply fold_maximum_nan.
    + apply IH. right. exact H.
Qed.

Lemma np_min_In_nan (l : list float) : In NaN l -> np_min l = Ok NaN.
Proof.
  destruct l as [|x l]; [intros []|]. intros H. unfold np_min.
  f_equal. apply fold_minimum_In_nan. exact H.
Qed.

Lemma np_max_In_nan (l : list float) : In NaN l -> np_max l = Ok NaN.
Proof.
  destruct l as [|x l]; [intros []|]. intros H. unfold np_max.
  f_equal. apply fold_maximum_In_nan. exact H.
Qed.

(** One NaN in the raw depth map is enough for the normaliser to return
    a map of NaNs only: the minimum and the maximum are NaN, and so is
    every quotient. *)
Theorem normalize_depth_nan_spreads (depth_map : grid float) :
  In NaN (concat depth_map) ->
  normalize_depth depth_map = Ok (map2d (fun _ => NaN) depth_map).
Proof.
  intros H. unfold normalize_depth.
  rewrite (np_min_In_nan _ H), (np_max_In_nan _ H). cbn [bind].
  f_equal. apply map2d_ext_in. intros d _.
  unfold sub32. rewrite fsub_nan_r. reflexivity.
Qed.

Lemma normalize_depth_nan_spreads_witness :
  normalize_depth [[Fin 1; NaN]; [Fin 2; Fin 3]]
  = Ok (map2d (fun _ => NaN) [[Fin 1; NaN]; [Fin 2; Fin 3]]).
Proof.
  apply (normalize_depth_nan_spreads [[Fin 1; NaN]; [Fin 2; Fin 3]]).
  simpl. tauto.
Defined.

(** ** FocusPlaneEstimator: crops that are not finite *)

Lemma edge_not_finite_step (a b y : float) :
  edge_not_finite a b = true \/ isfinite y = false ->
  edge_not_finite (minimum a y) (maximum b y) = true.
Proof.
  intros [H|H].
  - destruct a as [|[]|qa], b as [|[]|qb], y as [|[]|qy];
      try discriminate; try reflexivity; simpl;
      repeat match goal with |- context [Qle_bool ?u ?v] =>
               destruct (Qle_bool u v) end; reflexivity.
  - destruct a as [|[]|qa], b as [|[]|qb], y as [|[]|qy];
      try discriminate; try reflexivity; simpl;
      repeat match goal with |- context [Qle_bool ?u ?v] =>
               destruct (Qle_bool u v) end; reflexivity.
Qed.

Lemma edge_not_finite_fold (l : list float) (a b : float) :
  edge_not_finite a b = true \/ (exists x, In x l /\ isfinite x = false) ->
  edge_not_finite (fold_left minimum l a) (fold_left maximum l b) = true.
Proof.
  revert a b. induction l as [|y l IH]; intros a b H.
  - destruct H as [H|(x & [] & _)]. exact H.
  - cbn [fold_left]. apply IH.
    destruct H as [H|(x & [->|Hx] & Hf)].
    + left. apply edge_not_finite_step. left. exact H.
    + left. apply edge_not_finite_step. right. exact Hf.
    + right. exists x. split; assumption.
Qed.

Lemma edge_not_finite_isfinite (a b : float) :
  edge_not_finite a b = true -> isfinite a && isfinite b = false.
Proof. destruct a as [|[]|qa], b as [|[]|qb]; simpl; congruence. Qed.

Lemma np_histogram_not_finite (a : list float) (bins : nat) (x : float) :
  In x a -> isfinite x = false ->
  np_histogram a bins = Raise (ValueError "autodetected range is not finite").
Proof.
  intros Hin Hx. unfold np_histogram, _get_outer_edges.
  destruct a as [|y l]; [destruct Hin|].
  cbn [np_min np_max bind].
  assert (edge_not_finite (fold_left minimum l y) (fold_left maximum l y) = true)
    as He.
  { apply edge_not_finite_fold. destruct Hin as [->|Hin].
    - left. destruct x as [|[]|q]; try discriminate; reflexivity.
    - right. exists x. split; assumption. }
  rewrite (edge_not_finite_isfinite _ _ He). reflexivity.
Qed.

(** A NaN or an infinity anywhere in the central crop makes the
    estimator raise [ValueError]: the histogram cannot pick a range. *)
Theorem focus_plane_needs_finite_crop (depth_map : grid float) (x : float) :
  In x (concat (center_region depth_map)) ->
  isfinite x = false ->
  exists msg, _find_subject_focus_plane depth_map = Raise (ValueError msg).
Proof.
  intros Hin Hx.
  unfold _find_subject_focus_plane, _find_subject_focus_plane_with.
  rewrite (np_histogram_not_finite _ 50 x Hin Hx). eexists. reflexivity.
Qed.

Lemma focus_plane_needs_finite_crop_witness :
  exists msg,
    _find_subject_focus_plane
      [[Fin 0; Fin 0; Fin 0; Fin 0]; [Fin 0; Fin 1; Inf false; Fin 0];
       [Fin 0; Fin 1; Fin 1; Fin 0]; [Fin 0; Fin 0; Fin 0; Fin 0]]
    = Raise (ValueError msg).
Proof.
  apply (focus_plane_needs_finite_crop
           [[Fin 0; Fin 0; Fin 0; Fin 0]; [Fin 0; Fin 1; Inf false; Fin 0];
            [Fin 0; Fin 1; Fin 1; Fin 0]; [Fin 0; Fin 0; Fin 0; Fin 0]]
           (Inf false)).
  - simpl. tauto.
  - reflexivity.
Defined.

Lemma rect_shape {A : Type} (w : nat) (g : grid A) :
  rect w g -> g <> [] -> shape g = (length g, w).
Proof.
  intros Hr Hne. destruct g as [|r g]; [congruence|].
  unfold shape. inversion Hr; subst. reflexivity.
Qed.

(** ** BlurMaskBuilder on arbitrary depth maps *)

(** The builder never fails on a map that holds a pixel, whatever the
    depths, focus plane and focus range are (NaN and infinities
    included), and the mask has the depth map's shape. *)
Theorem blur_mask_has_depth_map_shape (K : Z -> Q -> list Q)
    (depth_map : grid float) (focus_plane focus_range : float) :
  nonempty depth_map = true ->
  exists blur_mask,
    _create_blur_mask K depth_map focus_plane focus_range = Ok blur_mask
    /\ same_shape blur_mask depth_map = true.
Proof.
  intros Hne.
  destruct (max_distance_exists depth_map focus_plane Hne) as (mx & Hmx).
  unfold _create_blur_mask.
  rewrite (blur_intensity_map_pointwise _ _ focus_range _ Hmx). cbn [bind].
  rewrite GaussianBlur_ok; [|rewrite nonempty_map2d; exact Hne|reflexivity].
  eexists. split; [reflexivity|].
  apply same_shape_true.
  rewrite map_length_sepFilter2D. apply map_length_map2d.
Qed.

Lemma blur_mask_has_depth_map_shape_witness :
  exists blur_mask,
    _create_blur_mask reference_kernel [[Fin 0; NaN; Inf false]] (Fin (1 # 2))
      (Fin (1 # 10)) = Ok blur_mask
    /\ same_shape blur_mask [[Fin 0; NaN; Inf false]] = true.
Proof.
  apply (blur_mask_has_depth_map_shape reference_kernel
           [[Fin 0; NaN; Inf false]] (Fin (1 # 2)) (Fin (1 # 10))).
  reflexivity.
Defined.

Lemma distance_to_nan_r (d : float) : distance_to NaN d = NaN.
Proof. unfold distance_to, sub32. cbn [float32]. rewrite fsub_nan_r. reflexivity. Qed.

(** A NaN among the depths, or a NaN focus plane, switches the blur off:
    the largest distance is NaN, the test [max_distance > 0] fails, and
    the mask is zero everywhere. *)
Theorem nan_depth_gives_zero_mask (K : Z -> Q -> list Q)
    (depth_map : grid float) (focus_plane focus_range : float) :
  nonempty depth_map = true ->
  In NaN (concat depth_map) \/ focus_plane = NaN ->
  _create_blur_mask K depth_map focus_plane focus_range
  = Ok (map2d (fun _ => Fin 0) depth_map).
Proof.
  intros Hne Hnan.
  assert (np_max (map (distance_to focus_plane) (concat depth_map)) = Ok NaN)
    as Hmx.
  { apply np_max_In_nan. destruct Hnan as [H| ->].
    - apply in_map_iff. exists NaN. split; [reflexivity|exact H].
    - apply nonempty_concat in Hne.
      destruct (concat depth_map) as [|d l]; [congruence|].
      left. apply distance_to_nan_r. }
  unfold _create_blur_mask.
  rewrite (blur_intensity_map_pointwise _ _ focus_range _ Hmx). cbn [bind].
  apply zero_mask_is_smoothed_to_zero; [exact Hne|].
  apply map2d_ext_in. intros d _.
  destruct (fleb (distance_to focus_plane d) (float32 focus_range));
    reflexivity.
Qed.

Lemma nan_depth_gives_zero_mask_witness :
  _create_blur_mask reference_kernel [[Fin 0; NaN; Fin 1]] (Fin (1 # 2))
    (Fin (1 # 10))
  = Ok (map2d (fun _ => Fin 0) [[Fin 0; NaN; Fin 1]]).
Proof.
  apply (nan_depth_gives_zero_mask reference_kernel [[Fin 0; NaN; Fin 1]]
           (Fin (1 # 2)) (Fin (1 # 10))).
  - reflexivity.
  - left. simpl. tauto.
Defined.

(** When the float32 distance of every depth to the focus plane is
    within the float32 focus range, the mask is zero everywhere, before
    and after smoothing: nothing will be blurred. *)
Theorem all_in_focus_gives_zero_mask (K : Z -> Q -> list Q)
    (depth_map : grid float) (focus_plane focus_range : float) :
  nonempty depth_map = true ->
  Forall (fun d => fleb (distance_to focus_plane d) (float32 focus_range)
                   = true)
         (concat depth_map) ->
  blur_intensity_map depth_map focus_plane focus_range
  = Ok (map2d (fun _ => Fin 0) depth_map)
  /\ _create_blur_mask K depth_map focus_plane focus_range
     = Ok (map2d (fun _ => Fin 0) depth_map).
Proof.
  intros Hne Hband. rewrite List.Forall_forall in Hband.
  destruct (max_distance_exists depth_map focus_plane Hne) as (mx & Hmx).
  assert (blur_intensity_map depth_map focus_plane focus_range
          = Ok (map2d (fun _ => Fin 0) depth_map)) as Hraw.
  { rewrite (blur_intensity_map_pointwise _ _ focus_range _ Hmx). f_equal.
    apply map2d_ext_in. intros d Hd. rewrite (Hband d Hd). reflexivity. }
  split; [exact Hraw|].
  unfold _create_blur_mask. rewrite Hraw. cbn [bind].
  apply zero_mask_is_smoothed_to_zero; [exact Hne|reflexivity].
Qed.

Lemma all_in_focus_gives_zero_mask_witness :
  blur_intensity_map [[Fin 0; Fin (1 # 2)]; [Fin 1; Fin (3 # 4)]]
    (Fin (1 # 2)) (Fin 1)
  = Ok (map2d (fun _ => Fin 0) [[Fin 0; Fin (1 # 2)]; [Fin 1; Fin (3 # 4)]])
  /\ _create_blur_mask reference_kernel
       [[Fin 0; Fin (1 # 2)]; [Fin 1; Fin (3 # 4)]] (Fin (1 # 2)) (Fin 1)
     = Ok (map2d (fun _ => Fin 0) [[Fin 0; Fin (1 # 2)]; [Fin 1; Fin (3 # 4)]]).
Proof.
  apply (all_in_focus_gives_zero_mask reference_kernel
           [[Fin 0; Fin (1 # 2)]; [Fin 1; Fin (3 # 4)]] (Fin (1 # 2)) (Fin 1)).
  - reflexivity.
  - simpl. forall_list; vm_compute; reflexivity.
Defined.

Lemma Qred_idem (q : Q) : Qred (Qred q) = Qred q.
Proof. apply Qred_complete. apply Qred_correct. Qed.

Lemma distance_to_reduced (focus_plane d : float) (q : Q) :
  distance_to focus_plane d = Fin q -> Qred q = q.
Proof.
  unfold distance_to, fabs.
  destruct (sub32 d (float32 focus_plane)) as [|s|a]; try discriminate.
  intros H. injection H as <-. apply Qred_idem.
Qed.

Lemma fold_maximum_bounded (l : list float) (a : float) (m : Q) :
  Qred m = m ->
  (exists q, a = Fin q /\ Qred q = q /\ (q <= m)%Q) ->
  Forall (fun x => exists q, x = Fin q /\ Qred q = q /\ (q <= m)%Q) l ->
  In (Fin m) (a :: l) ->
  fold_left maximum l a = Fin m.
Proof.
  intros Hm. revert a. induction l as [|b l IH]; intros a Ha Hl Hin.
  - destruct Hin as [->|[]]. reflexivity.
  - inversion Hl as [|? ? Hb Hl']; subst. cbn [fold_left].
    destruct Ha as (qa & -> & Ra & La). destruct Hb as (qb & -> & Rb & Lb).
    assert (exists q, maximum (Fin qa) (Fin qb) = Fin q /\ Qred q = q
                      /\ (q <= m)%Q
                      /\ (Fin m = Fin qa \/ Fin m = Fin qb -> q = m)) as Hstep.
    { cbn [maximum fleb]. destruct (Qle_bool qb qa) eqn:E.
      - exists qa. split_and!; auto. intros [H|H].
        + congruence.
        + injection H as <-. apply Qle_bool_iff in E.
          rewrite <- Ra, <- Hm. apply Qred_complete. lra.
      - exists qb. split_and!; auto. intros [H|H].
        + injection H as <-. apply Qle_bool_false in E.
          rewrite <- Rb, <- Hm. apply Qred_complete. lra.
        + congruence. }
    destruct Hstep as (q & -> & Rq & Lq & Hq).
    apply IH.
    + exists q. auto.
    + exact Hl'.
    + destruct Hin as [H|[H|H]].
      * left. f_equal. apply Hq. left. symmetry. exact H.
      * left. f_equal. apply Hq. right. symmetry. exact H.
      * right. exact H.
Qed.

(** The largest distance found by [np.max] is the distance of a farthest
    pixel. *)
Lemma max_distance_of_farthest (focus_plane v : float) (l : list float) (m : Q) :
  In v l ->
  distance_to focus_plane v = Fin m ->
  Forall (fun u => fleb (distance_to focus_plane u) (Fin m) = true) l ->
  np_max (map (distance_to focus_plane) l) = Ok (Fin m).
Proof.
  intros Hin Hv Hfar.
  pose proof (distance_to_reduced _ _ _ Hv) as Hm.
  assert (Forall (fun x => exists q, x = Fin q /\ Qred q = q /\ (q <= m)%Q)
                 (map (distance_to focus_plane) l)) as Hall.
  { apply List.Forall_forall. intros x Hx. apply in_map_iff in Hx.
    destruct Hx as (u & <- & Hu).
    rewrite List.Forall_forall in Hfar. specialize (Hfar u Hu).
    destruct (distance_to focus_plane u) as [|[]|q] eqn:E; try discriminate.
    { unfold distance_to, fabs in E.
      destruct (sub32 u (float32 focus_plane)); discriminate. }
    exists q. split; [reflexivity|]. split.
    - exact (distance_to_reduced _ _ _ E).
    - cbn [fleb] in Hfar. apply Qle_bool_iff in Hfar. exact Hfar. }
  assert (In (Fin m) (map (distance_to focus_plane) l)) as Hin'.
  { rewrite <- Hv. apply in_map. exact Hin. }
  destruct (map (distance_to focus_plane) l) as [|a r]; [destruct Hin'|].
  unfold np_max. f_equal.
  inversion Hall; subst. apply fold_maximum_bounded; auto.
Qed.

(** A pixel whose float32 distance to the focus plane is the largest of
    the map has intensity exactly 1 before smoothing, provided that
    distance is finite, positive and outside the float32 focus range. *)
Theorem farthest_pixel_has_full_intensity (depth_map : grid float)
    (focus_plane focus_range : float) (blur_intensity : grid float)
    (y x : nat) (v : float) :
  blur_intensity_map depth_map focus_plane focus_range = Ok blur_intensity ->
  lookup2 depth_map y x = Some v ->
  isfinite (distance_to focus_plane v) = true ->
  fltb (Fin 0) (distance_to focus_plane v) = true ->
  fleb (distance_to focus_plane v) (float32 focus_range) = false ->
  Forall (fun u => fleb (distance_to focus_plane u)
                        (distance_to focus_plane v) = true)
         (concat depth_map) ->
  lookup2 blur_intensity y x = Some (Fin 1).
Proof.
  intros Hraw Hv Hfin Hpos Hout Hfar.
  destruct (distance_to focus_plane v) as [| |m] eqn:Em; try discriminate.
  pose proof (max_distance_of_farthest focus_plane v (concat depth_map) m
                (lookup2_In_concat _ _ _ _ Hv) Em Hfar) as Hmx.
  rewrite (blur_intensity_map_pointwise _ _ focus_range _ Hmx) in Hraw.
  injection Hraw as <-.
  rewrite lookup2_map2d, Hv. cbn [fmap option_fmap option_map].
  rewrite Em, Hout, Hpos. f_equal.
  apply fltb_zero_Fin in Hpos.
  rewrite div32_Fin by lra.
  rewrite (round32_comp (m / m) 1) by (field; lra). exact round32_one.
Qed.

Lemma farthest_pixel_has_full_intensity_witness :
  blur_intensity_map [[Fin (1 # 4); Fin (1 # 2); Fin 1]] (Fin (1 # 2))
    (Fin (1 # 8)) = Ok [[Fin (1 # 2); Fin 0; Fin 1]]
  /\ lookup2 [[Fin (1 # 2); Fin 0; Fin 1]] 0 2 = Some (Fin 1).
Proof.
  split; [vm_compute; reflexivity|].
  apply (farthest_pixel_has_full_intensity
           [[Fin (1 # 4); Fin (1 # 2); Fin 1]] (Fin (1 # 2)) (Fin (1 # 8))
           [[Fin (1 # 2); Fin 0; Fin 1]] 0 2 (Fin 1)).
  - vm_compute. reflexivity.
  - reflexivity.
  - vm_compute. reflexivity.
  - vm_compute. reflexivity.
  - vm_compute. reflexivity.
  - simpl. forall_list; vm_compute; reflexivity.
Defined.

(** ** DepthBlurCompositor, pixel by pixel *)

Lemma feqb_one (x : float) :
  feqb x (Fin 1) = true -> exists q, x = Fin q /\ (q == 1)%Q.
Proof.
  destruct x as [|[]|q]; try discriminate.
  unfold feqb. simpl. intros H. apply andb_true_iff in H. destruct H as [H1 H2].
  apply Qle_bool_iff in H1, H2. exists q. split; [reflexivity|lra].
Qed.

(** Under any mask of the image's shape the vectorised compositor
    returns an image of the same shape in which a pixel whose mask value
    is 0 is the input pixel and a pixel whose mask value is 1 is the pixel
    of the blurred rendition; the other mask values (NaN included) do not
    matter for these pixels. *)
Theorem optimized_compositor_pixelwise (K : Z -> Q -> list Q)
    (image_np : image) (blur_mask : grid float) (max_blur_radius : Z) :
  valid_image image_np ->
  nonempty image_np = true ->
  (0 <= max_blur_radius)%Z ->
  same_shape blur_mask image_np = true ->
  exists blurred_image out,
    GaussianBlur_u8 K image_np
      (max_blur_radius * 2 + 1, max_blur_radius * 2 + 1)%Z
      (inject_Z max_blur_radius / 3) = Ok blurred_image
    /\ _apply_depth_blur_optimized K image_np blur_mask max_blur_radius = Ok out
    /\ same_shape out image_np = true
    /\ forall y x m,
         lookup2 blur_mask y x = Some m ->
         (feqb m (Fin 0) = true -> lookup2 out y x = lookup2 image_np y x)
         /\ (feqb m (Fin 1) = true ->
             lookup2 out y x = lookup2 blurred_image y x).
Proof.
  intros Hvalid Hne Hr Hs.
  destruct (optimized_returns K image_np blur_mask max_blur_radius Hne Hr Hs)
    as (blurred & Hb & Hshape & Hbvalid & Hout).
  apply same_shape_true in Hs.
  exists blurred, (composite blur_mask image_np blurred).
  split; [exact Hb|]. split; [exact Hout|]. split.
  - apply same_shape_true. unfold composite.
    rewrite map_length_map2d, map_length_zip2d; [exact Hs|].
    rewrite map_length_zip2d; [exact Hs|]. symmetry. exact Hshape.
  - intros y x m Hm.
    assert (is_Some (lookup2 image_np y x)) as [p Hp]
      by (apply (lookup2_same_shape _ _ y x Hs); eauto).
    assert (is_Some (lookup2 blurred y x)) as [q Hq]
      by (apply (lookup2_same_shape _ _ y x Hshape); eauto).
    rewrite lookup2_composite, Hm, Hp, Hq. split; intros Hv.
    + destruct (feqb_zero m Hv) as (v & -> & Ev). f_equal.
      apply composite_pixel_zero; [exact Ev|].
      exact (Forall2d_lookup2 _ _ _ _ _ Hvalid Hp).
    + destruct (feqb_one m Hv) as (v & -> & Ev). f_equal.
      apply composite_pixel_one; [exact Ev|].
      exact (Forall2d_lookup2 _ _ _ _ _ Hbvalid Hq).
Qed.

Lemma optimized_compositor_pixelwise_witness :
  exists blurred_image out,
    GaussianBlur_u8 reference_kernel black_white (3 * 2 + 1, 3 * 2 + 1)%Z
      (inject_Z 3 / 3) = Ok blurred_image
    /\ _apply_depth_blur_optimized reference_kernel black_white
         [[Fin 0; Fin 1]] 3 = Ok out
    /\ same_shape out black_white = true
    /\ forall y x m,
         lookup2 [[Fin 0; Fin 1]] y x = Some m ->
         (feqb m (Fin 0) = true -> lookup2 out y x = lookup2 black_white y x)
         /\ (feqb m (Fin 1) = true ->
             lookup2 out y x = lookup2 blurred_image y x).
Proof.
  apply (optimized_compositor_pixelwise reference_kernel black_white
           [[Fin 0; Fin 1]] 3).
  - valid_image_tac.
  - reflexivity.
  - lia.
  - reflexivity.
Defined.

(** A loop whose body either raises [e] or leaves the state alone. *)
Lemma foldM_raise_or_keep {A S : Type} (f : A -> S -> Result S)
    (p : A -> bool) (e : exn) (l : list A) (s : S) :
  (forall a, In a l -> f a s = if p a then Raise e else Ok s) ->
  foldM f l s = if existsb p l then Raise e else Ok s.
Proof.
  induction l as [|a l IH]; intros H; [reflexivity|].
  cbn [foldM existsb]. rewrite (H a) by now left.
  destruct (p a); [reflexivity|]. cbn [bind orb].
  apply IH. intros b Hb. apply H. now right.
Qed.

Lemma py_getitem_empty {A : Type} (i : Z) :
  py_getitem (@nil A) i = Raise (IndexError "list index out of range").
Proof.
  unfold py_getitem. change (Z.of_nat (length (@nil A))) with 0%Z.
  destruct (i <? 0)%Z eqn:E.
  - apply Z.ltb_lt in E.
    assert ((0 <=? i + 0)%Z = false) as -> by (apply Z.leb_gt; lia).
    reflexivity.
  - assert ((i <? 0)%Z = false) as H by exact E.
    rewrite H, andb_false_r. reflexivity.
Qed.

Lemma py_range_none (r : Z) : (r < 1)%Z -> py_range 1 (r + 1) 2 = [].
Proof.
  intros H. unfold py_range.
  assert ((r + 1 - 1 + 2 - 1) / 2 <= 0)%Z as Hd.
  { assert ((r + 1 - 1 + 2 - 1) / 2 < 1)%Z; [|lia].
    apply Z.div_lt_upper_bound; lia. }
  replace (Z.to_nat ((r + 1 - 1 + 2 - 1) / 2)) with 0%nat by lia.
  reflexivity.
Qed.

Lemma image_roundtrip (image_np : image) :
  valid_image image_np ->
  map2d (pmap astype_uint8) (map2d (pmap astype_float) image_np) = image_np.
Proof.
  intros Hvalid. rewrite map2d_map2d.
  transitivity (map2d (fun p : pixel => p) image_np).
  - apply map2d_ext_in. intros p Hp. apply pixel_roundtrip.
    exact (Forall_concat_In _ _ _ Hvalid Hp).
  - unfold map2d. rewrite <- (map_id image_np) at 2.
    apply map_ext. intros r. apply map_id.
Qed.

(** Without blur levels a pixel of positive mask value raises
    [IndexError] and any other pixel is skipped. *)
Lemma blur_pixel_without_levels (image_np : image) (blur_mask : grid float)
    (y x : nat) (m : float) (res : grid fpixel) :
  map length blur_mask = map length image_np ->
  lookup2 blur_mask y x = Some m ->
  m <> Inf false ->
  blur_pixel image_np blur_mask [] y x res
  = if fltb (Fin 0) m then Raise (IndexError "list index out of range")
    else Ok res.
Proof.
  intros Hs Hm Hinf. unfold blur_pixel.
  rewrite (getitem2_lookup2 _ _ _ _ Hm). cbn [bind].
  destruct (fltb (Fin 0) m) eqn:Hpos; [|reflexivity].
  destruct (positive_mask_value m Hpos Hinf) as (q & -> & _).
  assert (is_Some (lookup2 image_np y x)) as [p Hp]
    by (apply (lookup2_same_shape _ _ y x Hs); eauto).
  cbn [fmul py_int bind]. rewrite (getitem2_lookup2 _ _ _ _ Hp). cbn [bind].
  rewrite py_getitem_empty. reflexivity.
Qed.

Lemma existsb_grid (p : float -> bool) (w : nat) (g : grid float) :
  rect w g ->
  existsb (fun y =>
             existsb (fun x => match lookup2 g y x with
                               | Some m => p m
                               | None => false
                               end) (seq 0 w))
          (seq 0 (length g))
  = existsb p (concat g).
Proof.
  intros Hr. apply Bool.eq_iff_eq_true. rewrite !existsb_exists. split.
  - intros (y & _ & H). apply existsb_exists in H. destruct H as (x & _ & H).
    destruct (lookup2 g y x) as [m|] eqn:E; [|discriminate].
    exists m. split; [|exact H]. exact (lookup2_In_concat _ _ _ _ E).
  - intros (m & Hin & Hp).
    destruct (In_concat_lookup2 g m Hin) as (y & x & E).
    assert (y < length g /\ x < w) as [Hy Hx].
    { unfold lookup2 in E. destruct (g !! y) as [row|] eqn:Erow; [|discriminate].
      split; [exact (lookup_lt_Some _ _ _ Erow)|].
      rewrite <- (Forall_lookup_1 _ _ _ _ Hr Erow).
      exact (lookup_lt_Some _ _ _ E). }
    exists y. split; [apply in_seq; lia|].
    apply existsb_exists. exists x. split; [apply in_seq; lia|].
    rewrite E. exact Hp.
Qed.

(** With [max_blur_radius] below 1 the per-pixel compositor builds no
    blur level.  It then returns the image unchanged when no mask value is
    strictly positive, and raises [IndexError] at the first pixel whose
    mask value is. *)
Theorem naive_compositor_without_blur_levels (K : Z -> Q -> list Q)
    (image_np : image) (blur_mask : grid float) (max_blur_radius : Z)
    (w : nat) :
  valid_image image_np ->
  rect w blur_mask ->
  same_shape blur_mask image_np = true ->
  no_overflow blur_mask ->
  (max_blur_radius < 1)%Z ->
  _apply_depth_blur K image_np blur_mask max_blur_radius
  = if existsb (fltb (Fin 0)) (concat blur_mask)
    then Raise (IndexError "list index out of range")
    else Ok image_np.
Proof.
  intros Hvalid Hrect Hshape Hnoinf Hr.
  apply same_shape_true in Hshape.
  unfold _apply_depth_blur. rewrite (py_range_none _ Hr). cbn [mapM bind].
  assert (shape blur_mask = (length blur_mask, w)
          \/ blur_mask = []) as [Es| ->].
  { destruct blur_mask as [|row rest]; [now right|left].
    apply rect_shape; [exact Hrect|discriminate]. }
  2: { cbn [shape length seq foldM bind concat existsb].
       rewrite image_roundtrip by exact Hvalid. reflexivity. }
  rewrite Es.
  rewrite <- (existsb_grid (fltb (Fin 0)) w blur_mask Hrect).
  rewrite (foldM_raise_or_keep _
             (fun y => existsb (fun x => match lookup2 blur_mask y x with
                                         | Some m => fltb (Fin 0) m
                                         | None => false
                                         end) (seq 0 w))
             (IndexError "list index out of range")).
  - destruct (existsb _ (seq 0 (length blur_mask))); [reflexivity|].
    cbn [bind]. rewrite image_roundtrip by exact Hvalid. reflexivity.
  - intros y Hy. apply in_seq in Hy.
    apply foldM_raise_or_keep. intros x Hx. apply in_seq in Hx.
    destruct (rect_lookup2 w blur_mask y x Hrect) as [m Hm]; [lia|lia|].
    rewrite Hm. apply blur_pixel_without_levels; [exact Hshape|exact Hm|].
    exact (Forall2d_lookup2 _ _ _ _ _ Hnoinf Hm).
Qed.

Lemma naive_compositor_without_blur_levels_witness :
  _apply_depth_blur reference_kernel black_white [[Fin 0; Fin (1 # 2)]] 0
  = if existsb (fltb (Fin 0)) (concat [[Fin 0; Fin (1 # 2)]])
    then Raise (IndexError "list index out of range")
    else Ok black_white.
Proof.
  apply (naive_compositor_without_blur_levels reference_kernel black_white
           [[Fin 0; Fin (1 # 2)]] 0 2).
  - valid_image_tac.
  - unfold rect. forall_list; reflexivity.
  - reflexivity.
  - unfold no_overflow. forall_list. all: discriminate.
  - lia.
Defined.

(** ** AutoFocusPipeline and the endpoint, end to end *)

Section Pipeline.

Variable getGaussianKernel : Z -> Q -> list Q.
Variable depth_model : image -> Result (grid float).
Variable Image_open : list Byte.byte -> Result image.
Variable encode_rgb : image -> string.
Variable encode_gray : grid Z -> string.

(** The [try] block on an image that needs no resizing. *)
Lemma process_body_small (models_loaded : bool)
    (resize_image : image -> Z * Z -> Result image)
    (resize_map : grid float -> Z * Z -> Result (grid float))
    (image_bytes : list Byte.byte) (focus_strength : float) (blur_radius : Z)
    (image_np : image) :
  Image_open image_bytes = Ok image_np ->
  ((shape image_np).1 `max` (shape image_np).2) <= 512 ->
  process_body getGaussianKernel models_loaded depth_model Image_open
    resize_image resize_map encode_rgb encode_gray
    image_bytes focus_strength blur_radius
  = (depth <- _estimate_depth models_loaded depth_model image_np ;;
     focus_plane <-
       (if squeezed image_np
        then Raise (ValueError "not enough values to unpack (expected 2, got 1)")
        else _find_subject_focus_plane depth) ;;
     focus_range <- py_truediv (float64 (Fin (1 # 10))) focus_strength ;;
     blur_mask <- _create_blur_mask getGaussianKernel depth focus_plane
                    focus_range ;;
     result_image <- _apply_depth_blur_optimized getGaussianKernel image_np
                       blur_mask blur_radius ;;
     Ok {| processed_image := encode_rgb result_image;
           depth_map :=
             encode_gray
               (map2d (fun d => astype_uint8 (mul32 d (Fin 255))) depth);
           focus_plane_depth := focus_plane;
           image_size := ((shape image_np).2, (shape image_np).1);
           processing_info := (focus_strength, blur_radius, false) |}).
Proof.
  intros HI Hs. unfold process_body. rewrite HI. cbn [bind].
  destruct (shape image_np) as [h w]. cbn [fst snd] in Hs |- *.
  assert ((512 <? (h `max` w)) = false) as -> by (apply Nat.ltb_ge; exact Hs).
  reflexivity.
Qed.

(** An image whose sides are at most 512 is processed as it is:
    [cv2.resize] plays no part in the response, and the response says
    that no scaling took place. *)
Theorem small_image_is_never_resized (models_loaded : bool)
    (resize_image resize_image' : image -> Z * Z -> Result image)
    (resize_map resize_map' : grid float -> Z * Z -> Result (grid float))
    (image_bytes : list Byte.byte) (focus_strength : float) (blur_radius : Z)
    (image_np : image) :
  Image_open image_bytes = Ok image_np ->
  ((shape image_np).1 `max` (shape image_np).2) <= 512 ->
  process_auto_focus getGaussianKernel models_loaded depth_model Image_open
    resize_image resize_map encode_rgb encode_gray
    image_bytes focus_strength blur_radius
  = process_auto_focus getGaussianKernel models_loaded depth_model Image_open
      resize_image' resize_map' encode_rgb encode_gray
      image_bytes focus_strength blur_radius
  /\ forall response,
       process_auto_focus getGaussianKernel models_loaded depth_model
         Image_open resize_image resize_map encode_rgb encode_gray
         image_bytes focus_strength blur_radius = Ok response ->
       processing_info response = (focus_strength, blur_radius, false).
Proof.
  intros HI Hs. unfold process_auto_focus.
  rewrite (process_body_small models_loaded resize_image resize_map _ _ _ _ HI Hs).
  rewrite (process_body_small models_loaded resize_image' resize_map' _ _ _ _ HI Hs).
  split; [reflexivity|].
  intros response. destruct (negb models_loaded); [discriminate|].
  repeat match goal with
         | |- context [bind ?c _] => destruct c; cbn [bind]; [|discriminate]
         end.
  intros H. injection H as <-. reflexivity.
Qed.

(** What a successful response says about the request: the size is the
    decoded image's own width and height, also when the processing ran on
    a downscaled copy; the parameters come back unchanged; and the
    scaling flag is set exactly when a side exceeds 512. *)
Theorem response_echoes_request (models_loaded : bool)
    (resize_image : image -> Z * Z -> Result image)
    (resize_map : grid float -> Z * Z -> Result (grid float))
    (image_bytes : list Byte.byte) (focus_strength : float) (blur_radius : Z)
    (response : AutoFocusResult) :
  process_auto_focus getGaussianKernel models_loaded depth_model Image_open
    resize_image resize_map encode_rgb encode_gray
    image_bytes focus_strength blur_radius = Ok response ->
  exists image_np,
    Image_open image_bytes = Ok image_np
    /\ image_size response = ((shape image_np).2, (shape image_np).1)
    /\ processing_info response
       = (focus_strength, blur_radius,
          512 <? ((shape image_np).1 `max` (shape image_np).2))
    /\ models_loaded = true
    /\ feqb focus_strength (Fin 0) = false.
Proof.
  unfold process_auto_focus. destruct models_loaded; [|discriminate].
  cbn [negb]. unfold process_body. intros H.
  destruct (Image_open image_bytes) as [image_np|e]; [|discriminate].
  exists image_np. cbn [bind] in H.
  destruct (shape image_np) as [h w]. cbn [fst snd].
  unfold py_truediv in H.
  destruct (feqb focus_strength (Fin 0)) eqn:Hz.
  { repeat match type of H with
           | context [bind ?c _] =>
               destruct c; cbn [bind] in H; try discriminate
           end. }
  repeat match type of H with
         | context [bind ?c _] => destruct c; cbn [bind] in H; [|discriminate]
         end.
  injection H as <-. auto.
Qed.

Lemma flat_map_normalizes_to_nan (v : Q) (depth_map : grid float) :
  constant_map v depth_map ->
  concat depth_map <> [] ->
  normalize_depth depth_map = Ok (map2d (fun _ => NaN) depth_map).
Proof.
  intros Hc Hmap.
  destruct (constant_map_Fin v depth_map Hc) as (qg & Eq & Hv).
  rewrite Eq in Hmap |- *. rewrite concat_map2d in Hmap.
  assert (concat qg <> []) as Hq by (intros E; rewrite E in Hmap; auto).
  destruct (normalize_depth_Fin qg Hq) as (lo & hi & Hlo & Hhi & _ & _ & ->).
  f_equal. rewrite map2d_map2d. apply map2d_ext_in. intros q Hin.
  apply (flat_entry_is_nan v); auto.
Qed.

Lemma nan_crop_raises (depth_map : grid float) :
  concat (center_region depth_map) <> [] ->
  exists msg,
    _find_subject_focus_plane (map2d (fun _ => NaN) depth_map)
    = Raise (ValueError msg).
Proof.
  intros Hne.
  unfold _find_subject_focus_plane, _find_subject_focus_plane_with.
  rewrite (np_histogram_not_finite _ 50 NaN); [eexists; reflexivity| |reflexivity].
  rewrite center_region_map2d, concat_map2d.
  destruct (concat (center_region depth_map)); [congruence|now left].
Qed.

(** What a client sees of a flat depth estimate: when the network
    answers one and the same depth at every pixel of an image of at least
    2x2 pixels, a request that passed every check is answered with
    status 500 and a detail that starts with "Processing failed: ". *)
Theorem flat_depth_is_a_processing_failure
    (resize_image : image -> Z * Z -> Result image)
    (resize_map : grid float -> Z * Z -> Result (grid float))
    (file : UploadFile) (focus_strength : float) (blur_radius : Z)
    (image_bytes : list Byte.byte) (image_np : image)
    (raw_depth : grid float) (v : Q) :
  String.prefix "image/" (content_type file) = true ->
  fleb (Fin (1 # 10)) focus_strength && fleb focus_strength (Fin 3) = true ->
  (3 <= blur_radius <= 50)%Z ->
  read file = Ok image_bytes ->
  Image_open image_bytes = Ok image_np ->
  ((shape image_np).1 `max` (shape image_np).2) <= 512 ->
  depth_model image_np = Ok raw_depth ->
  constant_map v raw_depth ->
  nonempty (center_region raw_depth) = true ->
  exists msg,
    auto_focus_blur getGaussianKernel true depth_model Image_open
      resize_image resize_map encode_rgb encode_gray
      file focus_strength blur_radius
    = Raise (HTTPException 500 (String.append "Processing failed: " msg)).
Proof.
  intros Hp Hfs Hr Hread Hopen Hsmall Hdepth Hflat Hcrop.
  apply nonempty_concat in Hcrop.
  assert (concat raw_depth <> []) as Hmap.
  { destruct (concat (center_region raw_depth)) as [|x l] eqn:E;
      [congruence|].
    assert (In x (concat raw_depth)) as Hin
      by (apply In_center_region; rewrite E; now left).
    intros E'. rewrite E' in Hin. destruct Hin. }
  destruct (nan_crop_raises raw_depth Hcrop) as (msg & Hmsg).
  exists (if squeezed image_np
          then "not enough values to unpack (expected 2, got 1)"%string
          else msg).
  unfold auto_focus_blur. rewrite Hp, Hfs. cbn [negb].
  assert ((3 <=? blur_radius)%Z && (blur_radius <=? 50)%Z = true) as ->.
  { apply andb_true_iff. split; apply Z.leb_le; lia. }
  cbn [negb]. rewrite Hread. cbn [bind].
  unfold process_auto_focus. cbn [negb].
  rewrite (process_body_small true resize_image resize_map _ _ _ _ Hopen Hsmall).
  unfold _estimate_depth. cbn [negb]. rewrite Hdepth. cbn [bind].
  rewrite (flat_map_normalizes_to_nan v raw_depth Hflat Hmap). cbn [bind].
  destruct (squeezed image_np); [reflexivity|].
  rewrite Hmsg. reflexivity.
Qed.

End Pipeline.

Lemma small_image_is_never_resized_witness :
  process_auto_focus reference_kernel true sample_depth_model open_four_reds
    sample_resize sample_resize sample_encode sample_encode [] (Fin 1) 15
  = process_auto_focus reference_kernel true sample_depth_model open_four_reds
      strict_resize strict_resize sample_encode sample_encode [] (Fin 1) 15
  /\ forall response,
       process_auto_focus reference_kernel true sample_depth_model
         open_four_reds sample_resize sample_resize sample_encode
         sample_encode [] (Fin 1) 15 = Ok response ->
       processing_info response = (Fin 1, 15%Z, false).
Proof.
  apply (small_image_is_never_resized reference_kernel sample_depth_model
           open_four_reds sample_encode sample_encode true
           sample_resize strict_resize sample_resize strict_resize
           [] (Fin 1) 15 four_reds).
  - reflexivity.
  - simpl. lia.
Defined.

Lemma response_echoes_request_witness :
  exists response,
    process_auto_focus reference_kernel true sample_depth_model open_four_reds
      sample_resize sample_resize sample_encode sample_encode [] (Fin 1) 15
    = Ok response
    /\ exists image_np,
         open_four_reds [] = Ok image_np
         /\ image_size response = ((shape image_np).2, (shape image_np).1)
         /\ processing_info response
            = (Fin 1, 15%Z,
               512 <? ((shape image_np).1 `max` (shape image_np).2))
         /\ true = true
         /\ feqb (Fin 1) (Fin 0) = false.
Proof.
  eexists. split.
  - vm_compute. reflexivity.
  - apply (response_echoes_request reference_kernel sample_depth_model
             open_four_reds sample_encode sample_encode true
             sample_resize sample_resize [] (Fin 1) 15).
    vm_compute. reflexivity.
Defined.

Lemma flat_depth_is_a_processing_failure_witness :
  exists msg,
    auto_focus_blur reference_kernel true flat_depth_model open_four_reds
      sample_resize sample_resize sample_encode sample_encode
      sample_upload (Fin 1) 15
    = Raise (HTTPException 500 (String.append "Processing failed: " msg)).
Proof.
  apply (flat_depth_is_a_processing_failure reference_kernel flat_depth_model
           open_four_reds sample_encode sample_encode
           sample_resize sample_resize sample_upload (Fin 1) 15 [] four_reds
           (map2d (fun _ => Fin (1 # 2)) four_reds) (1 # 2)).
  - reflexivity.
  - reflexivity.
  - lia.
  - reflexivity.
  - reflexivity.
  - simpl. lia.
  - reflexivity.
  - unfold constant_map, four_reds, map2d. simpl. forall_list.
    all: eexists; split; reflexivity.
  - reflexivity.
Defined.

(** ** DepthBlurCompositor, per pixel: what the loops compute *)






Section NaivePixels.

Variable image_np : image.
Variable blur_mask : grid float.
Variable blur_levels : list (grid fpixel).
Variable w : nat.

Hypothesis mask_rect : rect w blur_mask.
Hypothesis mask_shape : map length blur_mask = map length image_np.
Hypothesis mask_no_overflow : no_overflow blur_mask.
Hypothesis levels_nonempty : blur_levels <> [].
Hypothesis levels_shape :
  forall level, In level blur_levels -> map length level = map length image_np.






End NaivePixels.

(** ** The two compositors side by side *)






